(** * Tower-defense simulation core: a shallow embedding and its properties

    The development follows the JavaScript sources of the game:
    - [utils]      : [distance], [Vector2], [ObjectPool]
    - [entities]   : [Entity], [LivingEntity]           (js/particles.js)
    - [enemies]    : [Enemy], [Scout], [Knight], [Dragon], [EnemyManager]
    - [towers]     : [Tower], [MagicTower], [TowerManager]  (js/towers.js)
    - [game]       : [Game.selectTowerType], [Game.placeTower], gold and score

    JavaScript numbers are idealised as exact rationals ([Q]); quantities that
    the game only ever holds as integers (gold, score, lives, rewards) are [Z].
    A JavaScript [Map] keyed by strings is a [gmap string _]; arrays are lists;
    object references into the live-enemy array are array indices; references
    into the pool's store are store addresses.  [performance.now()] is an
    explicit [now] argument. Rendering, particles and sound are left out: they
    read the state modelled here and never write it. *)

From Stdlib Require Import QArith Qround Lqa ZArith Lia Bool.
From stdpp Require Import gmap strings list fin_maps.

Local Open Scope Q_scope.

(** ** JavaScript arithmetic helpers *)

Module Math.

(** [a <= b] and [a < b] on numbers, as booleans. *)
Definition leb (a b : Q) : bool := Qle_bool a b.
Definition ltb (a b : Q) : bool := negb (Qle_bool b a).

(** [Math.max(a, b)] and [Math.min(a, b)]. *)
Definition max (a b : Q) : Q := if Qle_bool a b then b else a.
Definition min (a b : Q) : Q := if Qle_bool a b then a else b.

(** [Math.round(x)]: the nearest integer, halves rounded up. *)
Definition round (x : Q) : Z := Qfloor (x + (1 # 2)).

(** [Math.floor(x)]. *)
Definition floor (x : Q) : Z := Qfloor x.

End Math.

(** ** utils: [distance] and [Vector2] *)

Record Vector2 := mkVector2 { vx : Q; vy : Q }.

(** [distance(x1, y1, x2, y2) = Math.sqrt((x2-x1)**2 + (y2-y1)**2)].  The
    square root is not rational, and the game only ever compares a distance
    with a radius or with another distance.  Since [Math.sqrt] is monotone,
    both comparisons are made here on the squared distance [distance2]. *)
Definition distance2 (x1 y1 x2 y2 : Q) : Q :=
  (x2 - x1) * (x2 - x1) + (y2 - y1) * (y2 - y1).

(** [Vector2.distanceTo(vector)], squared. *)
Definition distanceTo2 (a b : Vector2) : Q :=
  distance2 (vx a) (vy a) (vx b) (vy b).

(** [d <= r] for a distance [d] given by its square [d2]. *)
Definition dist_le (d2 r : Q) : bool := Math.leb 0 r && Math.leb d2 (r * r).

(** [d < r] for a distance [d] given by its square [d2]. *)
Definition dist_lt (d2 r : Q) : bool := Math.ltb 0 r && Math.ltb d2 (r * r).

(** [d < closestDistance], the running minimum starting at [Infinity]
    ([None]); both distances are given by their squares. *)
Definition closer (d2 : Q) (closestDistance2 : option Q) : bool :=
  match closestDistance2 with
  | None => true
  | Some c2 => Math.ltb d2 c2
  end.

(** ** entities: status effects, [LivingEntity] and [Enemy] state *)

(** One entry of [statusEffects]: [{duration, strength, startTime}]. *)
Record StatusEffect := mkEffect {
  duration : Q;
  strength : Q;
  startTime : Q
}.

(** [Enemy.stats]. *)
Record EnemyStats := mkEnemyStats {
  speed : Q;
  goldReward : Z;
  scoreReward : Z;
  armor : Q;
  magicResist : Q
}.

(** The fields of an [Enemy] object, with those it inherits from [Entity]
    ([position], [isAlive], [isVisible]) and from [LivingEntity].  [Enemy] is
    the only class that extends [LivingEntity], and an enemy's [velocity]
    stays [(0, 0)]: enemies move through [followPath]. *)
Record Enemy := mkEnemy {
  position : Vector2;
  isAlive : bool;
  isVisible : bool;
  maxHealth : Q;
  health : Q;
  isDead : bool;
  invulnerable : bool;
  invulnerabilityTime : Q;
  damageFlashTime : Q;
  lastDamageTime : Q;
  statusEffects : gmap string StatusEffect;
  stats : EnemyStats;
  path : list Vector2;
  currentWaypoint : nat;
  baseSpeed : Q;
  currentSpeed : Q;
  damage : Z;
  statusResistance : gmap string Q;
  lastDamageAmount : option Z;
  enemyType : string
}.

(** Field assignments [e.f = v]. *)
Definition set_position (v : Vector2) (e : Enemy) : Enemy :=
  {| position := v; isAlive := isAlive e; isVisible := isVisible e;
     maxHealth := maxHealth e; health := health e; isDead := isDead e;
     invulnerable := invulnerable e;
     invulnerabilityTime := invulnerabilityTime e;
     damageFlashTime := damageFlashTime e;
     lastDamageTime := lastDamageTime e; statusEffects := statusEffects e;
     stats := stats e; path := path e; currentWaypoint := currentWaypoint e;
     baseSpeed := baseSpeed e; currentSpeed := currentSpeed e;
     damage := damage e; statusResistance := statusResistance e;
     lastDamageAmount := lastDamageAmount e; enemyType := enemyType e |}.

Definition set_isAlive (v : bool) (e : Enemy) : Enemy :=
  {| position := position e; isAlive := v; isVisible := isVisible e;
     maxHealth := maxHealth e; health := health e; isDead := isDead e;
     invulnerable := invulnerable e;
     invulnerabilityTime := invulnerabilityTime e;
     damageFlashTime := damageFlashTime e;
     lastDamageTime := lastDamageTime e; statusEffects := statusEffects e;
     stats := stats e; path := path e; currentWaypoint := currentWaypoint e;
     baseSpeed := baseSpeed e; currentSpeed := currentSpeed e;
     damage := damage e; statusResistance := statusResistance e;
     lastDamageAmount := lastDamageAmount e; enemyType := enemyType e |}.

Definition set_isVisible (v : bool) (e : Enemy) : Enemy :=
  {| position := position e; isAlive := isAlive e; isVisible := v;
     maxHealth := maxHealth e; health := health e; isDead := isDead e;
     invulnerable := invulnerable e;
     invulnerabilityTime := invulnerabilityTime e;
     damageFlashTime := damageFlashTime e;
     lastDamageTime := lastDamageTime e; statusEffects := statusEffects e;
     stats := stats e; path := path e; currentWaypoint := currentWaypoint e;
     baseSpeed := baseSpeed e; currentSpeed := currentSpeed e;
     damage := damage e; statusResistance := statusResistance e;
     lastDamageAmount := lastDamageAmount e; enemyType := enemyType e |}.

Definition set_health (v : Q) (e : Enemy) : Enemy :=
  {| position := position e; isAlive := isAlive e; isVisible := isVisible e;
     maxHealth := maxHealth e; health := v; isDead := isDead e;
     invulnerable := invulnerable e;
     invulnerabilityTime := invulnerabilityTime e;
     damageFlashTime := damageFlashTime e;
     lastDamageTime := lastDamageTime e; statusEffects := statusEffects e;
     stats := stats e; path := path e; currentWaypoint := currentWaypoint e;
     baseSpeed := baseSpeed e; currentSpeed := currentSpeed e;
     damage := damage e; statusResistance := statusResistance e;
     lastDamageAmount := lastDamageAmount e; enemyType := enemyType e |}.

Definition set_isDead (v : bool) (e : Enemy) : Enemy :=
  {| position := position e; isAlive := isAlive e; isVisible := isVisible e;
     maxHealth := maxHealth e; health := health e; isDead := v;
     invulnerable := invulnerable e;
     invulnerabilityTime := invulnerabilityTime e;
     damageFlashTime := damageFlashTime e;
     lastDamageTime := lastDamageTime e; statusEffects := statusEffects e;
     stats := stats e; path := path e; currentWaypoint := currentWaypoint e;
     baseSpeed := baseSpeed e; currentSpeed := currentSpeed e;
     damage := damage e; statusResistance := statusResistance e;
     lastDamageAmount := lastDamageAmount e; enemyType := enemyType e |}.

Definition set_invulnerable (v : bool) (e : Enemy) : Enemy :=
  {| position := position e; isAlive := isAlive e; isVisible := isVisible e;
     maxHealth := maxHealth e; health := health e; isDead := isDead e;
     invulnerable := v; invulnerabilityTime := invulnerabilityTime e;
     damageFlashTime := damageFlashTime e;
     lastDamageTime := lastDamageTime e; statusEffects := statusEffects e;
     stats := stats e; path := path e; currentWaypoint := currentWaypoint e;
     baseSpeed := baseSpeed e; currentSpeed := currentSpeed e;
     damage := damage e; statusResistance := statusResistance e;
     lastDamageAmount := lastDamageAmount e; enemyType := enemyType e |}.

Definition set_invulnerabilityTime (v : Q) (e : Enemy) : Enemy :=
  {| position := position e; isAlive := isAlive e; isVisible := isVisible e;
     maxHealth := maxHealth e; health := health e; isDead := isDead e;
     invulnerable := invulnerable e; invulnerabilityTime := v;
     damageFlashTime := damageFlashTime e;
     lastDamageTime := lastDamageTime e; statusEffects := statusEffects e;
     stats := stats e; path := path e; currentWaypoint := currentWaypoint e;
     baseSpeed := baseSpeed e; currentSpeed := currentSpeed e;
     damage := damage e; statusResistance := statusResistance e;
     lastDamageAmount := lastDamageAmount e; enemyType := enemyType e |}.

Definition set_damageFlashTime (v : Q) (e : Enemy) : Enemy :=
  {| position := position e; isAlive := isAlive e; isVisible := isVisible e;
     maxHealth := maxHealth e; health := health e; isDead := isDead e;
     invulnerable := invulnerable e;
     invulnerabilityTime := invulnerabilityTime e; damageFlashTime := v;
     lastDamageTime := lastDamageTime e; statusEffects := statusEffects e;
     stats := stats e; path := path e; currentWaypoint := currentWaypoint e;
     baseSpeed := baseSpeed e; currentSpeed := currentSpeed e;
     damage := damage e; statusResistance := statusResistance e;
     lastDamageAmount := lastDamageAmount e; enemyType := enemyType e |}.

Definition set_lastDamageTime (v : Q) (e : Enemy) : Enemy :=
  {| position := position e; isAlive := isAlive e; isVisible := isVisible e;
     maxHealth := maxHealth e; health := health e; isDead := isDead e;
     invulnerable := invulnerable e;
     invulnerabilityTime := invulnerabilityTime e;
     damageFlashTime := damageFlashTime e; lastDamageTime := v;
     statusEffects := statusEffects e; stats := stats e; path := path e;
     currentWaypoint := currentWaypoint e; baseSpeed := baseSpeed e;
     currentSpeed := currentSpeed e; damage := damage e;
     statusResistance := statusResistance e;
     lastDamageAmount := lastDamageAmount e; enemyType := enemyType e |}.

Definition set_statusEffects (v : gmap string StatusEffect) (e : Enemy) : Enemy :=
  {| position := position e; isAlive := isAlive e; isVisible := isVisible e;
     maxHealth := maxHealth e; health := health e; isDead := isDead e;
     invulnerable := invulnerable e;
     invulnerabilityTime := invulnerabilityTime e;
     damageFlashTime := damageFlashTime e;
     lastDamageTime := lastDamageTime e; statusEffects := v;
     stats := stats e; path := path e; currentWaypoint := currentWaypoint e;
     baseSpeed := baseSpeed e; currentSpeed := currentSpeed e;
     damage := damage e; statusResistance := statusResistance e;
     lastDamageAmount := lastDamageAmount e; enemyType := enemyType e |}.

Definition set_path (v : list Vector2) (e : Enemy) : Enemy :=
  {| position := position e; isAlive := isAlive e; isVisible := isVisible e;
     maxHealth := maxHealth e; health := health e; isDead := isDead e;
     invulnerable := invulnerable e;
     invulnerabilityTime := invulnerabilityTime e;
     damageFlashTime := damageFlashTime e;
     lastDamageTime := lastDamageTime e; statusEffects := statusEffects e;
     stats := stats e; path := v; currentWaypoint := currentWaypoint e;
     baseSpeed := baseSpeed e; currentSpeed := currentSpeed e;
     damage := damage e; statusResistance := statusResistance e;
     lastDamageAmount := lastDamageAmount e; enemyType := enemyType e |}.

Definition set_currentWaypoint (v : nat) (e : Enemy) : Enemy :=
  {| position := position e; isAlive := isAlive e; isVisible := isVisible e;
     maxHealth := maxHealth e; health := health e; isDead := isDead e;
     invulnerable := invulnerable e;
     invulnerabilityTime := invulnerabilityTime e;
     damageFlashTime := damageFlashTime e;
     lastDamageTime := lastDamageTime e; statusEffects := statusEffects e;
     stats := stats e; path := path e; currentWaypoint := v;
     baseSpeed := baseSpeed e; currentSpeed := currentSpeed e;
     damage := damage e; statusResistance := statusResistance e;
     lastDamageAmount := lastDamageAmount e; enemyType := enemyType e |}.

Definition set_currentSpeed (v : Q) (e : Enemy) : Enemy :=
  {| position := position e; isAlive := isAlive e; isVisible := isVisible e;
     maxHealth := maxHealth e; health := health e; isDead := isDead e;
     invulnerable := invulnerable e;
     invulnerabilityTime := invulnerabilityTime e;
     damageFlashTime := damageFlashTime e;
     lastDamageTime := lastDamageTime e; statusEffects := statusEffects e;
     stats := stats e; path := path e; currentWaypoint := currentWaypoint e;
     baseSpeed := baseSpeed e; currentSpeed := v; damage := damage e;
     statusResistance := statusResistance e;
     lastDamageAmount := lastDamageAmount e; enemyType := enemyType e |}.

Definition set_statusResistance (v : gmap string Q) (e : Enemy) : Enemy :=
  {| position := position e; isAlive := isAlive e; isVisible := isVisible e;
     maxHealth := maxHealth e; health := health e; isDead := isDead e;
     invulnerable := invulnerable e;
     invulnerabilityTime := invulnerabilityTime e;
     damageFlashTime := damageFlashTime e;
     lastDamageTime := lastDamageTime e; statusEffects := statusEffects e;
     stats := stats e; path := path e; currentWaypoint := currentWaypoint e;
     baseSpeed := baseSpeed e; currentSpeed := currentSpeed e;
     damage := damage e; statusResistance := v;
     lastDamageAmount := lastDamageAmount e; enemyType := enemyType e |}.

Definition set_lastDamageAmount (v : option Z) (e : Enemy) : Enemy :=
  {| position := position e; isAlive := isAlive e; isVisible := isVisible e;
     maxHealth := maxHealth e; health := health e; isDead := isDead e;
     invulnerable := invulnerable e;
     invulnerabilityTime := invulnerabilityTime e;
     damageFlashTime := damageFlashTime e;
     lastDamageTime := lastDamageTime e; statusEffects := statusEffects e;
     stats := stats e; path := path e; currentWaypoint := currentWaypoint e;
     baseSpeed := baseSpeed e; currentSpeed := currentSpeed e;
     damage := damage e; statusResistance := statusResistance e;
     lastDamageAmount := v; enemyType := enemyType e |}.

Definition set_enemyType (v : string) (e : Enemy) : Enemy :=
  {| position := position e; isAlive := isAlive e; isVisible := isVisible e;
     maxHealth := maxHealth e; health := health e; isDead := isDead e;
     invulnerable := invulnerable e;
     invulnerabilityTime := invulnerabilityTime e;
     damageFlashTime := damageFlashTime e;
     lastDamageTime := lastDamageTime e; statusEffects := statusEffects e;
     stats := stats e; path := path e; currentWaypoint := currentWaypoint e;
     baseSpeed := baseSpeed e; currentSpeed := currentSpeed e;
     damage := damage e; statusResistance := statusResistance e;
     lastDamageAmount := lastDamageAmount e; enemyType := v |}.


(** ** towers: [Tower] state *)

(** A projectile in flight, as its constructor stores it; [targetEntity] is
    the index of the aimed-at enemy in the live-enemy array. *)
Record Projectile := mkProjectile {
  pstart : Vector2;
  ptarget : Vector2;
  pspeed : Q;
  pdamage : Q;
  targetEntity : option nat;
  piercingCount : nat;
  pexplosionRadius : option Q
}.

(** [Tower.stats]; the last two keys exist only where the subclass passes
    them ([None] is JavaScript's [undefined]). *)
Record TowerStats := mkTowerStats {
  tdamage : Q;
  range : Q;
  attackSpeed : Q;
  cost : Z;
  upgradeCost : Z;
  sellValue : Z;
  stats_explosionRadius : option Q;
  stats_slowAmount : option Q
}.

(** The fields of a tower object; the fields of the three subclasses share
    one record, [towerType] tells them apart ("archer", "cannon", "magic").
    [target] and [slowedEnemies] hold indices into the live-enemy array. *)
Record Tower := mkTower {
  tposition : Vector2;
  tstats : TowerStats;
  level : nat;
  maxLevel : nat;
  target : option nat;
  lastAttackTime : Q;
  attackCooldown : Q;
  canAttack : bool;
  towerType : string;
  projectiles : list Projectile;
  maxProjectiles : nat;
  piercingShots : nat;
  multiShot : nat;
  explosionRadius : Q;
  stunChance : Q;
  burnDamage : Q;
  chainCount : nat;
  chainRange : Q;
  slowAmount : Q;
  slowedEnemies : list nat
}.

Definition set_tdamage (v : Q) (s : TowerStats) : TowerStats :=
  {| tdamage := v; range := range s; attackSpeed := attackSpeed s;
     cost := cost s; upgradeCost := upgradeCost s; sellValue := sellValue s;
     stats_explosionRadius := stats_explosionRadius s;
     stats_slowAmount := stats_slowAmount s |}.

Definition set_range (v : Q) (s : TowerStats) : TowerStats :=
  {| tdamage := tdamage s; range := v; attackSpeed := attackSpeed s;
     cost := cost s; upgradeCost := upgradeCost s; sellValue := sellValue s;
     stats_explosionRadius := stats_explosionRadius s;
     stats_slowAmount := stats_slowAmount s |}.

Definition set_attackSpeed (v : Q) (s : TowerStats) : TowerStats :=
  {| tdamage := tdamage s; range := range s; attackSpeed := v;
     cost := cost s; upgradeCost := upgradeCost s; sellValue := sellValue s;
     stats_explosionRadius := stats_explosionRadius s;
     stats_slowAmount := stats_slowAmount s |}.

Definition set_upgradeCost (v : Z) (s : TowerStats) : TowerStats :=
  {| tdamage := tdamage s; range := range s; attackSpeed := attackSpeed s;
     cost := cost s; upgradeCost := v; sellValue := sellValue s;
     stats_explosionRadius := stats_explosionRadius s;
     stats_slowAmount := stats_slowAmount s |}.

Definition set_sellValue (v : Z) (s : TowerStats) : TowerStats :=
  {| tdamage := tdamage s; range := range s; attackSpeed := attackSpeed s;
     cost := cost s; upgradeCost := upgradeCost s; sellValue := v;
     stats_explosionRadius := stats_explosionRadius s;
     stats_slowAmount := stats_slowAmount s |}.

Definition set_stats_explosionRadius (v : option Q) (s : TowerStats) : TowerStats :=
  {| tdamage := tdamage s; range := range s; attackSpeed := attackSpeed s;
     cost := cost s; upgradeCost := upgradeCost s; sellValue := sellValue s;
     stats_explosionRadius := v; stats_slowAmount := stats_slowAmount s |}.

Definition set_stats_slowAmount (v : option Q) (s : TowerStats) : TowerStats :=
  {| tdamage := tdamage s; range := range s; attackSpeed := attackSpeed s;
     cost := cost s; upgradeCost := upgradeCost s; sellValue := sellValue s;
     stats_explosionRadius := stats_explosionRadius s;
     stats_slowAmount := v |}.

Definition set_tstats (v : TowerStats) (t : Tower) : Tower :=
  {| tposition := tposition t; tstats := v; level := level t;
     maxLevel := maxLevel t; target := target t;
     lastAttackTime := lastAttackTime t; attackCooldown := attackCooldown t;
     canAttack := canAttack t; towerType := towerType t;
     projectiles := projectiles t; maxProjectiles := maxProjectiles t;
     piercingShots := piercingShots t; multiShot := multiShot t;
     explosionRadius := explosionRadius t; stunChance := stunChance t;
     burnDamage := burnDamage t; chainCount := chainCount t;
     chainRange := chainRange t; slowAmount := slowAmount t;
     slowedEnemies := slowedEnemies t |}.

Definition set_level (v : nat) (t : Tower) : Tower :=
  {| tposition := tposition t; tstats := tstats t; level := v;
     maxLevel := maxLevel t; target := target t;
     lastAttackTime := lastAttackTime t; attackCooldown := attackCooldown t;
     canAttack := canAttack t; towerType := towerType t;
     projectiles := projectiles t; maxProjectiles := maxProjectiles t;
     piercingShots := piercingShots t; multiShot := multiShot t;
     explosionRadius := explosionRadius t; stunChance := stunChance t;
     burnDamage := burnDamage t; chainCount := chainCount t;
     chainRange := chainRange t; slowAmount := slowAmount t;
     slowedEnemies := slowedEnemies t |}.

Definition set_target (v : option nat) (t : Tower) : Tower :=
  {| tposition := tposition t; tstats := tstats t; level := level t;
     maxLevel := maxLevel t; target := v; lastAttackTime := lastAttackTime t;
     attackCooldown := attackCooldown t; canAttack := canAttack t;
     towerType := towerType t; projectiles := projectiles t;
     maxProjectiles := maxProjectiles t; piercingShots := piercingShots t;
     multiShot := multiShot t; explosionRadius := explosionRadius t;
     stunChance := stunChance t; burnDamage := burnDamage t;
     chainCount := chainCount t; chainRange := chainRange t;
     slowAmount := slowAmount t; slowedEnemies := slowedEnemies t |}.

Definition set_lastAttackTime (v : Q) (t : Tower) : Tower :=
  {| tposition := tposition t; tstats := tstats t; level := level t;
     maxLevel := maxLevel t; target := target t; lastAttackTime := v;
     attackCooldown := attackCooldown t; canAttack := canAttack t;
     towerType := towerType t; projectiles := projectiles t;
     maxProjectiles := maxProjectiles t; piercingShots := piercingShots t;
     multiShot := multiShot t; explosionRadius := explosionRadius t;
     stunChance := stunChance t; burnDamage := burnDamage t;
     chainCount := chainCount t; chainRange := chainRange t;
     slowAmount := slowAmount t; slowedEnemies := slowedEnemies t |}.

Definition set_attackCooldown (v : Q) (t : Tower) : Tower :=
  {| tposition := tposition t; tstats := tstats t; level := level t;
     maxLevel := maxLevel t; target := target t;
     lastAttackTime := lastAttackTime t; attackCooldown := v;
     canAttack := canAttack t; towerType := towerType t;
     projectiles := projectiles t; maxProjectiles := maxProjectiles t;
     piercingShots := piercingShots t; multiShot := multiShot t;
     explosionRadius := explosionRadius t; stunChance := stunChance t;
     burnDamage := burnDamage t; chainCount := chainCount t;
     chainRange := chainRange t; slowAmount := slowAmount t;
     slowedEnemies := slowedEnemies t |}.

Definition set_towerType (v : string) (t : Tower) : Tower :=
  {| tposition := tposition t; tstats := tstats t; level := level t;
     maxLevel := maxLevel t; target := target t;
     lastAttackTime := lastAttackTime t; attackCooldown := attackCooldown t;
     canAttack := canAttack t; towerType := v; projectiles := projectiles t;
     maxProjectiles := maxProjectiles t; piercingShots := piercingShots t;
     multiShot := multiShot t; explosionRadius := explosionRadius t;
     stunChance := stunChance t; burnDamage := burnDamage t;
     chainCount := chainCount t; chainRange := chainRange t;
     slowAmount := slowAmount t; slowedEnemies := slowedEnemies t |}.

Definition set_projectiles (v : list Projectile) (t : Tower) : Tower :=
  {| tposition := tposition t; tstats := tstats t; level := level t;
     maxLevel := maxLevel t; target := target t;
     lastAttackTime := lastAttackTime t; attackCooldown := attackCooldown t;
     canAttack := canAttack t; towerType := towerType t; projectiles := v;
     maxProjectiles := maxProjectiles t; piercingShots := piercingShots t;
     multiShot := multiShot t; explosionRadius := explosionRadius t;
     stunChance := stunChance t; burnDamage := burnDamage t;
     chainCount := chainCount t; chainRange := chainRange t;
     slowAmount := slowAmount t; slowedEnemies := slowedEnemies t |}.

Definition set_piercingShots (v : nat) (t : Tower) : Tower :=
  {| tposition := tposition t; tstats := tstats t; level := level t;
     maxLevel := maxLevel t; target := target t;
     lastAttackTime := lastAttackTime t; attackCooldown := attackCooldown t;
     canAttack := canAttack t; towerType := towerType t;
     projectiles := projectiles t; maxProjectiles := maxProjectiles t;
     piercingShots := v; multiShot := multiShot t;
     explosionRadius := explosionRadius t; stunChance := stunChance t;
     burnDamage := burnDamage t; chainCount := chainCount t;
     chainRange := chainRange t; slowAmount := slowAmount t;
     slowedEnemies := slowedEnemies t |}.

Definition set_multiShot (v : nat) (t : Tower) : Tower :=
  {| tposition := tposition t; tstats := tstats t; level := level t;
     maxLevel := maxLevel t; target := target t;
     lastAttackTime := lastAttackTime t; attackCooldown := attackCooldown t;
     canAttack := canAttack t; towerType := towerType t;
     projectiles := projectiles t; maxProjectiles := maxProjectiles t;
     piercingShots := piercingShots t; multiShot := v;
     explosionRadius := explosionRadius t; stunChance := stunChance t;
     burnDamage := burnDamage t; chainCount := chainCount t;
     chainRange := chainRange t; slowAmount := slowAmount t;
     slowedEnemies := slowedEnemies t |}.

Definition set_explosionRadius (v : Q) (t : Tower) : Tower :=
  {| tposition := tposition t; tstats := tstats t; level := level t;
     maxLevel := maxLevel t; target := target t;
     lastAttackTime := lastAttackTime t; attackCooldown := attackCooldown t;
     canAttack := canAttack t; towerType := towerType t;
     projectiles := projectiles t; maxProjectiles := maxProjectiles t;
     piercingShots := piercingShots t; multiShot := multiShot t;
     explosionRadius := v; stunChance := stunChance t;
     burnDamage := burnDamage t; chainCount := chainCount t;
     chainRange := chainRange t; slowAmount := slowAmount t;
     slowedEnemies := slowedEnemies t |}.

Definition set_stunChance (v : Q) (t : Tower) : Tower :=
  {| tposition := tposition t; tstats := tstats t; level := level t;
     maxLevel := maxLevel t; target := target t;
     lastAttackTime := lastAttackTime t; attackCooldown := attackCooldown t;
     canAttack := canAttack t; towerType := towerType t;
     projectiles := projectiles t; maxProjectiles := maxProjectiles t;
     piercingShots := piercingShots t; multiShot := multiShot t;
     explosionRadius := explosionRadius t; stunChance := v;
     burnDamage := burnDamage t; chainCount := chainCount t;
     chainRange := chainRange t; slowAmount := slowAmount t;
     slowedEnemies := slowedEnemies t |}.

Definition set_burnDamage (v : Q) (t : Tower) : Tower :=
  {| tposition := tposition t; tstats := tstats t; level := level t;
     maxLevel := maxLevel t; target := target t;
     lastAttackTime := lastAttackTime t; attackCooldown := attackCooldown t;
     canAttack := canAttack t; towerType := towerType t;
     projectiles := projectiles t; maxProjectiles := maxProjectiles t;
     piercingShots := piercingShots t; multiShot := multiShot t;
     explosionRadius := explosionRadius t; stunChance := stunChance t;
     burnDamage := v; chainCount := chainCount t; chainRange := chainRange t;
     slowAmount := slowAmount t; slowedEnemies := slowedEnemies t |}.

Definition set_chainCount (v : nat) (t : Tower) : Tower :=
  {| tposition := tposition t; tstats := tstats t; level := level t;
     maxLevel := maxLevel t; target := target t;
     lastAttackTime := lastAttackTime t; attackCooldown := attackCooldown t;
     canAttack := canAttack t; towerType := towerType t;
     projectiles := projectiles t; maxProjectiles := maxProjectiles t;
     piercingShots := piercingShots t; multiShot := multiShot t;
     explosionRadius := explosionRadius t; stunChance := stunChance t;
     burnDamage := burnDamage t; chainCount := v; chainRange := chainRange t;
     slowAmount := slowAmount t; slowedEnemies := slowedEnemies t |}.

Definition set_chainRange (v : Q) (t : Tower) : Tower :=
  {| tposition := tposition t; tstats := tstats t; level := level t;
     maxLevel := maxLevel t; target := target t;
     lastAttackTime := lastAttackTime t; attackCooldown := attackCooldown t;
     canAttack := canAttack t; towerType := towerType t;
     projectiles := projectiles t; maxProjectiles := maxProjectiles t;
     piercingShots := piercingShots t; multiShot := multiShot t;
     explosionRadius := explosionRadius t; stunChance := stunChance t;
     burnDamage := burnDamage t; chainCount := chainCount t; chainRange := v;
     slowAmount := slowAmount t; slowedEnemies := slowedEnemies t |}.

Definition set_slowAmount (v : Q) (t : Tower) : Tower :=
  {| tposition := tposition t; tstats := tstats t; level := level t;
     maxLevel := maxLevel t; target := target t;
     lastAttackTime := lastAttackTime t; attackCooldown := attackCooldown t;
     canAttack := canAttack t; towerType := towerType t;
     projectiles := projectiles t; maxProjectiles := maxProjectiles t;
     piercingShots := piercingShots t; multiShot := multiShot t;
     explosionRadius := explosionRadius t; stunChance := stunChance t;
     burnDamage := burnDamage t; chainCount := chainCount t;
     chainRange := chainRange t; slowAmount := v;
     slowedEnemies := slowedEnemies t |}.

Definition set_slowedEnemies (v : list nat) (t : Tower) : Tower :=
  {| tposition := tposition t; tstats := tstats t; level := level t;
     maxLevel := maxLevel t; target := target t;
     lastAttackTime := lastAttackTime t; attackCooldown := attackCooldown t;
     canAttack := canAttack t; towerType := towerType t;
     projectiles := projectiles t; maxProjectiles := maxProjectiles t;
     piercingShots := piercingShots t; multiShot := multiShot t;
     explosionRadius := explosionRadius t; stunChance := stunChance t;
     burnDamage := burnDamage t; chainCount := chainCount t;
     chainRange := chainRange t; slowAmount := slowAmount t;
     slowedEnemies := v |}.

(** ** game: [TowerManager] and [Game] state *)

(** A cell of [Game.map]; placement reads only [canBuildTower]. *)
Record Cell := mkCell { canBuildTower : bool }.

Record TowerManager := mkTowerManager {
  towers : list Tower;
  selectedTower : option nat;
  tm_gridSize : Q
}.

(** The fields of [Game] that the simulation core reads or writes.  After
    [Game.init] the global [window.game] is this object. *)
Record Game := mkGame {
  gold : Z;
  lives : Z;
  score : Z;
  gridSize : Q;
  mapWidth : Z;
  mapHeight : Z;
  map : list (list Cell);
  gpath : list Vector2;
  selectedTowerType : option string;
  isPlacingTower : bool;
  towerManager : TowerManager
}.

Definition set_gold (v : Z) (g : Game) : Game :=
  {| gold := v; lives := lives g; score := score g; gridSize := gridSize g;
     mapWidth := mapWidth g; mapHeight := mapHeight g; map := map g;
     gpath := gpath g; selectedTowerType := selectedTowerType g;
     isPlacingTower := isPlacingTower g; towerManager := towerManager g |}.

Definition set_lives (v : Z) (g : Game) : Game :=
  {| gold := gold g; lives := v; score := score g; gridSize := gridSize g;
     mapWidth := mapWidth g; mapHeight := mapHeight g; map := map g;
     gpath := gpath g; selectedTowerType := selectedTowerType g;
     isPlacingTower := isPlacingTower g; towerManager := towerManager g |}.

Definition set_score (v : Z) (g : Game) : Game :=
  {| gold := gold g; lives := lives g; score := v; gridSize := gridSize g;
     mapWidth := mapWidth g; mapHeight := mapHeight g; map := map g;
     gpath := gpath g; selectedTowerType := selectedTowerType g;
     isPlacingTower := isPlacingTower g; towerManager := towerManager g |}.

Definition set_selectedTowerType (v : option string) (g : Game) : Game :=
  {| gold := gold g; lives := lives g; score := score g;
     gridSize := gridSize g; mapWidth := mapWidth g;
     mapHeight := mapHeight g; map := map g; gpath := gpath g;
     selectedTowerType := v; isPlacingTower := isPlacingTower g;
     towerManager := towerManager g |}.

Definition set_isPlacingTower (v : bool) (g : Game) : Game :=
  {| gold := gold g; lives := lives g; score := score g;
     gridSize := gridSize g; mapWidth := mapWidth g;
     mapHeight := mapHeight g; map := map g; gpath := gpath g;
     selectedTowerType := selectedTowerType g; isPlacingTower := v;
     towerManager := towerManager g |}.

Definition set_towerManager (v : TowerManager) (g : Game) : Game :=
  {| gold := gold g; lives := lives g; score := score g;
     gridSize := gridSize g; mapWidth := mapWidth g;
     mapHeight := mapHeight g; map := map g; gpath := gpath g;
     selectedTowerType := selectedTowerType g;
     isPlacingTower := isPlacingTower g; towerManager := v |}.

(** [a || b] on numbers: [b] when [a] is [0] (falsy), else [a]. *)
Definition js_or (a b : Q) : Q := if Qeq_bool a 0 then b else a.
Definition js_orZ (a b : Z) : Z := if (a =? 0)%Z then b else a.

(** [Game.addGold], [Game.addScore] and [Game.takeDamage] (the player loses
    lives when an enemy reaches the end of the path). *)
Definition addGold (amount : Z) (g : Game) : Game :=
  set_gold (gold g + amount)%Z g.

Definition addScore (amount : Z) (g : Game) : Game :=
  set_score (score g + amount)%Z g.

Definition Game_takeDamage (dmg : Z) (g : Game) : Game :=
  set_lives (Z.max 0 (lives g - dmg)) g.

(** ** entities: [LivingEntity] and [Enemy] operations

    A method of [LivingEntity] that calls a hook ([this.onDamage],
    [this.onDeath], [this.onStatusEffectApplied]) runs the override of
    [Enemy] here, as it does on every object the game creates.  The global
    [window.game] is an [option Game]: the hooks test it before use. *)

(** [Entity.destroy]. *)
Definition destroy (e : Enemy) : Enemy :=
  let e := set_isAlive false e in
  set_isVisible false e.

(** The local [finalDamage] that [Enemy.onDamage] computes from the raw
    amount, the damage type and the enemy's armor and magic resistance. *)
Definition finalDamage (amount : Q) (damageType : string) (e : Enemy) : Q :=
  if String.eqb damageType "physical" && Math.ltb 0 (armor (stats e)) then
    Math.max 1 (amount - armor (stats e))
  else if String.eqb damageType "magic" && Math.ltb 0 (magicResist (stats e))
  then Math.max 1 (amount * (1 - magicResist (stats e)))
  else amount.

(** [Enemy.onDamage]: [finalDamage] goes to the damage display
    ([lastDamageAmount], the floating damage text); [health] is not written. *)
Definition onDamage (amount : Q) (damageType : string) (now : Q) (e : Enemy)
  : Enemy :=
  let final := finalDamage amount damageType e in
  let e := set_damageFlashTime 200 e in
  let e := set_lastDamageAmount (Some (Math.round final)) e in
  set_lastDamageTime now e.

(** [LivingEntity.takeDamage(amount, damageType = "normal")]: the returned
    boolean tells whether the damage was taken. *)
Definition takeDamage (amount : Q) (damageType : string) (now : Q) (e : Enemy)
  : bool * Enemy :=
  if invulnerable e || isDead e then (false, e)
  else
    let e := set_health (Math.max 0 (health e - amount)) e in
    let e := set_lastDamageTime now e in
    let e := set_damageFlashTime 200 e in
    let e := set_invulnerable true e in
    let e := set_invulnerabilityTime 100 e in
    let e := onDamage amount damageType now e in
    (true, e).

(** A call without a damage type takes the default ["normal"]. *)
Definition takeDamage_untyped (amount now : Q) (e : Enemy) : bool * Enemy :=
  takeDamage amount "normal" now e.

(** [LivingEntity.heal]; the [onHeal] hook is empty. *)
Definition heal (amount : Q) (e : Enemy) : Enemy :=
  if isDead e then e
  else set_health (Math.min (maxHealth e) (health e + amount)) e.

(** The hook [Enemy.onStatusEffectApplied]: it scales its own parameters
    [duration] and [strength] by the resistance declared for the effect type
    and then draws particles.  The result here is the value of the two
    parameters after the scaling; the hook has no other output. *)
Definition onStatusEffectApplied (type : string) (duration strength : Q)
  (e : Enemy) : Q * Q :=
  match statusResistance e !! type with
  | Some resistance =>
      (duration * (1 - resistance), strength * (1 - resistance))
  | None => (duration, strength)
  end.

(** [LivingEntity.applyStatusEffect(type, duration, strength)]: the entry is
    stored first, the hook runs afterwards on copies of the arguments. *)
Definition applyStatusEffect (type : string) (duration strength now : Q)
  (e : Enemy) : Enemy :=
  let e :=
    set_statusEffects
      (<[type := mkEffect duration strength now]> (statusEffects e)) e in
  let _ := onStatusEffectApplied type duration strength e in
  e.

(** [LivingEntity.hasStatusEffect]. *)
Definition hasStatusEffect (type : string) (e : Enemy) : bool :=
  bool_decide (is_Some (statusEffects e !! type)).

(** [LivingEntity.removeStatusEffect]; the removal hook is empty. *)
Definition removeStatusEffect (type : string) (e : Enemy) : Enemy :=
  if hasStatusEffect type e
  then set_statusEffects (delete type (statusEffects e)) e
  else e.

(** [LivingEntity.updateStatusEffects]: every entry ages by [deltaTime] and
    is removed once its duration is used up. *)
Definition ageEffect (deltaTime : Q) (effect : StatusEffect)
  : option StatusEffect :=
  let d := duration effect - deltaTime in
  if Math.leb d 0 then None
  else Some (mkEffect d (strength effect) (startTime effect)).

Definition updateStatusEffects (deltaTime : Q) (e : Enemy) : Enemy :=
  set_statusEffects (omap (ageEffect deltaTime) (statusEffects e)) e.

(** [LivingEntity.onDeath]. *)
Definition LivingEntity_onDeath (e : Enemy) : Enemy :=
  let e := set_isDead true e in
  set_isAlive false e.

(** [Enemy.onDeath]: the base hook, then the rewards.  [Knight] and [Dragon]
    override it with a call to this one followed by particle effects. *)
Definition onDeath (window_game : option Game) (e : Enemy)
  : option Game * Enemy :=
  let e := LivingEntity_onDeath e in
  match window_game with
  | Some g =>
      let g := addGold (goldReward (stats e)) g in
      let g := addScore (scoreReward (stats e)) g in
      (Some g, e)
  | None => (None, e)
  end.

(** [LivingEntity.update(deltaTime)].  [Entity.update], which it calls
    first, integrates the velocity (zero for an enemy) and advances the
    sprite animation. *)
Definition updateInvulnerability (deltaTime : Q) (e : Enemy) : Enemy :=
  if invulnerable e && Math.ltb 0 (invulnerabilityTime e) then
    let e := set_invulnerabilityTime (invulnerabilityTime e - deltaTime) e in
    if Math.leb (invulnerabilityTime e) 0 then set_invulnerable false e
    else e
  else e.

Definition updateDamageFlash (deltaTime : Q) (e : Enemy) : Enemy :=
  if Math.ltb 0 (damageFlashTime e)
  then set_damageFlashTime (damageFlashTime e - deltaTime) e
  else e.

Definition LivingEntity_update (window_game : option Game) (deltaTime : Q)
  (e : Enemy) : option Game * Enemy :=
  let e := updateInvulnerability deltaTime e in
  let e := updateDamageFlash deltaTime e in
  let e := updateStatusEffects deltaTime e in
  if Math.leb (health e) 0 && negb (isDead e) then onDeath window_game e
  else (window_game, e).

(** [Enemy.updateSpeed]: slow scales the base speed down, freeze zeroes it,
    haste scales the result up. *)
Definition updateSpeed (e : Enemy) : Enemy :=
  let e := set_currentSpeed (baseSpeed e) e in
  let e :=
    match statusEffects e !! "slow" with
    | Some slowEffect =>
        set_currentSpeed (currentSpeed e * (1 - strength slowEffect)) e
    | None => e
    end in
  let e := if hasStatusEffect "freeze" e then set_currentSpeed 0 e else e in
  match statusEffects e !! "haste" with
  | Some hasteEffect =>
      set_currentSpeed (currentSpeed e * (1 + strength hasteEffect)) e
  | None => e
  end.

(** [Enemy.setPath]: the waypoints are copied and the enemy is put on the
    first of them. *)
Definition Enemy_setPath (p : list Vector2) (e : Enemy) : Enemy :=
  let e := set_path p e in
  let e := set_currentWaypoint 0%nat e in
  match p with
  | p0 :: _ => set_position (mkVector2 (vx p0) (vy p0)) e
  | [] => e
  end.

(** [Enemy.hasReachedEnd] and [Enemy.onReachEnd]. *)
Definition hasReachedEnd (e : Enemy) : bool :=
  (length (path e) <=? currentWaypoint e)%nat.

Definition onReachEnd (window_game : option Game) (e : Enemy)
  : option Game * Enemy :=
  let e := destroy e in
  (Game_takeDamage (damage e) <$> window_game, e).

(** [Enemy.followPath] and [Enemy.update].  The direction of a move is a
    normalised vector, which takes a square root: [sqrt] stands for
    [Math.sqrt], and nothing is assumed about the value it returns.  The
    arrival test [distanceToTarget < 5] is made on the squared distance. *)
Section EnemyUpdate.

Variable sqrt : Q -> Q.

(** [Vector2.magnitude] and [Vector2.normalize]. *)
Definition magnitude (v : Vector2) : Q := sqrt (vx v * vx v + vy v * vy v).

Definition normalize (v : Vector2) : Vector2 :=
  let mag := magnitude v in
  if Math.ltb 0 mag then mkVector2 (vx v / mag) (vy v / mag) else v.

Definition followPath (deltaTime : Q) (e : Enemy) : Enemy :=
  if (length (path e) =? 0)%nat || (length (path e) <=? currentWaypoint e)%nat
  then e
  else
    match path e !! currentWaypoint e with
    | None => e
    | Some target =>
        if dist_lt (distanceTo2 (position e) target) 5
        then set_currentWaypoint (S (currentWaypoint e)) e
        else
          let direction :=
            normalize (mkVector2 (vx target - vx (position e))
                         (vy target - vy (position e))) in
          let moveDistance := currentSpeed e * deltaTime * 0.001 in
          set_position
            (mkVector2 (vx (position e) + vx direction * moveDistance)
               (vy (position e) + vy direction * moveDistance)) e
    end.

(** [Enemy.update(deltaTime)]; [Dragon.update] adds animation to it. *)
Definition Enemy_update (window_game : option Game) (deltaTime : Q)
  (e : Enemy) : option Game * Enemy :=
  let (window_game, e) := LivingEntity_update window_game deltaTime e in
  if negb (isAlive e) || isDead e then (window_game, e)
  else
    let e := updateSpeed e in
    let e := followPath deltaTime e in
    let e :=
      if Math.ltb 0 (damageFlashTime e)
      then set_damageFlashTime (Math.max 0 (damageFlashTime e - deltaTime)) e
      else e in
    if hasReachedEnd e then onReachEnd window_game e else (window_game, e).

End EnemyUpdate.

(** *** Constructors *)

(** The [stats] literal a subclass passes to the [Enemy] constructor; the
    three subclasses give every key. *)
Record RawStats := mkRawStats {
  raw_health : Q;
  raw_speed : Q;
  raw_goldReward : Z;
  raw_scoreReward : Z;
  raw_armor : Q;
  raw_magicResist : Q;
  raw_damage : Z
}.

(** [new Enemy(x, y, stats)].  In [this.stats] the spread [...stats] comes
    last, so a key present in [stats] keeps the value given there. *)
Definition Enemy_new (x y : Q) (s : RawStats) : Enemy :=
  {| position := mkVector2 x y;
     isAlive := true;
     isVisible := true;
     maxHealth := js_or (raw_health s) 50;
     health := js_or (raw_health s) 50;
     isDead := false;
     invulnerable := false;
     invulnerabilityTime := 0;
     damageFlashTime := 0;
     lastDamageTime := 0;
     statusEffects := ∅;
     stats := mkEnemyStats (raw_speed s) (raw_goldReward s)
                (raw_scoreReward s) (raw_armor s) (raw_magicResist s);
     path := [];
     currentWaypoint := 0;
     baseSpeed := raw_speed s;
     currentSpeed := raw_speed s;
     damage := js_orZ (raw_damage s) 1;
     statusResistance := ∅;
     lastDamageAmount := None;
     enemyType := "" |}.

Definition Scout (x y : Q) : Enemy :=
  let e := Enemy_new x y (mkRawStats 20 90 2 5 0 0 1) in
  let e := set_enemyType "scout" e in
  let e := set_statusResistance (<["slow" := 0]> (statusResistance e)) e in
  set_statusResistance (<["freeze" := 0]> (statusResistance e)) e.

Definition Knight (x y : Q) : Enemy :=
  let e := Enemy_new x y (mkRawStats 80 35 5 15 3 0.1 2) in
  let e := set_enemyType "knight" e in
  let e := set_statusResistance (<["slow" := 0.3]> (statusResistance e)) e in
  set_statusResistance (<["freeze" := 0.5]> (statusResistance e)) e.

Definition Dragon (x y : Q) : Enemy :=
  let e := Enemy_new x y (mkRawStats 50 55 8 30 1 0.3 3) in
  let e := set_enemyType "dragon" e in
  let e := set_statusResistance (<["slow" := 0.6]> (statusResistance e)) e in
  set_statusResistance (<["freeze" := 0.8]> (statusResistance e)) e.

(** A run of update ticks, as far as the invulnerability window goes, and
    the time the ticks add up to. *)
Fixpoint tick_invulnerability (deltaTimes : list Q) (e : Enemy) : Enemy :=
  match deltaTimes with
  | [] => e
  | dt :: rest => tick_invulnerability rest (updateInvulnerability dt e)
  end.

Fixpoint total (deltaTimes : list Q) : Q :=
  match deltaTimes with
  | [] => 0
  | dt :: rest => dt + total rest
  end.

(** A call of the damage and heal interface of a living entity, and a run of
    such calls; [statesAfter] lists the entity after each call. *)
Inductive Call :=
| CallTakeDamage (amount : Q) (damageType : string) (now : Q)
| CallHeal (amount : Q).

Definition amountOf (c : Call) : Q :=
  match c with
  | CallTakeDamage amount _ _ => amount
  | CallHeal amount => amount
  end.

Definition perform (c : Call) (e : Enemy) : Enemy :=
  match c with
  | CallTakeDamage amount damageType now =>
      snd (takeDamage amount damageType now e)
  | CallHeal amount => heal amount e
  end.

Fixpoint statesAfter (calls : list Call) (e : Enemy) : list Enemy :=
  match calls with
  | [] => []
  | c :: rest => perform c e :: statesAfter rest (perform c e)
  end.

Definition healthInRange (e : Enemy) : Prop :=
  0 <= health e /\ health e <= maxHealth e.

(** A run of update ticks of one entity, the game threaded through. *)
Fixpoint updates (window_game : option Game) (deltaTimes : list Q) (e : Enemy)
  : option Game * Enemy :=
  match deltaTimes with
  | [] => (window_game, e)
  | dt :: rest =>
      let r := LivingEntity_update window_game dt e in
      updates (fst r) rest (snd r)
  end.

(** ** game: construction *)

(** [Game.createMap] before decorations and path cells are marked: every
    cell can take a tower. *)
Definition createMap (mapWidth mapHeight : nat) : list (list Cell) :=
  replicate mapHeight (replicate mapWidth (mkCell true)).

(** The waypoints of [Game.setupPath]. *)
Definition setupPath : list Vector2 :=
  [ mkVector2 (-30) 210; mkVector2 30 210; mkVector2 90 210;
    mkVector2 150 210; mkVector2 210 150; mkVector2 270 90;
    mkVector2 330 90; mkVector2 390 150; mkVector2 450 210;
    mkVector2 510 270; mkVector2 570 330; mkVector2 630 330;
    mkVector2 690 270; mkVector2 750 210; mkVector2 810 150;
    mkVector2 870 150; mkVector2 930 150 ].

(** [new TowerManager()]. *)
Definition TowerManager_new : TowerManager :=
  {| towers := []; selectedTower := None; tm_gridSize := 40 |}.

(** [new Game(canvasId)], given the map it builds (static configuration). *)
Definition Game_new (m : list (list Cell)) : Game :=
  {| gold := 50;
     lives := 20;
     score := 0;
     gridSize := 60;
     mapWidth := 15;
     mapHeight := 10;
     map := m;
     gpath := setupPath;
     selectedTowerType := None;
     isPlacingTower := false;
     towerManager := TowerManager_new |}.

(** ** utils: [ObjectPool]

    The pooled objects live in a store of type [St] and are known to the pool
    by their references (store addresses).  [createFn] allocates an object
    and returns its reference; [resetFn] rewrites the object behind a
    reference.  [pool] and [activeObjects] are arrays: [push] appends at the
    end and [pop] takes from the end. *)

Record ObjectPool := mkObjectPool {
  pool : list nat;
  activeObjects : list nat
}.

(** [array.indexOf(obj)]: the first index holding [obj]; [None] is [-1]. *)
Fixpoint indexOf (obj : nat) (array : list nat) : option nat :=
  match array with
  | [] => None
  | x :: rest =>
      if (x =? obj)%nat then Some 0%nat else S <$> indexOf obj rest
  end.

(** [array.splice(index, 1)]. *)
Definition splice1 (index : nat) (array : list nat) : list nat :=
  take index array ++ drop (S index) array.

Section ObjectPool.

Context {St : Type}.
Variable createFn : St -> nat * St.
Variable resetFn : nat -> St -> St.

(** The constructor's loop: [initialSize] objects are created into [pool]. *)
Fixpoint fillPool (initialSize : nat) (p : list nat) (s : St) : list nat * St :=
  match initialSize with
  | O => (p, s)
  | S n => let (obj, s) := createFn s in fillPool n (p ++ [obj]) s
  end.

Definition ObjectPool_new (initialSize : nat) (s : St) : ObjectPool * St :=
  let (p, s) := fillPool initialSize [] s in
  (mkObjectPool p [], s).

(** [ObjectPool.get()]. *)
Definition ObjectPool_get (p : ObjectPool) (s : St) : nat * ObjectPool * St :=
  match last (pool p) with
  | Some obj =>
      (obj, mkObjectPool (removelast (pool p)) (activeObjects p ++ [obj]), s)
  | None =>
      let (obj, s) := createFn s in
      (obj, mkObjectPool (pool p) (activeObjects p ++ [obj]), s)
  end.

(** [ObjectPool.release(obj)]: an object that is not active is ignored. *)
Definition ObjectPool_release (obj : nat) (p : ObjectPool) (s : St)
  : ObjectPool * St :=
  match indexOf obj (activeObjects p) with
  | Some index =>
      let active := splice1 index (activeObjects p) in
      let s := resetFn obj s in
      (mkObjectPool (pool p ++ [obj]) active, s)
  | None => (p, s)
  end.

End ObjectPool.

(** ** enemies: [EnemyManager] *)

(** The store of enemy objects: the object behind each reference, and the
    next free reference. *)
Record Store := mkStore {
  objects : gmap nat Enemy;
  nextRef : nat
}.

(** [new C(...)]: the object gets a fresh reference. *)
Definition alloc (e : Enemy) (s : Store) : nat * Store :=
  (nextRef s, mkStore (<[nextRef s := e]> (objects s)) (S (nextRef s))).

(** Writes to the fields of the object behind [r]. *)
Definition modify (f : Enemy -> Enemy) (r : nat) (s : Store) : Store :=
  mkStore (alter f r (objects s)) (nextRef s).

(** The object behind [r] is replaced by [e]: any sequence of writes to its
    fields. *)
Definition overwrite (r : nat) (e : Enemy) (s : Store) : Store :=
  mkStore (<[r := e]> (objects s)) (nextRef s).

Record EnemyManager := mkEnemyManager {
  enemies : list nat;
  enemyPool : gmap string ObjectPool;
  spawnPoint : Vector2;
  em_path : list Vector2
}.

(** [EnemyManager.resetEnemy(enemy)], on the fields of the object. *)
Definition resetEnemy (m : EnemyManager) (enemy : Enemy) : Enemy :=
  let enemy :=
    match em_path m with
    | p0 :: _ => set_position (mkVector2 (vx p0) (vy p0)) enemy
    | [] =>
        set_position (mkVector2 (vx (spawnPoint m)) (vy (spawnPoint m))) enemy
    end in
  let enemy := set_health (maxHealth enemy) enemy in
  let enemy := set_isAlive true enemy in
  let enemy := set_isDead false enemy in
  let enemy := set_isVisible true enemy in
  let enemy := set_currentWaypoint 0%nat enemy in
  let enemy := set_statusEffects ∅ enemy in
  let enemy := set_currentSpeed (baseSpeed enemy) enemy in
  let enemy := set_invulnerable false enemy in
  set_damageFlashTime 0 enemy.

(** The callbacks [initializePools] gives to the pool of an enemy type:
    [() => new Scout(0, 0)] (or [Knight], [Dragon]) and
    [(enemy) => this.resetEnemy(enemy)]. *)
Definition createFn (new : Q -> Q -> Enemy) (s : Store) : nat * Store :=
  alloc (new 0 0) s.

Definition resetFn (m : EnemyManager) (obj : nat) (s : Store) : Store :=
  modify (resetEnemy m) obj s.

(** The class behind an enemy type name. *)
Definition enemyClass (enemyType : string) : Q -> Q -> Enemy :=
  if String.eqb enemyType "scout" then Scout
  else if String.eqb enemyType "knight" then Knight
  else Dragon.

(** [new EnemyManager()] with [initializePools]: pools of 10 scouts,
    5 knights and 3 dragons. *)
Definition EnemyManager_new (s : Store) : EnemyManager * Store :=
  let (scouts, s) := ObjectPool_new (createFn Scout) 10 s in
  let (knights, s) := ObjectPool_new (createFn Knight) 5 s in
  let (dragons, s) := ObjectPool_new (createFn Dragon) 3 s in
  (mkEnemyManager []
     (<["dragon" := dragons]> (<["knight" := knights]>
        (<["scout" := scouts]> ∅)))
     (mkVector2 (-30) 210) [], s).

(** [EnemyManager.setPath(path)]. *)
Definition EnemyManager_setPath (p : list Vector2) (m : EnemyManager)
  : EnemyManager :=
  mkEnemyManager (enemies m) (enemyPool m) (spawnPoint m) p.

(** [EnemyManager.spawnEnemy(enemyType)]; [None] is [null]. *)
Definition spawnEnemy (enemyType : string) (m : EnemyManager) (s : Store)
  : option nat * EnemyManager * Store :=
  match enemyPool m !! enemyType with
  | None => (None, m, s)
  | Some p =>
      let '(enemy, p, s) := ObjectPool_get (createFn (enemyClass enemyType)) p s in
      let s := modify (Enemy_setPath (em_path m)) enemy s in
      (Some enemy,
       mkEnemyManager (enemies m ++ [enemy])
         (<[enemyType := p]> (enemyPool m)) (spawnPoint m) (em_path m),
       s)
  end.

(** [EnemyManager.removeEnemy(enemy)]: the pool is the one keyed by the
    enemy's own [enemyType]. *)
Definition removeEnemy (enemy : nat) (m : EnemyManager) (s : Store)
  : EnemyManager * Store :=
  match indexOf enemy (enemies m) with
  | None => (m, s)
  | Some index =>
      let live := splice1 index (enemies m) in
      match objects s !! enemy with
      | None => (mkEnemyManager live (enemyPool m) (spawnPoint m) (em_path m), s)
      | Some e =>
          match enemyPool m !! enemyType e with
          | None =>
              (mkEnemyManager live (enemyPool m) (spawnPoint m) (em_path m), s)
          | Some p =>
              let (p, s) := ObjectPool_release (resetFn m) enemy p s in
              (mkEnemyManager live (<[enemyType e := p]> (enemyPool m))
                 (spawnPoint m) (em_path m), s)
          end
      end
  end.

(** ** towers: construction and upgrades *)

(** [new Tower(x, y, stats)]; every subclass passes the six base stats, so
    the [||] defaults of the constructor never apply.  Fields that belong to
    another subclass hold [0] (or the empty list). *)
Definition Tower_new (x y : Q) (s : TowerStats) : Tower :=
  {| tposition := mkVector2 x y;
     tstats := s;
     level := 1;
     maxLevel := 3;
     target := None;
     lastAttackTime := 0;
     attackCooldown := 1000 / attackSpeed s;
     canAttack := true;
     towerType := "";
     projectiles := [];
     maxProjectiles := 8;
     piercingShots := 0;
     multiShot := 0;
     explosionRadius := 0;
     stunChance := 0;
     burnDamage := 0;
     chainCount := 0;
     chainRange := 0;
     slowAmount := 0;
     slowedEnemies := [] |}.

Definition ArcherTower (x y : Q) : Tower :=
  let t := Tower_new x y (mkTowerStats 12 85 2.5 10 15 8 None None) in
  let t := set_towerType "archer" t in
  let t := set_piercingShots 0%nat t in
  set_multiShot 1%nat t.

Definition CannonTower (x y : Q) : Tower :=
  let t := Tower_new x y (mkTowerStats 25 130 0.4 25 40 20 (Some 80) None) in
  let t := set_towerType "cannon" t in
  let t := set_explosionRadius 80 t in
  let t := set_stunChance 0 t in
  set_burnDamage 0 t.

Definition MagicTower (x y : Q) : Tower :=
  let t := Tower_new x y (mkTowerStats 2 100 1.0 20 30 15 None (Some 0.36)) in
  let t := set_towerType "magic" t in
  let t := set_chainCount 3%nat t in
  let t := set_chainRange 60 t in
  let t := set_slowAmount 0.36 t in
  let t := set_attackCooldown 0 t in
  set_slowedEnemies [] t.

(** [upgradeSpecialAbilities] of the three subclasses; the base method does
    nothing. *)
Definition ArcherTower_upgradeSpecialAbilities (t : Tower) : Tower :=
  if (level t =? 2)%nat then set_piercingShots 2%nat t
  else if (level t =? 3)%nat then
    let t := set_multiShot 3%nat t in
    set_piercingShots 3%nat t
  else t.

Definition CannonTower_upgradeSpecialAbilities (t : Tower) : Tower :=
  if (level t =? 2)%nat then
    let t := set_explosionRadius (explosionRadius t + 20) t in
    set_stunChance 0.3 t
  else if (level t =? 3)%nat then
    let t := set_explosionRadius (explosionRadius t + 30) t in
    let t := set_stunChance 0.5 t in
    set_burnDamage (inject_Z (Math.round (tdamage (tstats t) * 0.2))) t
  else t.

Definition MagicTower_upgradeSpecialAbilities (t : Tower) : Tower :=
  if (level t =? 2)%nat then
    let t := set_chainCount 4%nat t in
    let t := set_chainRange 80 t in
    let t := set_slowAmount 0.48 t in
    set_tstats
      (set_range (inject_Z (Math.round (range (tstats t) * 1.2))) (tstats t)) t
  else if (level t =? 3)%nat then
    let t := set_chainCount 5%nat t in
    let t := set_chainRange 100 t in
    let t := set_slowAmount 0.54 t in
    let t :=
      set_tstats
        (set_range (inject_Z (Math.round (range (tstats t) * 1.3))) (tstats t))
        t in
    set_tstats (set_attackSpeed 1.5 (tstats t)) t
  else t.

Definition upgradeSpecialAbilities (t : Tower) : Tower :=
  if String.eqb (towerType t) "archer" then ArcherTower_upgradeSpecialAbilities t
  else if String.eqb (towerType t) "cannon"
  then CannonTower_upgradeSpecialAbilities t
  else if String.eqb (towerType t) "magic"
  then MagicTower_upgradeSpecialAbilities t
  else t.

(** [onUpgrade] of the three subclasses, as far as it writes fields:
    the cannon widens [stats.explosionRadius], the magic tower raises
    [stats.slowAmount] up to 0.8. *)
Definition onUpgrade (t : Tower) : Tower :=
  if String.eqb (towerType t) "cannon" then
    set_tstats
      (set_stats_explosionRadius
         ((fun r => r + 5) <$> stats_explosionRadius (tstats t)) (tstats t)) t
  else if String.eqb (towerType t) "magic" then
    set_tstats
      (set_stats_slowAmount
         ((fun a => Math.min 0.8 (a + 0.1)) <$> stats_slowAmount (tstats t))
         (tstats t)) t
  else t.

(** [Tower.upgrade()]: the returned boolean tells whether the tower was
    upgraded. *)
Definition upgrade (t : Tower) : bool * Tower :=
  if (maxLevel t <=? level t)%nat then (false, t)
  else
    let t := set_level (S (level t)) t in
    let upgradeMultiplier : Q := if (level t =? 2)%nat then 1.3 else 1.5 in
    let t :=
      set_tstats
        (set_tdamage
           (inject_Z (Math.round (tdamage (tstats t) * upgradeMultiplier)))
           (tstats t)) t in
    let t :=
      set_tstats
        (set_range
           (inject_Z
              (Math.round
                 (range (tstats t) * (1 + (upgradeMultiplier - 1) * 0.5))))
           (tstats t)) t in
    let t :=
      set_tstats
        (set_attackSpeed
           (attackSpeed (tstats t) * (1 + (upgradeMultiplier - 1) * 0.8))
           (tstats t)) t in
    let t := set_attackCooldown (1000 / attackSpeed (tstats t)) t in
    let t := upgradeSpecialAbilities t in
    let t :=
      set_tstats
        (set_upgradeCost
           (Math.round (inject_Z (upgradeCost (tstats t)) * 1.6)) (tstats t))
        t in
    let t :=
      set_tstats
        (set_sellValue
           (Math.round (inject_Z (sellValue (tstats t)) * 1.4)) (tstats t)) t in
    let t := onUpgrade t in
    (true, t).

(** ** towers: targeting and attacks

    [enemies] is the live-enemy array of the enemy manager; a tower's
    [target] and the members of the sets [hitEnemies] and [slowedEnemies] are
    indices into it.  A [for (const enemy of enemies)] loop is [for_of]: the
    body sees the loop variables, the index of the element and the element. *)

Fixpoint for_of_from {A : Type} (body : A -> nat -> Enemy -> A) (i : nat)
  (enemies : list Enemy) (acc : A) : A :=
  match enemies with
  | [] => acc
  | enemy :: rest => for_of_from body (S i) rest (body acc i enemy)
  end.

Definition for_of {A : Type} (body : A -> nat -> Enemy -> A)
  (enemies : list Enemy) (acc : A) : A :=
  for_of_from body 0 enemies acc.

(** [this.distanceTo(enemy)], squared. *)
Definition Tower_distanceTo2 (t : Tower) (enemy : Enemy) : Q :=
  distanceTo2 (tposition t) (position enemy).

(** [this.target && this.target.isAlive &&
     this.distanceTo(this.target) <= this.stats.range * factor]. *)
Definition targetWithin (factor : Q) (t : Tower) (enemies : list Enemy) : bool :=
  match target t with
  | Some i =>
      match enemies !! i with
      | Some enemy =>
          isAlive enemy &&
          dist_le (Tower_distanceTo2 t enemy) (range (tstats t) * factor)
      | None => false
      end
  | None => false
  end.

(** The body of the loop of [Tower.findTarget]; the loop variables
    [closestEnemy] and [closestDistance] are [None] for [null] and
    [Infinity]. *)
Definition findTarget_body (t : Tower) (closest : option (nat * Q)) (i : nat)
  (enemy : Enemy) : option (nat * Q) :=
  if negb (isAlive enemy) then closest
  else
    let d2 := Tower_distanceTo2 t enemy in
    if dist_le d2 (range (tstats t)) && closer d2 (snd <$> closest)
    then Some (i, d2)
    else closest.

(** [Tower.findTarget(enemies)]: the target kept or found is written to
    [this.target] and returned. *)
Definition findTarget (enemies : list Enemy) (t : Tower) : option nat * Tower :=
  if targetWithin 2.0 t enemies then (target t, t)
  else
    let closestEnemy := fst <$> for_of (findTarget_body t) enemies None in
    (closestEnemy, set_target closestEnemy t).

(** [Tower.canAttackTarget()]. *)
Definition canAttackTarget (t : Tower) (enemies : list Enemy) : bool :=
  targetWithin 1.5 t enemies.

(** [projectiles.push(p)] under the cap: the oldest is dropped first. *)
Definition pushProjectile (p : Projectile) (t : Tower) : Tower :=
  let t :=
    if (maxProjectiles t <=? length (projectiles t))%nat
    then set_projectiles (List.tl (projectiles t)) t
    else t in
  set_projectiles (projectiles t ++ [p]) t.

(** [attack()] of the archer and of the cannon: one projectile aimed at the
    target's current position.  The base method is empty. *)
Definition attack (enemies : list Enemy) (t : Tower) : Tower :=
  match target t with
  | None => t
  | Some i =>
      match enemies !! i with
      | None => t
      | Some enemy =>
          if String.eqb (towerType t) "archer" then
            pushProjectile
              (mkProjectile (tposition t) (position enemy) 400
                 (tdamage (tstats t)) (Some i) (piercingShots t) None) t
          else if String.eqb (towerType t) "cannon" then
            pushProjectile
              (mkProjectile (tposition t) (position enemy) 250
                 (tdamage (tstats t)) None 0
                 (stats_explosionRadius (tstats t))) t
          else t
      end
  end.

(** [Tower.update(deltaTime, enemies)] from the target check on, with
    [performance.now()] as [now]; the boolean tells whether the tower
    attacked in this tick. *)
Definition Tower_update (now : Q) (enemies : list Enemy) (t : Tower)
  : bool * Tower :=
  if negb (canAttack t) then (false, t)
  else
    let t :=
      match target t with
      | Some _ => if targetWithin 2.0 t enemies then t else set_target None t
      | None => t
      end in
    let t := snd (findTarget enemies t) in
    if canAttackTarget t enemies then
      if Math.leb (attackCooldown t) (now - lastAttackTime t) then
        let t := attack enemies t in
        (true, set_lastAttackTime now t)
      else (false, t)
    else (false, t).

(** ** towers: the magic tower *)

(** [MagicTower.attackEnemy(enemy)]: the strike is a [takeDamage] without a
    damage type. *)
Definition attackEnemy (now : Q) (t : Tower) (i : nat) (enemies : list Enemy)
  : list Enemy :=
  match enemies !! i with
  | Some enemy =>
      if isAlive enemy
      then <[i := snd (takeDamage_untyped (tdamage (tstats t)) now enemy)]> enemies
      else enemies
  | None => enemies
  end.

(** The body of the loop of [MagicTower.findNextChainTarget]. *)
Definition findNextChainTarget_body (t : Tower) (currentTarget : Enemy)
  (hitEnemies : list nat) (closest : option (nat * Q)) (i : nat)
  (enemy : Enemy) : option (nat * Q) :=
  if negb (isAlive enemy) || bool_decide (i ∈ hitEnemies) then closest
  else
    let d2 := distanceTo2 (position currentTarget) (position enemy) in
    if dist_le d2 (chainRange t) then
      if closer d2 (snd <$> closest) then Some (i, d2) else closest
    else closest.

(** [MagicTower.findNextChainTarget(currentTarget, hitEnemies)]. *)
Definition findNextChainTarget (t : Tower) (currentTarget : nat)
  (hitEnemies : list nat) (enemies : list Enemy) : option nat :=
  match enemies !! currentTarget with
  | Some current =>
      fst <$> for_of (findNextChainTarget_body t current hitEnemies) enemies None
  | None => None
  end.

(** The [while] loop of [performChainLightning]: [hops] is what is left of
    [this.chainCount - chainCount]; every round either adds a hit and uses a
    hop up or leaves the loop. *)
Fixpoint chainLoop (now : Q) (t : Tower) (hops : nat) (currentTarget : nat)
  (hitEnemies : list nat) (enemies : list Enemy) : list nat * list Enemy :=
  match hops with
  | O => (hitEnemies, enemies)
  | S hops' =>
      match findNextChainTarget t currentTarget hitEnemies enemies with
      | Some nextTarget =>
          chainLoop now t hops' nextTarget (hitEnemies ++ [nextTarget])
            (attackEnemy now t nextTarget enemies)
      | None => (hitEnemies, enemies)
      end
  end.

(** [MagicTower.performChainLightning(firstTarget)]: the result is the set
    [hitEnemies] in the order of the hits, and the enemies after them. *)
Definition performChainLightning (now : Q) (t : Tower) (firstTarget : nat)
  (enemies : list Enemy) : list nat * list Enemy :=
  let enemies := attackEnemy now t firstTarget enemies in
  chainLoop now t (chainCount t - 1) firstTarget [firstTarget] enemies.

(** The slow field of [MagicTower.update]: every live enemy in range is
    recorded and gets a fresh 10 s slow. *)
Definition slowField_body (now : Q) (t : Tower)
  (acc : list nat * list Enemy) (i : nat) (enemy : Enemy)
  : list nat * list Enemy :=
  if negb (isAlive enemy) then acc
  else if dist_le (Tower_distanceTo2 t enemy) (range (tstats t)) then
    (fst acc ++ [i],
     <[i := applyStatusEffect "slow" 10000 (slowAmount t) now enemy]> (snd acc))
  else acc.

(** Enemies that were slowed and are no longer in range lose the slow. *)
Definition unslow (currentEnemiesInRange : list nat) (enemies : list Enemy)
  (i : nat) : list Enemy :=
  if bool_decide (i ∈ currentEnemiesInRange) then enemies
  else
    match enemies !! i with
    | Some enemy => <[i := removeStatusEffect "slow" enemy]> enemies
    | None => enemies
    end.

(** [MagicTower.update(deltaTime, enemies)], with the game and its enemy
    manager in place; the third component is the chain of hits when the
    tower struck in this tick. *)
Definition MagicTower_update (now deltaTime : Q) (enemies : list Enemy)
  (t : Tower) : Tower * list Enemy * option (list nat) :=
  if negb (canAttack t) then (t, enemies, None)
  else
    let t := set_attackCooldown (attackCooldown t - deltaTime) t in
    let '(currentEnemiesInRange, enemies) :=
      for_of (slowField_body now t) enemies ([], enemies) in
    let enemies :=
      fold_left (unslow currentEnemiesInRange) (slowedEnemies t) enemies in
    let t := set_slowedEnemies currentEnemiesInRange t in
    if Math.leb (attackCooldown t) 0 then
      let (found, t) := findTarget enemies t in
      match found with
      | Some firstTarget =>
          let (hit, enemies) := performChainLightning now t firstTarget enemies in
          let t := set_attackCooldown (1000 / attackSpeed (tstats t)) t in
          (t, enemies, Some hit)
      | None => (t, enemies, None)
      end
    else (t, enemies, None).

(** ** game: tower placement *)

(** [TowerManager.canPlaceTower(x, y)], with [window.game] being [g]. *)
Definition canPlaceTower (g : Game) (x y : Q) : bool :=
  let tm := towerManager g in
  let width := inject_Z (mapWidth g) * tm_gridSize tm in
  let height := inject_Z (mapHeight g) * tm_gridSize tm in
  if Math.ltb x 0 || Math.leb width x || Math.ltb y 0 || Math.leb height y
  then false
  else
    let mapX := Z.to_nat (Math.floor (x / tm_gridSize tm)) in
    let mapY := Z.to_nat (Math.floor (y / tm_gridSize tm)) in
    let blocked :=
      match map g !! mapY with
      | Some row =>
          match row !! mapX with
          | Some cell => negb (canBuildTower cell)
          | None => false
          end
      | None => false
      end in
    if blocked then false
    else if existsb
              (fun tower =>
                 dist_lt
                   (distance2 (vx (tposition tower)) (vy (tposition tower)) x y)
                   (tm_gridSize tm))
              (towers tm)
    then false
    else if existsb
              (fun pathPoint =>
                 dist_lt (distance2 (vx pathPoint) (vy pathPoint) x y) 35)
              (gpath g)
    then false
    else true.

(** [TowerManager.placeTower(towerType, x, y)]: [None] is [null]. *)
Definition TowerManager_placeTower (type : string) (x y : Q) (tm : TowerManager)
  : option Tower * TowerManager :=
  let tower :=
    if String.eqb type "archer" then Some (ArcherTower x y)
    else if String.eqb type "cannon" then Some (CannonTower x y)
    else if String.eqb type "magic" then Some (MagicTower x y)
    else None in
  match tower with
  | Some t =>
      (Some t, mkTowerManager (towers tm ++ [t]) (selectedTower tm)
                 (tm_gridSize tm))
  | None => (None, tm)
  end.

(** The [switch] on the tower type in [selectTowerType] and [placeTower]. *)
Definition costOf (type : string) : Z :=
  if String.eqb type "archer" then 10
  else if String.eqb type "cannon" then 25
  else if String.eqb type "magic" then 20
  else 0.

(** [Game.selectTowerType(towerType)]. *)
Definition Game_selectTowerType (type : string) (g : Game) : Game :=
  if (costOf type <=? gold g)%Z then
    let g := set_selectedTowerType (Some type) g in
    set_isPlacingTower true g
  else g.

(** The centre of the grid cell of a click coordinate. *)
Definition snapToGrid (g : Game) (x : Q) : Q :=
  inject_Z (Math.floor (x / gridSize g)) * gridSize g + gridSize g / 2.

(** [Game.placeTower(x, y)]. *)
Definition Game_placeTower (x y : Q) (g : Game) : Game :=
  match selectedTowerType g with
  | None => g
  | Some type =>
      if String.eqb type "" then g
      else
        let gridX := snapToGrid g x in
        let gridY := snapToGrid g y in
        if negb (canPlaceTower g gridX gridY) then g
        else
          let cost := costOf type in
          if (cost <=? gold g)%Z then
            match TowerManager_placeTower type gridX gridY (towerManager g) with
            | (Some tower, tm) =>
                let g := set_towerManager tm g in
                let g := set_gold (gold g - cost) g in
                let g := set_isPlacingTower false g in
                set_selectedTowerType None g
            | (None, _) => g
            end
          else g
  end.

(** [attackCooldown] holds [1000 / attackSpeed] (milliseconds per attack). *)
Definition cooldownInSync (t : Tower) : Prop :=
  attackCooldown t == 1000 / attackSpeed (tstats t).

(** ** Vocabulary for the chain-lightning properties *)

(** What [findNextChainTarget] looks for from [currentTarget]: a live enemy
    that was not hit yet and is within the chain radius. *)
Definition chainCandidate (t : Tower) (currentTarget : Enemy)
  (hitEnemies : list nat) (i : nat) (enemy : Enemy) : Prop :=
  isAlive enemy = true /\
  (i ∉ hitEnemies) /\
  dist_le (distanceTo2 (position currentTarget) (position enemy))
    (chainRange t) = true.

(** [next] is a nearest candidate from the enemy at [prev]. *)
Definition nearestUnhit (t : Tower) (enemies : list Enemy) (prev : nat)
  (hitBefore : list nat) (next : nat) : Prop :=
  exists ep en : Enemy,
    enemies !! prev = Some ep /\
    enemies !! next = Some en /\
    chainCandidate t ep hitBefore next en /\
    forall (i : nat) (ei : Enemy),
      enemies !! i = Some ei ->
      chainCandidate t ep hitBefore i ei ->
      distanceTo2 (position ep) (position en)
        <= distanceTo2 (position ep) (position ei).

(** The enemy at index [i] is in the array and alive. *)
Definition liveAt (enemies : list Enemy) (i : nat) : Prop :=
  exists e : Enemy, enemies !! i = Some e /\ isAlive e = true.

(** Every two live enemies of the array are within [r] of each other. *)
Definition pairwiseWithin (r : Q) (enemies : list Enemy) : Prop :=
  forall (i j : nat) (ei ej : Enemy),
    enemies !! i = Some ei -> enemies !! j = Some ej ->
    isAlive ei = true -> isAlive ej = true ->
    dist_le (distanceTo2 (position ei) (position ej)) r = true.

(** An enemy after one strike of the tower, and the array after the
    enemies at the indices [hitEnemies] were struck once each. *)
Definition struck (now : Q) (t : Tower) (e : Enemy) : Enemy :=
  snd (takeDamage_untyped (tdamage (tstats t)) now e).

Definition afterStrike (now : Q) (t : Tower) (hitEnemies : list nat)
  (enemies : list Enemy) : list Enemy :=
  imap (fun i e => if bool_decide (i ∈ hitEnemies) then struck now t e else e)
    enemies.

(** Two arrays hold enemies with the same positions and alive flags. *)
Definition sameShape (a b : list Enemy) : Prop :=
  Forall2 (fun x y => isAlive x = isAlive y /\ position x = position y) a b.

(** [pairwiseWithin] as a check on a given array. *)
Definition pairwiseWithinb (r : Q) (enemies : list Enemy) : bool :=
  forallb
    (fun ei =>
       forallb
         (fun ej =>
            implb (isAlive ei && isAlive ej)
              (dist_le (distanceTo2 (position ei) (position ej)) r))
         enemies)
    enemies.

(** The enemies whose health differs between two states of the array. *)
Definition damagedCount (before after : list Enemy) : nat :=
  length
    (filter (fun p => negb (Qeq_bool (health (fst p)) (health (snd p))))
       (zip before after)).

(** A run of [MagicTower.update] ticks, each with its time, its duration
    and the enemy array it finds; the result lists what each tick struck and
    gives the tower after the last tick. *)
Fixpoint magicTicks (ticks : list (Q * Q * list Enemy)) (t : Tower)
  : list (option (list nat)) * Tower :=
  match ticks with
  | [] => ([], t)
  | (now, deltaTime, enemies) :: rest =>
      let '(t', _, strike) := MagicTower_update now deltaTime enemies t in
      let (strikes, t'') := magicTicks rest t' in
      (strike :: strikes, t'')
  end.

(** The time a run of ticks takes. *)
Definition elapsed (ticks : list (Q * Q * list Enemy)) : Q :=
  total (List.map (fun tick => snd (fst tick)) ticks).

(** ** utils: [clamp] *)

(** [clamp(value, min, max) = Math.min(Math.max(value, min), max)]. *)
Definition clamp (value min max : Q) : Q :=
  Math.min (Math.max value min) max.

(** ** utils: [ObjectPool.releaseAll] and the shape of a pool *)

(** [while (this.activeObjects.length > 0) this.release(this.activeObjects[0])]:
    every round removes the first active object, so the loop runs at most
    [activeObjects.length] rounds; [rounds] counts them down. *)
Fixpoint releaseAll_loop {St : Type} (resetFn : nat -> St -> St) (rounds : nat)
  (p : ObjectPool) (s : St) : ObjectPool * St :=
  match rounds with
  | O => (p, s)
  | S rounds' =>
      match activeObjects p with
      | [] => (p, s)
      | obj :: _ =>
          let (p, s) := ObjectPool_release resetFn obj p s in
          releaseAll_loop resetFn rounds' p s
      end
  end.

Definition ObjectPool_releaseAll {St : Type} (resetFn : nat -> St -> St)
  (p : ObjectPool) (s : St) : ObjectPool * St :=
  releaseAll_loop resetFn (length (activeObjects p)) p s.

(** No object is in a pool twice, be it free or active. *)
Definition poolWellFormed (p : ObjectPool) : Prop :=
  NoDup (pool p ++ activeObjects p).

(** Every object of the pool was allocated in the store. *)
Definition poolInStore (p : ObjectPool) (s : Store) : Prop :=
  forall r : nat, r ∈ pool p ++ activeObjects p -> (r < nextRef s)%nat.

(** The calls a user of an enemy pool makes, and a run of them. *)
Inductive PoolCall :=
| CallGet
| CallRelease (obj : nat).

Definition poolCall (new : Q -> Q -> Enemy) (m : EnemyManager) (c : PoolCall)
  (ps : ObjectPool * Store) : ObjectPool * Store :=
  match c with
  | CallGet =>
      let '(_, p, s) := ObjectPool_get (createFn new) (fst ps) (snd ps) in (p, s)
  | CallRelease obj => ObjectPool_release (resetFn m) obj (fst ps) (snd ps)
  end.

Definition poolCalls (new : Q -> Q -> Enemy) (m : EnemyManager)
  (calls : list PoolCall) (ps : ObjectPool * Store) : ObjectPool * Store :=
  fold_left (fun ps c => poolCall new m c ps) calls ps.

(** A run of [Enemy.update] ticks of one enemy, the game threaded through. *)
Fixpoint Enemy_updates (sqrt : Q -> Q) (window_game : option Game)
  (deltaTimes : list Q) (e : Enemy) : option Game * Enemy :=
  match deltaTimes with
  | [] => (window_game, e)
  | dt :: rest =>
      let r := Enemy_update sqrt window_game dt e in
      Enemy_updates sqrt (fst r) rest (snd r)
  end.

(** ** towers and game: selecting, upgrading and selling *)

(** [Entity.boundingBox], as the constructor and [updateBoundingBox] compute
    it from the position and the size.  The [Tower] constructor passes the
    size 25 by 25, and a tower never moves. *)
Record BoundingBox := mkBoundingBox {
  box_x : Q;
  box_y : Q;
  box_width : Q;
  box_height : Q
}.

Definition Entity_boundingBox (position : Vector2) (width height : Q)
  : BoundingBox :=
  mkBoundingBox (vx position - width / 2) (vy position - height / 2)
    width height.

Definition Tower_boundingBox (t : Tower) : BoundingBox :=
  Entity_boundingBox (tposition t) 25 25.

(** [Entity.containsPoint(x, y)]. *)
Definition containsPoint (boundingBox : BoundingBox) (x y : Q) : bool :=
  Math.leb (box_x boundingBox) x &&
  Math.leb x (box_x boundingBox + box_width boundingBox) &&
  Math.leb (box_y boundingBox) y &&
  Math.leb y (box_y boundingBox + box_height boundingBox).

(** [Tower.getSellValue] and [Tower.getUpgradeCost]. *)
Definition getSellValue (t : Tower) : Z := sellValue (tstats t).

Definition getUpgradeCost (t : Tower) : Z :=
  if (maxLevel t <=? level t)%nat then 0%Z else upgradeCost (tstats t).

(** The index of the first element that passes [f]. *)
Fixpoint findIndex_from {A : Type} (f : A -> bool) (i : nat) (l : list A)
  : option nat :=
  match l with
  | [] => None
  | x :: rest => if f x then Some i else findIndex_from f (S i) rest
  end.

(** [TowerManager.selectTower(x, y)]: the first tower whose box holds the
    point becomes the selected one; without one the selection is cleared.
    (The flags [isSelected] and [showRange] it also writes steer the
    drawing.)  A tower is known by its index in [towers]. *)
Definition TowerManager_selectTower (x y : Q) (tm : TowerManager)
  : option nat * TowerManager :=
  let found :=
    findIndex_from (fun tower => containsPoint (Tower_boundingBox tower) x y)
      0 (towers tm) in
  (found, mkTowerManager (towers tm) found (tm_gridSize tm)).

(** [TowerManager.removeTower(tower)]: the splice moves the towers behind
    [tower] down by one, and with them the index of a selected tower. *)
Definition TowerManager_removeTower (tower : nat) (tm : TowerManager)
  : TowerManager :=
  let selected :=
    match selectedTower tm with
    | Some j =>
        if (j =? tower)%nat then None
        else if (tower <? j)%nat && (tower <? length (towers tm))%nat
             then Some (Nat.pred j)
             else Some j
    | None => None
    end in
  mkTowerManager (delete tower (towers tm)) selected (tm_gridSize tm).

(** [TowerManager.sellSelectedTower()]. *)
Definition TowerManager_sellSelectedTower (tm : TowerManager)
  : Z * TowerManager :=
  match selectedTower tm with
  | Some i =>
      match towers tm !! i with
      | Some tower => (getSellValue tower, TowerManager_removeTower i tm)
      | None => (0%Z, tm)
      end
  | None => (0%Z, tm)
  end.

(** [Game.selectTower(x, y)], [Game.upgradeTower()] and [Game.sellTower()]. *)
Definition Game_selectTower (x y : Q) (g : Game) : Game :=
  set_towerManager (snd (TowerManager_selectTower x y (towerManager g))) g.

Definition Game_upgradeTower (g : Game) : Game :=
  let tm := towerManager g in
  match selectedTower tm with
  | Some i =>
      match towers tm !! i with
      | Some tower =>
          let cost := getUpgradeCost tower in
          if (0 <? cost)%Z && (cost <=? gold g)%Z then
            let (upgraded, tower) := upgrade tower in
            let g :=
              set_towerManager
                (mkTowerManager (<[i := tower]> (towers tm))
                   (selectedTower tm) (tm_gridSize tm)) g in
            if upgraded then set_gold (gold g - cost) g else g
          else g
      | None => g
      end
  | None => g
  end.

Definition Game_sellTower (g : Game) : Game :=
  let (sellValue, tm) := TowerManager_sellSelectedTower (towerManager g) in
  let g := set_towerManager tm g in
  if (0 <? sellValue)%Z then set_gold (gold g + sellValue) g else g.

(** What the player can do to the towers, and a run of such actions. *)
Inductive PlayerAction :=
| DoSelectTowerType (type : string)
| DoPlaceTower (x y : Q)
| DoSelectTower (x y : Q)
| DoUpgradeTower
| DoSellTower.

Definition playerAction (a : PlayerAction) (g : Game) : Game :=
  match a with
  | DoSelectTowerType type => Game_selectTowerType type g
  | DoPlaceTower x y => Game_placeTower x y g
  | DoSelectTower x y => Game_selectTower x y g
  | DoUpgradeTower => Game_upgradeTower g
  | DoSellTower => Game_sellTower g
  end.

Definition playerActions (actions : list PlayerAction) (g : Game) : Game :=
  fold_left (fun g a => playerAction a g) actions g.

(** Any two towers are at least one grid step of the tower manager apart. *)
Definition towersApart (tm : TowerManager) : Prop :=
  forall (i j : nat) (ti tj : Tower),
    i <> j -> towers tm !! i = Some ti -> towers tm !! j = Some tj ->
    tm_gridSize tm * tm_gridSize tm
      <= distanceTo2 (tposition ti) (tposition tj).

(** What [Tower.findTarget] looks for: a live enemy within the range. *)
Definition targetCandidate (t : Tower) (enemy : Enemy) : Prop :=
  isAlive enemy = true /\
  dist_le (Tower_distanceTo2 t enemy) (range (tstats t)) = true.

(** ** towers: projectiles in flight *)

Inductive ProjectileClass := ArrowProjectile | CannonballProjectile.

(** A projectile object after its constructor: what the constructor stored
    ([shot]), the position, the velocity the constructor computed, and the
    flags of [Projectile] and [Entity]. *)
Record Flight := mkFlight {
  fclass : ProjectileClass;
  shot : Projectile;
  fposition : Vector2;
  fvelocity : Vector2;
  hasHit : bool;
  f_isAlive : bool;
  f_isVisible : bool
}.

(** [Entity.update(deltaTime)] of a projectile: the move. *)
Definition Flight_move (deltaTime : Q) (f : Flight) : Flight :=
  if negb (f_isAlive f) then f
  else
    mkFlight (fclass f) (shot f)
      (mkVector2 (vx (fposition f) + vx (fvelocity f) * deltaTime)
         (vy (fposition f) + vy (fvelocity f) * deltaTime))
      (fvelocity f) (hasHit f) (f_isAlive f) (f_isVisible f).

(** [Entity.destroy] and [Projectile.onHit] (the base method). *)
Definition Flight_destroy (f : Flight) : Flight :=
  mkFlight (fclass f) (shot f) (fposition f) (fvelocity f) (hasHit f)
    false false.

Definition Projectile_onHit (f : Flight) : Flight :=
  Flight_destroy
    (mkFlight (fclass f) (shot f) (fposition f) (fvelocity f) true
       (f_isAlive f) (f_isVisible f)).

(** [ArrowProjectile.onHit()]; [enemies] is the live-enemy array that
    [targetEntity] points into. *)
Definition ArrowProjectile_onHit (now : Q) (enemies : list Enemy) (f : Flight)
  : list Enemy * Flight :=
  let enemies :=
    match targetEntity (shot f) with
    | Some i =>
        match enemies !! i with
        | Some enemy =>
            if isAlive enemy then
              <[i := snd (takeDamage (pdamage (shot f)) "physical" now enemy)]>
                enemies
            else enemies
        | None => enemies
        end
    | None => enemies
    end in
  (enemies, Projectile_onHit f).

(** [ArrowProjectile.onHit()] as it acts on the enemy object itself:
    [targetEntity] is a reference to the object the arrow was fired at,
    whether the enemy manager still lists that object or its pool holds
    it. *)
Definition ArrowProjectile_onHit_object (now damage : Q)
  (targetEntity : option nat) (s : Store) : Store :=
  match targetEntity with
  | Some r =>
      match objects s !! r with
      | Some enemy =>
          if isAlive enemy
          then overwrite r (snd (takeDamage damage "physical" now enemy)) s
          else s
      | None => s
      end
  | None => s
  end.

(** [CannonballProjectile.onHit()]: the loop over
    [window.game.enemyManager.enemies].  A radius that is [undefined]
    compares false. *)
Definition inExplosion (f : Flight) (enemy : Enemy) : bool :=
  isAlive enemy &&
  match pexplosionRadius (shot f) with
  | Some explosionRadius =>
      dist_le (distanceTo2 (fposition f) (position enemy)) explosionRadius
  | None => false
  end.

Definition CannonballProjectile_onHit (now : Q) (enemies : list Enemy)
  (f : Flight) : list Enemy * Flight :=
  ((fun enemy =>
      if inExplosion f enemy
      then snd (takeDamage (pdamage (shot f)) "explosive" now enemy)
      else enemy) <$> enemies,
   Projectile_onHit f).

(** [this.onHit()], by the class of the projectile. *)
Definition Flight_onHit (now : Q) (enemies : list Enemy) (f : Flight)
  : list Enemy * Flight :=
  match fclass f with
  | ArrowProjectile => ArrowProjectile_onHit now enemies f
  | CannonballProjectile => CannonballProjectile_onHit now enemies f
  end.

(** [Projectile.update(deltaTime)]; [CannonballProjectile.update] is this
    method. *)
Definition Projectile_update (now deltaTime : Q) (enemies : list Enemy)
  (f : Flight) : list Enemy * Flight :=
  let f := Flight_move deltaTime f in
  let (enemies, f) :=
    if dist_lt (distanceTo2 (fposition f) (ptarget (shot f))) 10 || hasHit f
    then Flight_onHit now enemies f
    else (enemies, f) in
  let f :=
    if Math.ltb (vx (fposition f)) (-50) || Math.ltb 950 (vx (fposition f)) ||
       Math.ltb (vy (fposition f)) (-50) || Math.ltb 650 (vy (fposition f))
    then Flight_destroy f
    else f in
  (enemies, f).

(** [ArrowProjectile.update(deltaTime)]; [now1] and [now2] are the clock
    readings of the two [onHit] calls it can make. *)
Definition ArrowProjectile_update (now1 now2 deltaTime : Q)
  (enemies : list Enemy) (f : Flight) : list Enemy * Flight :=
  let (enemies, f) := Projectile_update now1 deltaTime enemies f in
  let targetEntity_isAlive :=
    match targetEntity (shot f) with
    | Some i =>
        match enemies !! i with
        | Some enemy => if isAlive enemy then Some enemy else None
        | None => None
        end
    | None => None
    end in
  match targetEntity_isAlive with
  | Some enemy =>
      if dist_lt (distanceTo2 (fposition f) (position enemy)) 10
      then ArrowProjectile_onHit now2 enemies f
      else (enemies, f)
  | None => ArrowProjectile_onHit now2 enemies f
  end.

(** [projectile.update(deltaTime)], by the class of the projectile. *)
Definition Flight_update (now1 now2 deltaTime : Q) (enemies : list Enemy)
  (f : Flight) : list Enemy * Flight :=
  match fclass f with
  | ArrowProjectile => ArrowProjectile_update now1 now2 deltaTime enemies f
  | CannonballProjectile => Projectile_update now1 deltaTime enemies f
  end.

(** The projectile loop of [ArcherTower.update] and [CannonTower.update]:
    from the last projectile to the first, each is updated and spliced out
    when it is no longer alive. *)
Definition updateProjectiles (now1 now2 deltaTime : Q)
  (flights : list Flight) (enemies : list Enemy) : list Flight * list Enemy :=
  fold_right
    (fun projectile '(kept, enemies) =>
       let (enemies, projectile) :=
         Flight_update now1 now2 deltaTime enemies projectile in
       (if f_isAlive projectile then projectile :: kept else kept, enemies))
    ([], enemies) flights.

(** The test of the slow field of a magic tower: a live enemy within the
    range. *)
Definition inSlowField (t : Tower) (enemy : Enemy) : bool :=
  isAlive enemy && dist_le (Tower_distanceTo2 t enemy) (range (tstats t)).

(** ** enemies: the update loop of the manager *)

(** [EnemyManager.update(deltaTime)]: the loop runs from the last index
    down to 0, updates the enemy and removes it when it is no longer alive
    or has walked its path; [i] is the number of indices left.  [None] is
    the [TypeError] of reading past the end of the array (or through a
    reference without an object). *)
Fixpoint EnemyManager_update_from (sqrt : Q -> Q) (deltaTime : Q) (i : nat)
  (window_game : option Game) (m : EnemyManager) (s : Store)
  : option (option Game * EnemyManager * Store) :=
  match i with
  | O => Some (window_game, m, s)
  | S i' =>
      match enemies m !! i' with
      | None => None
      | Some enemy =>
          match objects s !! enemy with
          | None => None
          | Some e =>
              let (window_game, e) := Enemy_update sqrt window_game deltaTime e in
              let s := overwrite enemy e s in
              let (m, s) :=
                if negb (isAlive e) || hasReachedEnd e
                then removeEnemy enemy m s
                else (m, s) in
              EnemyManager_update_from sqrt deltaTime i' window_game m s
          end
      end
  end.

Definition EnemyManager_update (sqrt : Q -> Q) (deltaTime : Q)
  (window_game : option Game) (m : EnemyManager) (s : Store)
  : option (option Game * EnemyManager * Store) :=
  EnemyManager_update_from sqrt deltaTime (length (enemies m)) window_game m s.

(** The enemy behind [r] is in play: alive and still on its path. *)
Definition inPlay (s : Store) (r : nat) : Prop :=
  exists e : Enemy,
    objects s !! r = Some e /\ isAlive e = true /\ hasReachedEnd e = false.

(** ** game: waves, spawning and pause *)

Inductive GameState :=
| MENU | PLAYING | PAUSED | WAVE_PREPARING | GAME_OVER | VICTORY.

(** An entry [{type, count, interval}] of [Wave.enemies]. *)
Record EnemyGroup := mkEnemyGroup {
  group_type : string;
  group_count : Z;
  group_interval : Q
}.

Record Wave := mkWave {
  waveNumber : nat;
  wave_enemies : list EnemyGroup;
  preparationTime : Q;
  isCompleted : bool;
  enemiesSpawned : Z;
  totalEnemies : Z
}.

(** [new Wave(waveNumber, enemies, preparationTime)]. *)
Definition Wave_new (waveNumber : nat) (enemies : list EnemyGroup)
  (preparationTime : Q) : Wave :=
  mkWave waveNumber enemies preparationTime false 0
    (fold_left (fun sum enemy => (sum + group_count enemy)%Z) enemies 0%Z).

(** The fields of [Game] that drive the waves.  [currentWaveObj] is a
    reference to one of the objects in [waves]: the index of that wave. *)
Record WaveFlow := mkWaveFlow {
  state : GameState;
  isPaused : bool;
  previousState : option GameState;
  waves : list Wave;
  currentWave : nat;
  currentWaveObj : option nat;
  waveTimer : Q;
  spawnTimer : Q;
  currentEnemyGroup : nat
}.

(** [Game.togglePause()]. *)
Definition togglePause (f : WaveFlow) : WaveFlow :=
  match state f with
  | PLAYING | WAVE_PREPARING =>
      mkWaveFlow PAUSED true (Some (state f)) (waves f) (currentWave f)
        (currentWaveObj f) (waveTimer f) (spawnTimer f) (currentEnemyGroup f)
  | PAUSED =>
      mkWaveFlow
        (match previousState f with
         | Some previous => previous
         | None => PLAYING
         end)
        false (previousState f) (waves f) (currentWave f) (currentWaveObj f)
        (waveTimer f) (spawnTimer f) (currentEnemyGroup f)
  | _ => f
  end.

(** [Game.startGame()], as far as the wave fields go; [None] is the
    [TypeError] of reading [preparationTime] when there is no wave. *)
Definition startGame (f : WaveFlow) : option WaveFlow :=
  match waves f !! 0%nat with
  | Some wave =>
      Some (mkWaveFlow WAVE_PREPARING (isPaused f) (previousState f) (waves f)
              1 (Some 0%nat) (preparationTime wave) (spawnTimer f)
              (currentEnemyGroup f))
  | None => None
  end.

(** [Game.startNextWave()]; [None] is the [TypeError] of the write to
    [currentWaveObj.enemiesSpawned] when there is no current wave. *)
Definition startNextWave (f : WaveFlow) : option WaveFlow :=
  match state f with
  | WAVE_PREPARING =>
      match currentWaveObj f with
      | Some k =>
          match waves f !! k with
          | Some wave =>
              Some (mkWaveFlow PLAYING (isPaused f) (previousState f)
                      (<[k := mkWave (waveNumber wave) (wave_enemies wave)
                                (preparationTime wave) (isCompleted wave) 0
                                (totalEnemies wave)]> (waves f))
                      (currentWave f) (currentWaveObj f) (waveTimer f) 0 0)
          | None => None
          end
      | None => None
      end
  | _ => Some f
  end.

(** [Game.updateEnemySpawning()] with [this.deltaTime]; the first component
    is the enemy type handed to [enemyManager.spawnEnemy] in this tick. *)
Definition updateEnemySpawning (deltaTime : Q) (f : WaveFlow)
  : option string * WaveFlow :=
  match currentWaveObj f with
  | None => (None, f)
  | Some k =>
      match waves f !! k with
      | None => (None, f)
      | Some wave =>
          if isCompleted wave then (None, f)
          else
            let spawnTimer := spawnTimer f + deltaTime in
            let '(spawned, wave, spawnTimer, currentEnemyGroup) :=
              match wave_enemies wave !! currentEnemyGroup f with
              | Some enemyGroup =>
                  if Math.leb (group_interval enemyGroup) spawnTimer then
                    let enemyGroup :=
                      mkEnemyGroup (group_type enemyGroup)
                        (group_count enemyGroup - 1)
                        (group_interval enemyGroup) in
                    let wave :=
                      mkWave (waveNumber wave)
                        (<[currentEnemyGroup f := enemyGroup]>
                           (wave_enemies wave))
                        (preparationTime wave) (isCompleted wave)
                        (enemiesSpawned wave + 1) (totalEnemies wave) in
                    (Some (group_type enemyGroup), wave, 0,
                     if (group_count enemyGroup <=? 0)%Z
                     then S (currentEnemyGroup f)
                     else currentEnemyGroup f)
                  else (None, wave, spawnTimer, currentEnemyGroup f)
              | None => (None, wave, spawnTimer, currentEnemyGroup f)
              end in
            let wave :=
              if (totalEnemies wave <=? enemiesSpawned wave)%Z
              then mkWave (waveNumber wave) (wave_enemies wave)
                     (preparationTime wave) true (enemiesSpawned wave)
                     (totalEnemies wave)
              else wave in
            (spawned,
             mkWaveFlow (state f) (isPaused f) (previousState f)
               (<[k := wave]> (waves f)) (currentWave f) (currentWaveObj f)
               (waveTimer f) spawnTimer currentEnemyGroup)
      end
  end.

(** A run of spawning ticks and the enemy types it spawned, in order. *)
Fixpoint spawning (deltaTimes : list Q) (f : WaveFlow)
  : list string * WaveFlow :=
  match deltaTimes with
  | [] => ([], f)
  | dt :: rest =>
      let (spawned, f) := updateEnemySpawning dt f in
      let (later, f) := spawning rest f in
      (match spawned with Some type => type :: later | None => later end, f)
  end.

(** The enemy types of a wave in the order of its groups, each as often as
    its count says. *)
Definition roster (enemies : list EnemyGroup) : list string :=
  concat ((fun enemyGroup =>
             replicate (Z.to_nat (group_count enemyGroup))
               (group_type enemyGroup)) <$> enemies).

(** What holds while a wave with the roster [R] is spawning: [soFar] was
    spawned, the groups from the current one on hold what is left. *)
Definition spawnInvariant (k : nat) (R soFar : list string) (f : WaveFlow)
  : Prop :=
  currentWaveObj f = Some k /\
  exists wave : Wave,
    waves f !! k = Some wave /\
    soFar ++ roster (drop (currentEnemyGroup f) (wave_enemies wave)) = R /\
    enemiesSpawned wave = Z.of_nat (length soFar) /\
    totalEnemies wave = Z.of_nat (length R) /\
    Forall (fun enemyGroup => (0 < group_count enemyGroup)%Z)
      (drop (currentEnemyGroup f) (wave_enemies wave)) /\
    (isCompleted wave = true -> soFar = R).

(** [n] calls of [Tower.upgrade] in a row. *)
Fixpoint upgrades (n : nat) (t : Tower) : Tower :=
  match n with
  | O => t
  | S n' => upgrades n' (snd (upgrade t))
  end.

(** * Properties *)

(** ** Arithmetic helpers *)

Module MathFacts.
Import Math.

Lemma leb_le a b : leb a b = true <-> a <= b.
Proof. apply Qle_bool_iff. Qed.

Lemma leb_gt a b : leb a b = false <-> b < a.
Proof.
  unfold leb. split; intros H.
  - apply Qnot_le_lt. intros Hle. apply Qle_bool_iff in Hle. congruence.
  - destruct (Qle_bool a b) eqn:E; [|reflexivity].
    apply Qle_bool_iff in E. lra.
Qed.

Lemma ltb_lt a b : ltb a b = true <-> a < b.
Proof.
  unfold ltb. rewrite negb_true_iff. apply (leb_gt b a).
Qed.

Lemma ltb_ge a b : ltb a b = false <-> b <= a.
Proof.
  unfold ltb. rewrite negb_false_iff. apply Qle_bool_iff.
Qed.

Lemma max_spec a b : (a <= b /\ max a b = b) \/ (b < a /\ max a b = a).
Proof.
  unfold max. destruct (Qle_bool a b) eqn:E.
  - left. split; [now apply Qle_bool_iff|reflexivity].
  - right. split; [now apply leb_gt|reflexivity].
Qed.

Lemma min_spec a b : (a <= b /\ min a b = a) \/ (b < a /\ min a b = b).
Proof.
  unfold min. destruct (Qle_bool a b) eqn:E.
  - left. split; [now apply Qle_bool_iff|reflexivity].
  - right. split; [now apply leb_gt|reflexivity].
Qed.

Lemma max_lower a b : a <= max a b.
Proof. destruct (max_spec a b) as [[H ->]|[H ->]]; lra. Qed.

Lemma min_upper a b : min a b <= a.
Proof. destruct (min_spec a b) as [[H ->]|[H ->]]; lra. Qed.

End MathFacts.

Lemma distance2_nonneg x1 y1 x2 y2 : 0 <= distance2 x1 y1 x2 y2.
Proof.
  unfold distance2.
  assert (Hsq : forall a : Q, 0 <= a * a).
  { intros a. destruct (Qlt_le_dec a 0) as [Hlt|Hge].
    - assert (E : a * a == (- a) * (- a)) by ring.
      rewrite E. apply Qmult_le_0_compat; lra.
    - apply Qmult_le_0_compat; lra. }
  assert (H1 := Hsq (x2 - x1)). assert (H2 := Hsq (y2 - y1)). lra.
Qed.


(** ** Damage intake *)

(** [takeDamage] on an entity that is neither invulnerable nor dead: the
    health written is the old health minus the raw amount, clamped at 0,
    whatever the damage type; the invulnerability window opens at 100 ms. *)
Lemma takeDamage_vulnerable (amount now : Q) (damageType : string) (e : Enemy) :
  invulnerable e = false -> isDead e = false ->
  let r := takeDamage amount damageType now e in
  fst r = true /\
  health (snd r) = Math.max 0 (health e - amount) /\
  invulnerable (snd r) = true /\
  invulnerabilityTime (snd r) = 100 /\
  lastDamageAmount (snd r) =
    Some (Math.round (finalDamage amount damageType e)) /\
  maxHealth (snd r) = maxHealth e /\
  isDead (snd r) = false /\
  statusEffects (snd r) = statusEffects e.
Proof.
  intros Hinv Hdead. unfold takeDamage. rewrite Hinv, Hdead. simpl.
  repeat split; try reflexivity. exact Hdead.
Qed.

(** The reduction by armor shows only in the recorded display amount. *)
Example knight_physical_display :
  finalDamage 12 "physical" (Knight 0 0) == 9 /\
  lastDamageAmount (snd (takeDamage 12 "physical" 0 (Knight 0 0))) = Some 9%Z.
Proof. split; vm_compute; reflexivity. Qed.

(** C1 (evaluation at the failing input): a knight (armor 3, health 80) hit
    by 12 points of physical damage is left with health 68, the raw amount
    subtracted, and not with 80 - max(1, 12 - 3) = 71. *)
Theorem C1_knight_physical_health :
  let r := takeDamage 12 "physical" 0 (Knight 0 0) in
  fst r = true /\
  health (snd r) == 68 /\
  ~ health (snd r) == 80 - Math.max 1 (12 - 3).
Proof. vm_compute. repeat split; discriminate. Qed.

(** [takeDamage] on an invulnerable or dead entity changes nothing. *)
Lemma takeDamage_blocked (amount now : Q) (damageType : string) (e : Enemy) :
  invulnerable e = true \/ isDead e = true ->
  takeDamage amount damageType now e = (false, e).
Proof.
  intros [H|H]; unfold takeDamage; rewrite H; [reflexivity|].
  rewrite orb_true_r. reflexivity.
Qed.

(** C10: every [takeDamage] that returns [true] raises the invulnerability
    flag and sets the window to 100 ms.  While the flag is up, or once the
    entity is dead, [takeDamage] returns [false] and hands the entity back
    untouched, for every amount and damage type (the call takes no source
    argument): health, status effects and the dead flag are as before. *)
Theorem C10_takeDamage_blocked (amount now : Q) (damageType : string)
  (e : Enemy) :
  invulnerable e = true \/ isDead e = true ->
  takeDamage amount damageType now e = (false, e) /\
  (forall (amount0 now0 : Q) (damageType0 : string) (e0 : Enemy),
      fst (takeDamage amount0 damageType0 now0 e0) = true ->
      invulnerable (snd (takeDamage amount0 damageType0 now0 e0)) = true /\
      invulnerabilityTime (snd (takeDamage amount0 damageType0 now0 e0))
      = 100).
Proof.
  intros Hblocked. split; [by apply takeDamage_blocked|].
  intros amount0 now0 damageType0 e0. unfold takeDamage.
  destruct (invulnerable e0 || isDead e0); [discriminate|].
  intros _. split; reflexivity.
Qed.

Lemma C10_takeDamage_blocked_witness :
  let hit := snd (takeDamage 12 "physical" 0 (Knight 0 0)) in
  invulnerable hit = true /\
  takeDamage 25 "explosive" 40 hit = (false, hit).
Proof.
  split; [reflexivity|].
  apply (C10_takeDamage_blocked 25 40 "explosive"
           (snd (takeDamage 12 "physical" 0 (Knight 0 0)))).
  left. reflexivity.
Defined.

(** The window that a successful hit opens stays open through update ticks
    whose durations add up to less than 100 ms. *)
Lemma window_stays_open (deltaTimes : list Q) (e : Enemy) :
  invulnerable e = true ->
  total deltaTimes < invulnerabilityTime e ->
  Forall (fun dt => 0 <= dt) deltaTimes ->
  invulnerable (tick_invulnerability deltaTimes e) = true.
Proof.
  revert e. induction deltaTimes as [|dt rest IH]; intros e Hinv Htot Hpos.
  - exact Hinv.
  - simpl in *. inversion Hpos as [|? ? Hdt Hrest]; subst.
    assert (Hrest_nonneg : 0 <= total rest).
    { clear -Hrest. induction Hrest; simpl; lra. }
    assert (Hlt : Math.ltb 0 (invulnerabilityTime e) = true).
    { apply MathFacts.ltb_lt. lra. }
    assert (Hgt : Math.leb (invulnerabilityTime e - dt) 0 = false).
    { apply MathFacts.leb_gt. lra. }
    assert (Hstep : updateInvulnerability dt e
                    = set_invulnerabilityTime (invulnerabilityTime e - dt) e).
    { unfold updateInvulnerability. rewrite Hinv, Hlt. simpl.
      rewrite Hgt. reflexivity. }
    rewrite Hstep. apply IH; simpl; [exact Hinv|lra|exact Hrest].
Qed.

(** ** Status effects *)

(** What [applyStatusEffect] stores is the incoming duration and strength. *)
Lemma applyStatusEffect_lookup (type : string) (d s now : Q) (e : Enemy) :
  statusEffects (applyStatusEffect type d s now e) !! type
  = Some (mkEffect d s now).
Proof. unfold applyStatusEffect. simpl. apply lookup_insert_eq. Qed.

Lemma applyStatusEffect_lookup_ne (type k : string) (d s now : Q) (e : Enemy) :
  type <> k ->
  statusEffects (applyStatusEffect type d s now e) !! k
  = statusEffects e !! k.
Proof. intros Hne. unfold applyStatusEffect. simpl. by apply lookup_insert_ne. Qed.

Lemma applyStatusEffect_size_active (type : string) (d s now : Q) (e : Enemy) :
  is_Some (statusEffects e !! type) ->
  size (statusEffects (applyStatusEffect type d s now e))
  = size (statusEffects e).
Proof.
  intros [old Hold]. unfold applyStatusEffect. simpl.
  rewrite <- (insert_delete_id (statusEffects e) type old Hold) at 2.
  rewrite <- (insert_delete_eq (statusEffects e)).
  rewrite !map_size_insert_None by apply lookup_delete_eq. reflexivity.
Qed.

(** C2 (evaluation at the failing input): a knight declares resistance 0.3
    to "slow"; after [applyStatusEffect("slow", 1000, 0.5)] the stored entry
    has duration 1000 and strength 0.5.  The scaled values 700 and 0.35 exist
    only as the hook's parameters. *)
Theorem C2_knight_slow_stored :
  let e := applyStatusEffect "slow" 1000 0.5 0 (Knight 0 0) in
  statusResistance (Knight 0 0) !! "slow" = Some 0.3 /\
  statusEffects e !! "slow" = Some (mkEffect 1000 0.5 0) /\
  ~ 1000 == 1000 * (1 - 0.3) /\
  ~ 0.5 == 0.5 * (1 - 0.3) /\
  fst (onStatusEffectApplied "slow" 1000 0.5 (Knight 0 0)) == 700 /\
  snd (onStatusEffectApplied "slow" 1000 0.5 (Knight 0 0)) == 0.35.
Proof.
  split; [reflexivity|]. split; [apply applyStatusEffect_lookup|].
  vm_compute. repeat split; discriminate.
Qed.

(** C7: a second application of an effect type replaces the stored entry:
    the map then maps the type to the second duration, strength and start
    time, it has as many entries as after the first application, and the
    entries of other types are as they were.  In particular slow(1000, 0.5)
    followed by slow(500, 0.3) leaves duration 500 and strength 0.3. *)
Theorem C7_applyStatusEffect_replaces (type : string)
  (d1 s1 now1 d2 s2 now2 : Q) (e : Enemy) :
  let e1 := applyStatusEffect type d1 s1 now1 e in
  let e2 := applyStatusEffect type d2 s2 now2 e1 in
  statusEffects e2 !! type = Some (mkEffect d2 s2 now2) /\
  size (statusEffects e2) = size (statusEffects e1) /\
  (forall k : string, k <> type -> statusEffects e2 !! k = statusEffects e !! k) /\
  statusEffects
    (applyStatusEffect "slow" 500 0.3 now2
       (applyStatusEffect "slow" 1000 0.5 now1 e)) !! "slow"
  = Some (mkEffect 500 0.3 now2).
Proof.
  intros e1 e2. split; [apply applyStatusEffect_lookup|].
  split.
  { apply applyStatusEffect_size_active. unfold e1.
    rewrite applyStatusEffect_lookup. eauto. }
  split; [|apply applyStatusEffect_lookup].
  intros k Hk. unfold e2, e1.
  rewrite !applyStatusEffect_lookup_ne by congruence. reflexivity.
Qed.

(** The second application also replaces an entry that has aged in between
    (the first effect has not expired yet). *)
Lemma applyStatusEffect_replaces_aged (deltaTime now1 now2 : Q) (e : Enemy) :
  let e1 := applyStatusEffect "slow" 1000 0.5 now1 e in
  let e1' := updateStatusEffects deltaTime e1 in
  let e2 := applyStatusEffect "slow" 500 0.3 now2 e1' in
  deltaTime < 1000 ->
  is_Some (statusEffects e1' !! "slow") /\
  statusEffects e2 !! "slow" = Some (mkEffect 500 0.3 now2) /\
  size (statusEffects e2) = size (statusEffects e1').
Proof.
  intros e1 e1' e2 Hdt.
  assert (Hactive : is_Some (statusEffects e1' !! "slow")).
  { unfold e1', updateStatusEffects, set_statusEffects.
    cbn [statusEffects]. rewrite lookup_omap.
    unfold e1. rewrite applyStatusEffect_lookup.
    unfold ageEffect. cbn [duration strength startTime option_bind mbind].
    assert (Hgt : Math.leb (1000 - deltaTime) 0 = false)
      by (apply MathFacts.leb_gt; lra).
    rewrite Hgt. eauto. }
  split; [exact Hactive|]. split; [apply applyStatusEffect_lookup|].
  by apply applyStatusEffect_size_active.
Qed.

(** ** Health bounds *)

Lemma takeDamage_health_in_range (amount now : Q) (damageType : string)
  (e : Enemy) :
  0 <= amount -> healthInRange e ->
  healthInRange (snd (takeDamage amount damageType now e)).
Proof.
  intros Ha [Hlo Hhi]. unfold healthInRange, takeDamage.
  destruct (invulnerable e || isDead e); simpl; [split; assumption|].
  destruct (MathFacts.max_spec 0 (health e - amount)) as [[H ->]|[H ->]];
    split; lra.
Qed.

Lemma heal_health_in_range (amount : Q) (e : Enemy) :
  0 <= amount -> healthInRange e -> healthInRange (heal amount e).
Proof.
  intros Ha [Hlo Hhi]. unfold healthInRange, heal.
  destruct (isDead e); simpl; [split; assumption|].
  destruct (MathFacts.min_spec (maxHealth e) (health e + amount))
    as [[H ->]|[H ->]]; split; lra.
Qed.

(** C6 (counterexample): a negative amount takes the health out of its
    bounds: damage of -5 lifts a scout from 20 to 25, above its maximum 20,
    and a heal of -30 brings it down to -10. *)
Lemma C6_negative_amount_counterexample :
  let damaged := snd (takeDamage (-5) "normal" 0 (Scout 0 0)) in
  let healed := heal (-30) (Scout 0 0) in
  maxHealth damaged == 20 /\ health damaged == 25 /\
  maxHealth damaged < health damaged /\
  health healed == -10 /\ health healed < 0.
Proof. vm_compute. repeat split; discriminate. Qed.

(** C6 (amended): from an entity whose health is within [0, maxHealth], and
    for calls whose amounts are not negative, the health is within
    [0, maxHealth] after every call of any run of [takeDamage] and [heal]. *)
Theorem C6_health_in_range (calls : list Call) (e : Enemy) :
  healthInRange e ->
  Forall (fun c => 0 <= amountOf c) calls ->
  Forall healthInRange (statesAfter calls e).
Proof.
  intros He Hcalls. revert e He.
  induction Hcalls as [|c rest Hc _ IH]; intros e He; simpl.
  - constructor.
  - assert (Hnext : healthInRange (perform c e)).
    { destruct c as [amount damageType now|amount]; simpl in *.
      + by apply takeDamage_health_in_range.
      + by apply heal_health_in_range. }
    constructor; [exact Hnext|]. by apply IH.
Qed.

Lemma C6_health_in_range_witness :
  Forall healthInRange
    (statesAfter
       [CallTakeDamage 12 "physical" 0; CallHeal 50;
        CallTakeDamage 200 "explosive" 150; CallHeal 3]
       (Knight 0 0)).
Proof.
  apply C6_health_in_range.
  - split; vm_compute; discriminate.
  - repeat constructor; vm_compute; discriminate.
Defined.

(** ** Death hook and rewards *)

Lemma LivingEntity_update_dead (window_game : option Game) (dt : Q)
  (e : Enemy) :
  isDead e = true ->
  fst (LivingEntity_update window_game dt e) = window_game /\
  isDead (snd (LivingEntity_update window_game dt e)) = true.
Proof.
  intros Hdead. unfold LivingEntity_update.
  assert (Hkeep : isDead (updateStatusEffects dt
            (updateDamageFlash dt (updateInvulnerability dt e))) = true).
  { unfold updateStatusEffects, updateDamageFlash, updateInvulnerability.
    repeat match goal with |- context [if ?b then _ else _] =>
      destruct b end; simpl; exact Hdead. }
  rewrite Hkeep, andb_false_r. simpl. split; [reflexivity|exact Hkeep].
Qed.

Lemma updates_dead (window_game : option Game) (deltaTimes : list Q)
  (e : Enemy) :
  isDead e = true ->
  fst (updates window_game deltaTimes e) = window_game /\
  isDead (snd (updates window_game deltaTimes e)) = true.
Proof.
  revert window_game e.
  induction deltaTimes as [|dt rest IH]; intros w e Hdead; simpl.
  - split; [reflexivity|exact Hdead].
  - destruct (LivingEntity_update_dead w dt e Hdead) as [Hw Hd].
    rewrite Hw. apply IH. exact Hd.
Qed.

Lemma onDeath_gold (g : Game) (e : Enemy) :
  gold <$> fst (onDeath (Some g) e) = Some (gold g + goldReward (stats e))%Z.
Proof. reflexivity. Qed.

Lemma onDeath_score (g : Game) (e : Enemy) :
  score <$> fst (onDeath (Some g) e)
  = Some (score g + scoreReward (stats e))%Z.
Proof. reflexivity. Qed.

(** C3 (counterexample): the hook itself is not guarded.  Called a second
    time on a scout (gold reward 2, score reward 5) that is already dead, it
    pays again: the gold goes 50, 52, 54 and the score 0, 5, 10. *)
Lemma C3_second_onDeath_pays_again :
  let g := Game_new (createMap 15 10) in
  let dying := snd (takeDamage 20 "physical" 0 (Scout 0 0)) in
  let r1 := onDeath (Some g) dying in
  let r2 := onDeath (fst r1) (snd r1) in
  isDead dying = false /\ health dying == 0 /\
  isDead (snd r1) = true /\
  gold <$> fst r1 = Some 52%Z /\ score <$> fst r1 = Some 5%Z /\
  gold <$> fst r2 = Some 54%Z /\ score <$> fst r2 = Some 10%Z.
Proof. vm_compute. repeat split. Qed.

(** C3 (amended): the guard is in the update tick.  The tick that finds the
    health used up and the dead flag down runs the hook: the flag goes up and
    the rewards are paid; however many ticks follow, they leave the game
    (gold and score included) as that tick left it. *)
Theorem C3_update_pays_once (g : Game) (dt : Q) (deltaTimes : list Q)
  (e : Enemy) :
  isDead e = false -> health e <= 0 ->
  let r1 := LivingEntity_update (Some g) dt e in
  let r := updates (fst r1) deltaTimes (snd r1) in
  isDead (snd r1) = true /\
  gold <$> fst r1 = Some (gold g + goldReward (stats e))%Z /\
  score <$> fst r1 = Some (score g + scoreReward (stats e))%Z /\
  fst r = fst r1 /\
  isDead (snd r) = true.
Proof.
  intros Halive Hhealth r1 r.
  assert (Hr1 : r1 = onDeath (Some g)
            (updateStatusEffects dt
               (updateDamageFlash dt (updateInvulnerability dt e)))).
  { unfold r1, LivingEntity_update.
    set (e' := updateStatusEffects dt _).
    assert (Hh : health e' = health e).
    { unfold e', updateStatusEffects, updateDamageFlash, updateInvulnerability.
      repeat match goal with |- context [if ?b then _ else _] =>
        destruct b end; reflexivity. }
    assert (Hd : isDead e' = false).
    { unfold e', updateStatusEffects, updateDamageFlash, updateInvulnerability.
      repeat match goal with |- context [if ?b then _ else _] =>
        destruct b end; simpl; exact Halive. }
    rewrite Hh, Hd.
    assert (Hle : Math.leb (health e) 0 = true)
      by (apply MathFacts.leb_le; exact Hhealth).
    rewrite Hle. reflexivity. }
  assert (Hstats : stats (updateStatusEffects dt
            (updateDamageFlash dt (updateInvulnerability dt e))) = stats e).
  { unfold updateStatusEffects, updateDamageFlash, updateInvulnerability.
    repeat match goal with |- context [if ?b then _ else _] =>
      destruct b end; reflexivity. }
  assert (Hdead1 : isDead (snd r1) = true) by (rewrite Hr1; reflexivity).
  split; [exact Hdead1|].
  split; [rewrite Hr1, onDeath_gold, Hstats; reflexivity|].
  split; [rewrite Hr1, onDeath_score, Hstats; reflexivity|].
  unfold r. apply updates_dead. exact Hdead1.
Qed.

Lemma C3_update_pays_once_witness :
  let e := snd (takeDamage 20 "physical" 0 (Scout 0 0)) in
  let g := Game_new (createMap 15 10) in
  let r1 := LivingEntity_update (Some g) 16 e in
  let r := updates (fst r1) [16; 17; 16] (snd r1) in
  isDead (snd r1) = true /\
  gold <$> fst r1 = Some (gold g + goldReward (stats e))%Z /\
  score <$> fst r1 = Some (score g + scoreReward (stats e))%Z /\
  fst r = fst r1 /\
  isDead (snd r) = true.
Proof.
  apply (C3_update_pays_once (Game_new (createMap 15 10)) 16 [16; 17; 16]
           (snd (takeDamage 20 "physical" 0 (Scout 0 0)))).
  - reflexivity.
  - vm_compute. discriminate.
Defined.

(** ** Object pool round trip *)

Lemma indexOf_elem (obj : nat) (array : list nat) :
  obj ∈ array -> is_Some (indexOf obj array).
Proof.
  induction array as [|x rest IH]; intros Hin.
  - by apply elem_of_nil in Hin.
  - simpl. destruct (Nat.eqb_spec x obj) as [->|Hne]; [eauto|].
    apply elem_of_cons in Hin as [->|Hin]; [congruence|].
    destruct (IH Hin) as [i ->]. simpl. eauto.
Qed.

Lemma indexOf_None (obj : nat) (array : list nat) :
  indexOf obj array = None -> obj ∉ array.
Proof.
  intros Hnone Hin. apply indexOf_elem in Hin as [i Hi]. congruence.
Qed.

(** What [get] hands out is active afterwards. *)
Lemma ObjectPool_get_active {St : Type} (create : St -> nat * St)
  (p : ObjectPool) (s : St) :
  let '(obj, p', _) := ObjectPool_get create p s in
  obj ∈ activeObjects p'.
Proof.
  unfold ObjectPool_get. destruct (last (pool p)) as [obj|].
  - simpl. apply elem_of_app. right. apply list_elem_of_singleton. reflexivity.
  - destruct (create s) as [obj s']. simpl.
    apply elem_of_app. right. apply list_elem_of_singleton. reflexivity.
Qed.

(** A released active object is reset and is the next one [get] returns. *)
Lemma ObjectPool_release_get {St : Type} (create : St -> nat * St)
  (reset : nat -> St -> St) (obj : nat) (p : ObjectPool) (s : St) :
  obj ∈ activeObjects p ->
  let '(p1, s1) := ObjectPool_release reset obj p s in
  s1 = reset obj s /\
  pool p1 = pool p ++ [obj] /\
  ObjectPool_get create p1 s1
  = (obj, mkObjectPool (pool p) (activeObjects p1 ++ [obj]), s1).
Proof.
  intros Hactive. unfold ObjectPool_release.
  destruct (indexOf_elem _ _ Hactive) as [index ->].
  split; [reflexivity|]. split; [reflexivity|].
  unfold ObjectPool_get. cbn [pool activeObjects].
  rewrite last_snoc, removelast_last. reflexivity.
Qed.

(** The fields [resetEnemy] leaves behind. *)
Lemma resetEnemy_fields (m : EnemyManager) (e : Enemy) :
  let e' := resetEnemy m e in
  health e' = maxHealth e /\
  maxHealth e' = maxHealth e /\
  position e' =
    match em_path m with
    | p0 :: _ => mkVector2 (vx p0) (vy p0)
    | [] => mkVector2 (vx (spawnPoint m)) (vy (spawnPoint m))
    end /\
  statusEffects e' = ∅ /\
  currentWaypoint e' = 0%nat /\
  currentSpeed e' = baseSpeed e /\
  baseSpeed e' = baseSpeed e /\
  isAlive e' = true /\ isDead e' = false /\ isVisible e' = true /\
  invulnerable e' = false.
Proof.
  unfold resetEnemy. destruct (em_path m); repeat split; reflexivity.
Qed.

(** The round trip when the [get] follows the [release] at once: an enemy
    is taken from a pool, its fields are overwritten in any way ([mutated]
    is arbitrary), and it is released to that pool.  A [get] made right
    after the release returns the same instance, with the fields as
    [resetEnemy] left them.  The reset is made by [release]; [get] resets
    nothing. *)
Lemma pool_round_trip_direct (m : EnemyManager) (new : Q -> Q -> Enemy)
  (p : ObjectPool) (s : Store) (mutated : Enemy)
  (p0 : Vector2) (rest : list Vector2) :
  em_path m = p0 :: rest ->
  let '(r, p1, s1) := ObjectPool_get (createFn new) p s in
  let s1' := overwrite r mutated s1 in
  let '(p2, s2) := ObjectPool_release (resetFn m) r p1 s1' in
  let '(r', p3, s3) := ObjectPool_get (createFn new) p2 s2 in
  r' = r /\
  exists e : Enemy,
    objects s3 !! r = Some e /\
    health e = maxHealth e /\
    position e = mkVector2 (vx p0) (vy p0) /\
    statusEffects e = ∅ /\
    currentWaypoint e = 0%nat /\
    currentSpeed e = baseSpeed e /\
    isAlive e = true /\ isDead e = false /\ isVisible e = true /\
    invulnerable e = false.
Proof.
  intros Hpath.
  pose proof (ObjectPool_get_active (createFn new) p s) as Hactive.
  destruct (ObjectPool_get (createFn new) p s) as [[r p1] s1].
  pose proof (ObjectPool_release_get (createFn new) (resetFn m) r p1
                (overwrite r mutated s1) Hactive) as Hrel.
  cbv zeta.
  destruct (ObjectPool_release (resetFn m) r p1 (overwrite r mutated s1))
    as [p2 s2].
  destruct Hrel as (Hs2 & _ & Hget). rewrite Hget.
  split; [reflexivity|].
  exists (resetEnemy m mutated).
  split.
  { rewrite Hs2. unfold resetFn, modify, overwrite. cbn [objects].
    rewrite lookup_alter_eq, lookup_insert_eq. reflexivity. }
  pose proof (resetEnemy_fields m mutated) as Hf. cbv zeta in Hf.
  rewrite Hpath in Hf.
  destruct Hf as (Hh & Hmax & Hpos & Heff & Hwp & Hsp & Hbase & Ha & Hd & Hv & Hi).
  repeat split; try assumption; congruence.
Qed.

Lemma pool_round_trip_direct_witness :
  let m := EnemyManager_setPath setupPath
             (mkEnemyManager [] ∅ (mkVector2 (-30) 210) []) in
  let mutated :=
    applyStatusEffect "slow" 10000 0.36 5
      (set_currentWaypoint 7%nat
         (set_position (mkVector2 400 160)
            (snd (takeDamage 30 "physical" 5 (Knight 0 0))))) in
  let '(r, p1, s1) :=
    ObjectPool_get (createFn Knight) (mkObjectPool [] []) (mkStore ∅ 0) in
  let s1' := overwrite r mutated s1 in
  let '(p2, s2) := ObjectPool_release (resetFn m) r p1 s1' in
  let '(r', p3, s3) := ObjectPool_get (createFn Knight) p2 s2 in
  r' = r /\
  exists e : Enemy,
    objects s3 !! r = Some e /\
    health e = maxHealth e /\
    position e = mkVector2 (vx (mkVector2 (-30) 210)) (vy (mkVector2 (-30) 210)) /\
    statusEffects e = ∅ /\
    currentWaypoint e = 0%nat /\
    currentSpeed e = baseSpeed e /\
    isAlive e = true /\ isDead e = false /\ isVisible e = true /\
    invulnerable e = false.
Proof.
  exact (pool_round_trip_direct
           (EnemyManager_setPath setupPath
              (mkEnemyManager [] ∅ (mkVector2 (-30) 210) []))
           Knight (mkObjectPool [] []) (mkStore ∅ 0)
           (applyStatusEffect "slow" 10000 0.36 5
              (set_currentWaypoint 7%nat
                 (set_position (mkVector2 400 160)
                    (snd (takeDamage 30 "physical" 5 (Knight 0 0))))))
           (mkVector2 (-30) 210) (List.tl setupPath) eq_refl).
Defined.

(** C8 (evaluation at the failing input): a scout is spawned, hit by an
    arrow (health 8), walks on for 100 ms and is hit by arrow A, which
    brings its health to 0.  The next update of the enemy manager runs the
    death hook and removes the scout: its pool resets it (health 20, alive
    again) and keeps it.  Arrow B, fired at the scout while it lived,
    reaches its aim point now: its hit handler finds the pooled object alive
    and damages it.  The next [spawnEnemy] of a scout hands out this
    instance with health 8 of 20 and invulnerable, not reset. *)
Theorem C8_pooled_enemy_hit_by_stale_arrow :
  let g := Some (Game_new (createMap 15 10)) in
  let init := EnemyManager_new (mkStore ∅ 0) in
  let m0 := EnemyManager_setPath setupPath (fst init) in
  let sp := spawnEnemy "scout" m0 (snd init) in
  let scout := fst (fst sp) in
  let s1 := ArrowProjectile_onHit_object 1000 12 scout (snd sp) in
  match EnemyManager_update (fun x => x) 100 g (snd (fst sp)) s1 with
  | Some (g2, m2, s2) =>
      let s3 := ArrowProjectile_onHit_object 1100 12 scout s2 in
      match EnemyManager_update (fun x => x) 16 g2 m2 s3 with
      | Some (g4, m4, s4) =>
          let s5 := ArrowProjectile_onHit_object 1116 12 scout s4 in
          let sp' := spawnEnemy "scout" m4 s5 in
          scout = Some 9%nat /\
          health <$> objects s3 !! 9%nat = Some 0 /\
          enemies m4 = [] /\
          health <$> objects s4 !! 9%nat = Some 20 /\
          isAlive <$> objects s4 !! 9%nat = Some true /\
          fst (fst sp') = Some 9%nat /\
          enemies (snd (fst sp')) = [9%nat] /\
          health <$> objects (snd sp') !! 9%nat = Some 8 /\
          maxHealth <$> objects (snd sp') !! 9%nat = Some 20 /\
          invulnerable <$> objects (snd sp') !! 9%nat = Some true
      | None => False
      end
  | None => False
  end.
Proof. vm_compute. repeat split. Qed.

(** ** Tower placement and gold *)

(** Every path through [Game.placeTower] either leaves the game exactly as
    it was, or appends one tower and takes its full cost, which the player
    could afford. *)
Lemma Game_placeTower_atomic (x y : Q) (g : Game) :
  Game_placeTower x y g = g \/
  exists (type : string) (tower : Tower),
    selectedTowerType g = Some type /\
    (0 < costOf type <= gold g)%Z /\
    canPlaceTower g (snapToGrid g x) (snapToGrid g y) = true /\
    towers (towerManager (Game_placeTower x y g))
      = towers (towerManager g) ++ [tower] /\
    gold (Game_placeTower x y g) = (gold g - costOf type)%Z /\
    selectedTowerType (Game_placeTower x y g) = None.
Proof.
  unfold Game_placeTower.
  destruct (selectedTowerType g) as [type|] eqn:Hsel; [|left; reflexivity].
  destruct (String.eqb type ""); [left; reflexivity|].
  destruct (canPlaceTower g (snapToGrid g x) (snapToGrid g y)) eqn:Hcan;
    [|left; reflexivity].
  cbn [negb].
  destruct (costOf type <=? gold g)%Z eqn:Hgold; [|left; reflexivity].
  apply Z.leb_le in Hgold.
  assert (Hcases :
    (String.eqb type "archer" = true /\ costOf type = 10%Z) \/
    (String.eqb type "archer" = false /\ String.eqb type "cannon" = true /\
     costOf type = 25%Z) \/
    (String.eqb type "archer" = false /\ String.eqb type "cannon" = false /\
     String.eqb type "magic" = true /\ costOf type = 20%Z) \/
    (String.eqb type "archer" = false /\ String.eqb type "cannon" = false /\
     String.eqb type "magic" = false)).
  { unfold costOf. destruct (String.eqb type "archer"); [tauto|].
    destruct (String.eqb type "cannon"); [tauto|].
    destruct (String.eqb type "magic"); tauto. }
  unfold TowerManager_placeTower.
  destruct Hcases as [(Ea & Hc)|[(Ea & Ec & Hc)|[(Ea & Ec & Em & Hc)|(Ea & Ec & Em)]]];
    rewrite ?Ea, ?Ec, ?Em; [right|right|right|left; reflexivity];
    eexists type, _; rewrite Hc in *; cbn;
    (repeat split; try reflexivity; try assumption; lia).
Qed.

(** With no gold, [placeTower] changes nothing, whatever is selected. *)
Lemma Game_placeTower_no_gold (x y : Q) (g : Game) :
  gold g = 0%Z -> Game_placeTower x y g = g.
Proof.
  intros Hgold.
  destruct (Game_placeTower_atomic x y g) as [H|(type & tower & _ & Hc & _)];
    [exact H|lia].
Qed.

(** With no gold, selecting one of the three tower types changes nothing. *)
Lemma Game_selectTowerType_no_gold (type : string) (g : Game) :
  gold g = 0%Z ->
  type = "archer" \/ type = "cannon" \/ type = "magic" ->
  Game_selectTowerType type g = g.
Proof.
  intros Hgold [ -> | [ -> | -> ] ]; unfold Game_selectTowerType; rewrite Hgold;
    reflexivity.
Qed.

(** C9: with 10 gold, the archer selected and a cell that can take a tower,
    [placeTower] adds the archer tower and leaves 0 gold.  From then on a
    placement attempt (selecting any of the three tower types and clicking
    anywhere) leaves the whole game state, gold included, as it is.  In
    general a call of [placeTower] either changes nothing or adds exactly one
    tower and deducts exactly its cost. *)
Theorem C9_placeTower_gold (x y : Q) (g : Game) :
  gold g = 10%Z ->
  selectedTowerType g = Some "archer" ->
  canPlaceTower g (snapToGrid g x) (snapToGrid g y) = true ->
  let g1 := Game_placeTower x y g in
  gold g1 = 0%Z /\
  towers (towerManager g1)
    = towers (towerManager g)
      ++ [ArcherTower (snapToGrid g x) (snapToGrid g y)] /\
  (forall (type : string) (x' y' : Q),
      type = "archer" \/ type = "cannon" \/ type = "magic" ->
      Game_placeTower x' y' (Game_selectTowerType type g1) = g1) /\
  (forall (x' y' : Q), Game_placeTower x' y' g1 = g1) /\
  (forall (x0 y0 : Q) (g0 : Game),
      let g0' := Game_placeTower x0 y0 g0 in
      (g0' = g0) \/
      (exists (type : string) (tower : Tower),
          towers (towerManager g0') = towers (towerManager g0) ++ [tower] /\
          gold g0' = (gold g0 - costOf type)%Z /\
          (0 < costOf type <= gold g0)%Z)).
Proof.
  intros Hgold Hsel Hcan g1.
  assert (Hg1 : gold g1 = 0%Z /\
          towers (towerManager g1)
          = towers (towerManager g)
            ++ [ArcherTower (snapToGrid g x) (snapToGrid g y)]).
  { unfold g1, Game_placeTower. rewrite Hsel. cbn [String.eqb Ascii.eqb].
    rewrite Hcan. cbn [negb]. rewrite Hgold. cbn. rewrite Hgold.
    split; reflexivity. }
  destruct Hg1 as [Hzero Htowers].
  split; [exact Hzero|]. split; [exact Htowers|].
  split.
  { intros type x' y' Htype.
    rewrite (Game_selectTowerType_no_gold type g1 Hzero Htype).
    by apply Game_placeTower_no_gold. }
  split; [intros x' y'; by apply Game_placeTower_no_gold|].
  intros x0 y0 g0 g0'.
  destruct (Game_placeTower_atomic x0 y0 g0)
    as [H|(type & tower & _ & Hc & _ & Ht & Hg & _)];
    [left; exact H|right].
  exists type, tower. repeat split; try assumption; lia.
Qed.

Lemma C9_placeTower_gold_witness :
  let g := set_gold 10 (Game_selectTowerType "archer"
                          (Game_new (createMap 15 10))) in
  let g1 := Game_placeTower 100 100 g in
  gold g1 = 0%Z /\
  towers (towerManager g1)
    = towers (towerManager g)
      ++ [ArcherTower (snapToGrid g 100) (snapToGrid g 100)] /\
  (forall (type : string) (x' y' : Q),
      type = "archer" \/ type = "cannon" \/ type = "magic" ->
      Game_placeTower x' y' (Game_selectTowerType type g1) = g1) /\
  (forall (x' y' : Q), Game_placeTower x' y' g1 = g1) /\
  (forall (x0 y0 : Q) (g0 : Game),
      let g0' := Game_placeTower x0 y0 g0 in
      (g0' = g0) \/
      (exists (type : string) (tower : Tower),
          towers (towerManager g0') = towers (towerManager g0) ++ [tower] /\
          gold g0' = (gold g0 - costOf type)%Z /\
          (0 < costOf type <= gold g0)%Z)).
Proof.
  apply (C9_placeTower_gold 100 100
           (set_gold 10 (Game_selectTowerType "archer"
                           (Game_new (createMap 15 10))))).
  - reflexivity.
  - reflexivity.
  - vm_compute. reflexivity.
Defined.

(** ** Attack spacing *)

(** The gate of [Tower.update]: the tower attacks only when the time since
    [lastAttackTime] has reached [attackCooldown]; an attack sets
    [lastAttackTime] to the current time, and nothing else writes it. *)
Lemma Tower_update_gate (now : Q) (enemies : list Enemy) (t : Tower) :
  let r := Tower_update now enemies t in
  attackCooldown (snd r) = attackCooldown t /\
  tstats (snd r) = tstats t /\
  if fst r
  then attackCooldown t <= now - lastAttackTime t /\
       lastAttackTime (snd r) = now
  else lastAttackTime (snd r) = lastAttackTime t.
Proof.
  cbv zeta. unfold Tower_update.
  destruct (canAttack t); cbn [negb]; [|repeat split; reflexivity].
  set (t1 := match target t with
             | Some _ => if targetWithin 2.0 t enemies then t
                         else set_target None t
             | None => t
             end).
  assert (H1 : attackCooldown t1 = attackCooldown t /\
               tstats t1 = tstats t /\
               lastAttackTime t1 = lastAttackTime t).
  { unfold t1. destruct (target t); [destruct (targetWithin 2.0 t enemies)|];
      repeat split; reflexivity. }
  destruct H1 as (Hc1 & Hs1 & Hl1).
  set (t2 := snd (findTarget enemies t1)).
  assert (H2 : attackCooldown t2 = attackCooldown t /\
               tstats t2 = tstats t /\
               lastAttackTime t2 = lastAttackTime t).
  { unfold t2, findTarget. destruct (targetWithin 2.0 t1 enemies);
      cbn [snd set_target attackCooldown tstats lastAttackTime];
      repeat split; assumption. }
  destruct H2 as (Hc2 & Hs2 & Hl2).
  destruct (canAttackTarget t2 enemies);
    [|cbn [fst snd]; repeat split; assumption].
  destruct (Math.leb (attackCooldown t2) (now - lastAttackTime t2)) eqn:Hgate;
    [|cbn [fst snd]; repeat split; assumption].
  apply MathFacts.leb_le in Hgate. rewrite Hc2, Hl2 in Hgate.
  cbn [fst snd].
  assert (H3 : attackCooldown (attack enemies t2) = attackCooldown t2 /\
               tstats (attack enemies t2) = tstats t2).
  { unfold attack, pushProjectile.
    repeat match goal with
    | |- context [match ?x with _ => _ end] => destruct x
    end; split; reflexivity. }
  destruct H3 as (Hc3 & Hs3).
  repeat split; cbn; congruence.
Qed.

(** The archer and the cannon keep [attackCooldown] at [1000 / attackSpeed]:
    the constructor sets it so, and an upgrade recomputes it after the only
    write to [attackSpeed]. *)
Lemma ArcherTower_cooldownInSync (x y : Q) : cooldownInSync (ArcherTower x y).
Proof. unfold cooldownInSync. cbn. reflexivity. Qed.

Lemma CannonTower_cooldownInSync (x y : Q) : cooldownInSync (CannonTower x y).
Proof. unfold cooldownInSync. cbn. reflexivity. Qed.

Lemma upgradeSpecialAbilities_frame (t : Tower) :
  towerType t = "archer" \/ towerType t = "cannon" ->
  attackCooldown (upgradeSpecialAbilities t) = attackCooldown t /\
  attackSpeed (tstats (upgradeSpecialAbilities t)) = attackSpeed (tstats t).
Proof.
  unfold upgradeSpecialAbilities, ArcherTower_upgradeSpecialAbilities,
    CannonTower_upgradeSpecialAbilities.
  intros [Htype|Htype]; rewrite Htype; cbn [String.eqb Ascii.eqb Bool.eqb];
    destruct (level t =? 2)%nat; try destruct (level t =? 3)%nat;
    split; reflexivity.
Qed.

Lemma onUpgrade_frame (t : Tower) :
  attackCooldown (onUpgrade t) = attackCooldown t /\
  attackSpeed (tstats (onUpgrade t)) = attackSpeed (tstats t).
Proof.
  unfold onUpgrade.
  destruct (String.eqb (towerType t) "cannon"); [split; reflexivity|].
  destruct (String.eqb (towerType t) "magic"); split; reflexivity.
Qed.

Lemma upgrade_cooldownInSync (t : Tower) :
  towerType t = "archer" \/ towerType t = "cannon" ->
  cooldownInSync t ->
  cooldownInSync (snd (upgrade t)).
Proof.
  intros Htype Hsync. unfold upgrade.
  destruct (maxLevel t <=? level t)%nat; [exact Hsync|].
  unfold cooldownInSync. cbn [snd].
  match goal with |- attackCooldown (onUpgrade ?X) == _ =>
    destruct (onUpgrade_frame X) as [-> ->] end.
  cbn [set_tstats set_sellValue set_upgradeCost attackCooldown tstats
       attackSpeed].
  match goal with |- attackCooldown (upgradeSpecialAbilities ?Y) == _ =>
    destruct (upgradeSpecialAbilities_frame Y Htype) as [-> ->] end.
  reflexivity.
Qed.

(** Between two consecutive attacks of an archer or cannon tower at least
    [1000 / attackSpeed] ms pass, with the attack speed of the second
    attack: the tick [now] that attacks finds the previous attack time at
    least one cooldown back. *)
Lemma Tower_update_spacing (now : Q) (enemies : list Enemy) (t : Tower) :
  cooldownInSync t ->
  fst (Tower_update now enemies t) = true ->
  1000 / attackSpeed (tstats (snd (Tower_update now enemies t)))
    <= now - lastAttackTime t /\
  lastAttackTime (snd (Tower_update now enemies t)) = now /\
  cooldownInSync (snd (Tower_update now enemies t)).
Proof.
  intros Hsync Hfired.
  pose proof (Tower_update_gate now enemies t) as Hgate. cbv zeta in Hgate.
  destruct Hgate as (Hc & Hs & Hg). rewrite Hfired in Hg.
  destruct Hg as [Hle Hlast]. unfold cooldownInSync in *.
  rewrite Hs, Hc. rewrite <- Hsync. repeat split; assumption.
Qed.

(** The magic tower counts [attackCooldown] down by the tick lengths: a
    tick strikes only when the countdown has run out, and a strike restarts
    it at [1000 / attackSpeed]; a tick without a strike only subtracts. *)
Lemma MagicTower_update_gate (now deltaTime : Q) (enemies : list Enemy)
  (t : Tower) :
  canAttack t = true ->
  let '(t', _, strike) := MagicTower_update now deltaTime enemies t in
  tstats t' = tstats t /\
  match strike with
  | Some _ =>
      attackCooldown t - deltaTime <= 0 /\
      attackCooldown t' = 1000 / attackSpeed (tstats t)
  | None => attackCooldown t' = attackCooldown t - deltaTime
  end.
Proof.
  intros Hcan. unfold MagicTower_update. rewrite Hcan. cbn [negb].
  destruct (for_of _ enemies ([], enemies)) as [current slowed].
  cbn [set_slowedEnemies set_attackCooldown attackCooldown].
  destruct (Math.leb (attackCooldown t - deltaTime) 0) eqn:Hgate;
    [|split; reflexivity].
  apply MathFacts.leb_le in Hgate.
  match goal with |- context [findTarget ?es ?t0] =>
    assert (Hft : tstats (snd (findTarget es t0)) = tstats t /\
                  attackCooldown (snd (findTarget es t0))
                  = attackCooldown t - deltaTime)
      by (unfold findTarget; destruct (targetWithin 2.0 t0 es);
          split; reflexivity);
    destruct (findTarget es t0) as [found t1]
  end.
  cbn [snd] in Hft. destruct Hft as [Hs Hc].
  destruct found as [firstTarget|]; [|split; assumption].
  destruct (performChainLightning now t1 firstTarget _) as [hit es'].
  cbn [set_attackCooldown tstats attackCooldown]. rewrite Hs.
  repeat split; [exact Hgate].
Qed.

(** C5 (evaluation at the failing input): a level-2 magic tower strikes at
    time 1000 and is upgraded to level 3 right away.  The upgrade restarts
    the countdown at 1000 / 1.736 = 576.04 ms, computed before
    [upgradeSpecialAbilities] sets the attack speed to 1.5.  The tick at
    time 1600 strikes again: 600 ms after the previous strike, less than
    1000 / 1.5 = 666.67 ms. *)
Theorem C5_magic_tower_strikes_early :
  let t2 := snd (upgrade (MagicTower 0 0)) in
  let '(t2', enemies1, strike1) := MagicTower_update 1000 810 [Knight 50 0] t2 in
  let t3 := snd (upgrade t2') in
  let enemies1' :=
    List.map (fun e => snd (LivingEntity_update None 600 e)) enemies1 in
  let '(_, enemies2, strike2) := MagicTower_update 1600 600 enemies1' t3 in
  strike1 = Some [0%nat] /\
  strike2 = Some [0%nat] /\
  level t3 = 3%nat /\
  attackSpeed (tstats t3) == 1.5 /\
  attackCooldown t3 == 125000 # 217 /\
  1600 - 1000 < 1000 / attackSpeed (tstats t3) /\
  List.map health enemies1 = [77] /\
  List.map (fun e => Qred (health e)) enemies2 = [72].
Proof. vm_compute. repeat split. Qed.

(** ** Chain lightning *)

Section ChainScan.

Variable t : Tower.
Variable cur : Enemy.
Variable hit : list nat.

Lemma findNextChainTarget_body_cases (acc : option (nat * Q)) (i : nat)
  (e : Enemy) :
  let d := distanceTo2 (position cur) (position e) in
  (findNextChainTarget_body t cur hit acc i e = acc /\
   (chainCandidate t cur hit i e ->
    exists j c, acc = Some (j, c) /\ c <= d)) \/
  (findNextChainTarget_body t cur hit acc i e = Some (i, d) /\
   chainCandidate t cur hit i e /\
   forall j c, acc = Some (j, c) -> d < c).
Proof.
  intros d. unfold findNextChainTarget_body, chainCandidate.
  destruct (isAlive e) eqn:Halive; cbn [negb orb];
    [|left; split; [reflexivity|intros [H _]; discriminate]].
  destruct (bool_decide (i ∈ hit)) eqn:Hhit.
  { left. split; [reflexivity|]. intros (_ & Hn & _).
    apply bool_decide_eq_true in Hhit. contradiction. }
  apply bool_decide_eq_false in Hhit. fold d.
  destruct (dist_le d (chainRange t)) eqn:Hrange;
    [|left; split; [reflexivity|intros (_ & _ & H); discriminate]].
  destruct acc as [[j c]|]; cbn [closer fmap option_fmap option_map snd].
  - destruct (Math.ltb d c) eqn:Hlt.
    + right. split; [reflexivity|]. split; [repeat split; assumption|].
      intros j' c' [= <- <-]. by apply MathFacts.ltb_lt.
    + left. split; [reflexivity|]. intros _. exists j, c.
      split; [reflexivity|]. by apply MathFacts.ltb_ge.
  - right. split; [reflexivity|]. split; [repeat split; assumption|].
    intros j c Hc. discriminate.
Qed.

Lemma for_of_from_chain (es : list Enemy) (k : nat) (acc : option (nat * Q)) :
  let res := for_of_from (findNextChainTarget_body t cur hit) k es acc in
  (res = acc \/
   exists i e, es !! i = Some e /\ chainCandidate t cur hit (k + i) e /\
     res = Some ((k + i)%nat, distanceTo2 (position cur) (position e))) /\
  (forall j c, acc = Some (j, c) ->
     exists j' c', res = Some (j', c') /\ c' <= c) /\
  (forall i e, es !! i = Some e -> chainCandidate t cur hit (k + i) e ->
     exists j' c', res = Some (j', c') /\
       c' <= distanceTo2 (position cur) (position e)).
Proof.
  revert k acc. induction es as [|e rest IH]; intros k acc; cbn zeta.
  - cbn. split; [left; reflexivity|]. split.
    + intros j c ->. exists j, c. split; [reflexivity|lra].
    + intros i e' Hi. rewrite lookup_nil in Hi. discriminate.
  - cbn [for_of_from].
    specialize (IH (S k) (findNextChainTarget_body t cur hit acc k e)).
    cbn zeta in IH. destruct IH as (IH1 & IH2 & IH3).
    pose proof (findNextChainTarget_body_cases acc k e) as Hbody.
    cbn zeta in Hbody.
    set (d := distanceTo2 (position cur) (position e)) in *.
    set (acc' := findNextChainTarget_body t cur hit acc k e) in *.
    set (res := for_of_from _ (S k) rest acc') in *.
    split; [|split].
    + destruct IH1 as [Hres|(i & e' & Hi & Hc & Hres)].
      * destruct Hbody as [[Hacc _]|(Hacc & Hc & _)].
        -- left. congruence.
        -- right. exists 0%nat, e. rewrite Nat.add_0_r.
           split; [reflexivity|]. split; [exact Hc|].
           rewrite Hres. exact Hacc.
      * right. exists (S i), e'. rewrite Nat.add_succ_r.
        split; [exact Hi|]. split; assumption.
    + intros j c Hacc.
      destruct Hbody as [[Hacc' _]|(Hacc' & _ & Hlt)].
      * apply (IH2 j c). congruence.
      * destruct (IH2 k d Hacc') as (j' & c' & Hres & Hle).
        exists j', c'. split; [exact Hres|]. specialize (Hlt j c Hacc). lra.
    + intros i e' Hi Hc. destruct i as [|i].
      * cbn in Hi. injection Hi as <-. rewrite Nat.add_0_r in Hc.
        destruct Hbody as [[Hacc' Hsome]|(Hacc' & _ & _)].
        -- destruct (Hsome Hc) as (j & c & Hacc & Hle).
           destruct (IH2 j c) as (j' & c' & Hres & Hle'); [congruence|].
           exists j', c'. split; [exact Hres|]. fold d. lra.
        -- destruct (IH2 k d Hacc') as (j' & c' & Hres & Hle).
           exists j', c'. split; [exact Hres|exact Hle].
      * cbn in Hi. rewrite Nat.add_succ_r in Hc.
        exact (IH3 i e' Hi Hc).
Qed.

End ChainScan.

(** [findNextChainTarget] returns a nearest candidate. *)
Lemma findNextChainTarget_Some (t : Tower) (current : nat) (hit : list nat)
  (es : list Enemy) (next : nat) :
  findNextChainTarget t current hit es = Some next ->
  nearestUnhit t es current hit next.
Proof.
  unfold findNextChainTarget, nearestUnhit, for_of.
  destruct (es !! current) as [ep|] eqn:Hcur; [|discriminate].
  pose proof (for_of_from_chain t ep hit es 0 None) as Hscan.
  cbn zeta in Hscan. destruct Hscan as (H1 & _ & H3).
  destruct (for_of_from _ 0 es None) as [[j c]|] eqn:Hres; [|discriminate].
  cbn. intros [= ->].
  destruct H1 as [H1|(i & en & Hi & Hc & Heq)]; [discriminate|].
  cbn in Hc, Heq. injection Heq as -> ->.
  exists ep, en. repeat split; try assumption; try apply Hc.
  intros i' ei Hi' Hc'.
  destruct (H3 i' ei Hi' Hc') as (j' & c' & Heq & Hle).
  injection Heq as <- <-. exact Hle.
Qed.

(** It finds one whenever there is a candidate. *)
Lemma findNextChainTarget_finds (t : Tower) (current : nat) (hit : list nat)
  (es : list Enemy) (ep : Enemy) (i : nat) (ei : Enemy) :
  es !! current = Some ep ->
  es !! i = Some ei ->
  chainCandidate t ep hit i ei ->
  is_Some (findNextChainTarget t current hit es).
Proof.
  intros Hcur Hi Hc. unfold findNextChainTarget, for_of. rewrite Hcur.
  pose proof (for_of_from_chain t ep hit es 0 None) as Hscan.
  cbn zeta in Hscan. destruct Hscan as (_ & _ & H3).
  destruct (H3 i ei Hi Hc) as (j' & c' & -> & _). cbn. eauto.
Qed.

(** A strike changes neither the position nor the alive flag. *)
Lemma struck_shape (now : Q) (t : Tower) (e : Enemy) :
  isAlive (struck now t e) = isAlive e /\
  position (struck now t e) = position e.
Proof.
  unfold struck, takeDamage_untyped, takeDamage.
  destruct (invulnerable e || isDead e); split; reflexivity.
Qed.

(** The search reads positions and alive flags only. *)
Lemma for_of_from_sameShape (t : Tower) (cur cur' : Enemy) (hit : list nat)
  (a b : list Enemy) (k : nat) (acc : option (nat * Q)) :
  position cur = position cur' ->
  sameShape a b ->
  for_of_from (findNextChainTarget_body t cur hit) k a acc
  = for_of_from (findNextChainTarget_body t cur' hit) k b acc.
Proof.
  intros Hpos Hshape. revert k acc.
  induction Hshape as [|x y a b [Halive Hxy] _ IH]; intros k acc;
    [reflexivity|].
  cbn [for_of_from]. rewrite <- IH. f_equal.
  unfold findNextChainTarget_body. rewrite Halive, Hxy, Hpos. reflexivity.
Qed.

Lemma findNextChainTarget_sameShape (t : Tower) (current : nat)
  (hit : list nat) (a b : list Enemy) :
  sameShape a b ->
  findNextChainTarget t current hit a = findNextChainTarget t current hit b.
Proof.
  intros Hshape. unfold findNextChainTarget, for_of.
  destruct (a !! current) as [x|] eqn:Ha.
  - destruct (Forall2_lookup_l _ _ _ _ _ Hshape Ha) as (y & Hb & _ & Hpos).
    rewrite Hb. f_equal. by apply for_of_from_sameShape.
  - assert (Hb : b !! current = None).
    { apply lookup_ge_None. rewrite <- (Forall2_length _ _ _ Hshape).
      by apply lookup_ge_None. }
    rewrite Hb. reflexivity.
Qed.

Lemma afterStrike_lookup (now : Q) (t : Tower) (hit : list nat)
  (es : list Enemy) (i : nat) :
  afterStrike now t hit es !! i
  = (fun e => if bool_decide (i ∈ hit) then struck now t e else e) <$> es !! i.
Proof. unfold afterStrike. apply list_lookup_imap. Qed.

Lemma afterStrike_nil (now : Q) (t : Tower) (es : list Enemy) :
  afterStrike now t [] es = es.
Proof.
  apply list_eq. intros i. rewrite afterStrike_lookup.
  destruct (es !! i) as [e|]; [|reflexivity]. cbn.
  rewrite bool_decide_eq_false_2; [reflexivity|]. apply not_elem_of_nil.
Qed.

Lemma imap_sameShape (f : nat -> Enemy -> Enemy) (es : list Enemy) :
  (forall i e, isAlive (f i e) = isAlive e /\ position (f i e) = position e) ->
  sameShape (imap f es) es.
Proof.
  revert f. induction es as [|e rest IH]; intros f Hf; cbn.
  - constructor.
  - constructor; [apply Hf|]. apply IH. intros i e'. apply Hf.
Qed.

Lemma afterStrike_sameShape (now : Q) (t : Tower) (hit : list nat)
  (es : list Enemy) :
  sameShape (afterStrike now t hit es) es.
Proof.
  apply imap_sameShape. intros i e.
  destruct (bool_decide (i ∈ hit)); [apply struck_shape|split; reflexivity].
Qed.

(** One more strike, on a live enemy that was not hit yet. *)
Lemma attackEnemy_afterStrike (now : Q) (t : Tower) (hit : list nat)
  (es : list Enemy) (i : nat) :
  i ∉ hit -> liveAt es i ->
  attackEnemy now t i (afterStrike now t hit es)
  = afterStrike now t (hit ++ [i]) es.
Proof.
  intros Hnew (e & Hi & Halive). unfold attackEnemy.
  rewrite afterStrike_lookup, Hi. cbn.
  rewrite bool_decide_eq_false_2 by exact Hnew. rewrite Halive.
  apply list_eq. intros j. rewrite afterStrike_lookup.
  destruct (decide (i = j)) as [<-|Hne].
  - rewrite list_lookup_insert_eq.
    + rewrite Hi. cbn. rewrite bool_decide_eq_true_2; [reflexivity|].
      apply elem_of_app. right. by apply list_elem_of_singleton.
    + unfold afterStrike. rewrite length_imap. by eapply lookup_lt_Some.
  - rewrite list_lookup_insert_ne by exact Hne. rewrite afterStrike_lookup.
    destruct (es !! j) as [ej|]; [|reflexivity]. cbn. f_equal.
    destruct (decide (j ∈ hit)) as [Hin|Hout].
    + rewrite !bool_decide_eq_true_2; [reflexivity| |exact Hin].
      apply elem_of_app. by left.
    + rewrite !bool_decide_eq_false_2; [reflexivity| |exact Hout].
      intros Hin. apply elem_of_app in Hin as [Hin|Hin]; [contradiction|].
      apply list_elem_of_singleton in Hin. congruence.
Qed.

(** Fewer hits than live enemies: some live enemy is not hit yet. *)
Lemma unhit_live_enemy (live hit : list nat) :
  NoDup live -> (length hit < length live)%nat ->
  exists i : nat, i ∈ live /\ i ∉ hit.
Proof.
  intros Hnd Hlen.
  destruct (decide (Forall (fun i => i ∈ hit) live)) as [Hall|Hnot].
  - exfalso. assert (Hsub : live ⊆+ hit).
    { apply NoDup_submseteq; [exact Hnd|]. intros x Hx.
      by apply (proj1 (Forall_forall _ _) Hall). }
    apply submseteq_length in Hsub. lia.
  - apply not_Forall_Exists in Hnot; [|intros x; apply _].
    apply Exists_exists in Hnot as (i & Hi & Hni). exists i. split; assumption.
Qed.

(** The chain loop, started after the hits [hit] with the last of them as
    the current target: while live enemies are left it uses every hop, never
    hits an enemy twice, and takes every hop to a nearest candidate. *)
Lemma chainLoop_spec (now : Q) (t : Tower) (es : list Enemy)
  (live : list nat) :
  NoDup live ->
  (forall i, i ∈ live -> liveAt es i) ->
  pairwiseWithin (chainRange t) es ->
  forall (hops : nat) (hit : list nat) (current : nat),
    last hit = Some current ->
    NoDup hit ->
    (forall i, i ∈ hit -> liveAt es i) ->
    (length hit + hops <= length live)%nat ->
    let r := chainLoop now t hops current hit (afterStrike now t hit es) in
    length (fst r) = (length hit + hops)%nat /\
    NoDup (fst r) /\
    (exists ext, fst r = hit ++ ext) /\
    snd r = afterStrike now t (fst r) es /\
    (forall k prev next,
        (length hit <= S k)%nat ->
        fst r !! k = Some prev -> fst r !! S k = Some next ->
        nearestUnhit t es prev (take (S k) (fst r)) next).
Proof.
  intros Hnd Hlive Hpair hops.
  induction hops as [|hops IH]; intros hit current Hlast Hndh Hhit Hlen;
    cbn zeta.
  - cbn [chainLoop fst snd]. rewrite Nat.add_0_r.
    split; [reflexivity|]. split; [exact Hndh|].
    split; [exists []; by rewrite app_nil_r|]. split; [reflexivity|].
    intros k prev next Hk _ Hnext. apply lookup_lt_Some in Hnext. lia.
  - cbn [chainLoop].
    rewrite (findNextChainTarget_sameShape t current hit _ es
               (afterStrike_sameShape now t hit es)).
    assert (Hcur : current ∈ hit).
    { rewrite last_lookup in Hlast. by eapply list_elem_of_lookup_2. }
    destruct (Hhit current Hcur) as (ep & Hep & Hepalive).
    destruct (unhit_live_enemy live hit Hnd) as (i & Hi & Hni); [lia|].
    destruct (Hlive i Hi) as (ei & Hei & Heialive).
    assert (Hcand : chainCandidate t ep hit i ei).
    { repeat split; try assumption. by eapply Hpair. }
    destruct (findNextChainTarget_finds t current hit es ep i ei Hep Hei Hcand)
      as [next Hnext].
    rewrite Hnext.
    pose proof (findNextChainTarget_Some t current hit es next Hnext) as Hnear.
    assert (Hnextlive : liveAt es next /\ next ∉ hit).
    { destruct Hnear as (ep' & en & _ & Hen & (Ha & Hn & _) & _).
      split; [exists en; split; assumption|exact Hn]. }
    destruct Hnextlive as [Hnl Hnn].
    rewrite (attackEnemy_afterStrike now t hit es next Hnn Hnl).
    specialize (IH (hit ++ [next]) next).
    cbn zeta in IH.
    destruct IH as (IHlen & IHnd & [ext IHext] & IHes & IHhop).
    { apply last_snoc. }
    { apply NoDup_app. split; [exact Hndh|]. split.
      - intros x Hx Hx'. apply list_elem_of_singleton in Hx'. congruence.
      - apply NoDup_singleton. }
    { intros x Hx. apply elem_of_app in Hx as [Hx|Hx]; [by apply Hhit|].
      apply list_elem_of_singleton in Hx. by subst. }
    { rewrite length_app. cbn. lia. }
    set (r := chainLoop now t hops next (hit ++ [next]) _) in *.
    rewrite length_app in IHlen. cbn in IHlen.
    split; [lia|]. split; [exact IHnd|].
    split; [exists (next :: ext); rewrite IHext, <- app_assoc; reflexivity|].
    split; [exact IHes|].
    intros k prev nxt Hk Hprev Hnxt.
    destruct (decide (S k = length hit)) as [Heq|Hne].
    + assert (Hk' : k = pred (length hit)) by lia.
      rewrite IHext, <- app_assoc in Hprev, Hnxt.
      rewrite lookup_app_l in Hprev by lia.
      rewrite Hk', <- last_lookup, Hlast in Hprev. injection Hprev as <-.
      rewrite lookup_app_r in Hnxt by lia.
      replace (S k - length hit)%nat with 0%nat in Hnxt by lia.
      cbn in Hnxt. injection Hnxt as <-.
      rewrite IHext, <- app_assoc, Heq, take_app_length. exact Hnear.
    + apply IHhop; [rewrite length_app; cbn; lia|exact Hprev|exact Hnxt].
Qed.

Lemma pairwiseWithinb_sound (r : Q) (es : list Enemy) :
  pairwiseWithinb r es = true -> pairwiseWithin r es.
Proof.
  unfold pairwiseWithinb, pairwiseWithin.
  intros Hall i j ei ej Hi Hj Hai Haj.
  rewrite forallb_forall in Hall.
  apply list_elem_of_lookup_2, list_elem_of_In in Hi, Hj.
  specialize (Hall ei Hi). rewrite forallb_forall in Hall.
  specialize (Hall ej Hj). rewrite Hai, Haj in Hall. exact Hall.
Qed.

(** C4 (counterexample): five live scouts stand within the chain radius of
    each other; the second was hit by an arrow 40 ms before the strike and is
    still invulnerable.  The chain of a magic tower with [chainCount] 3 goes
    through the enemies 0, 1 and 2, but the health of enemy 1 stays as it
    was: two enemies take damage, not three. *)
Lemma C4_invulnerable_target_counterexample :
  let arrowed := snd (takeDamage 12 "physical" 960 (Scout 10 0)) in
  let es := [Scout 0 0; arrowed; Scout 20 0; Scout 30 0; Scout 40 0] in
  let t := MagicTower 0 50 in
  let r := performChainLightning 1000 t 0 es in
  chainCount t = 3%nat /\
  pairwiseWithinb (chainRange t) es = true /\
  List.map isAlive es = [true; true; true; true; true] /\
  fst r = [0; 1; 2]%nat /\
  List.map health es = [20; 8; 20; 20; 20] /\
  List.map health (snd r) = [18; 8; 18; 20; 20] /\
  damagedCount es (snd r) = 2%nat.
Proof. vm_compute. repeat split. Qed.

(** A chain can also leave a cluster: with one more live enemy 10 units
    behind the first target and more than the chain radius away from the
    rest, the first hop goes to it and no second hop is possible. *)
Example chain_leaves_cluster :
  let es := [Scout 0 0; Scout 59 0; Scout 59 1; Scout 59 2; Scout 59 3;
             Scout (-10) 0] in
  let t := MagicTower 0 50 in
  pairwiseWithinb (chainRange t) (take 5 es) = true /\
  fst (performChainLightning 1000 t 0 es) = [0; 5]%nat.
Proof. vm_compute. repeat split. Qed.

(** C4 (amended): the magic tower has [chainCount] 3, at least five enemies
    of the array are alive, the first target is one of them, and all live
    enemies of the array are within the chain radius of each other.  Then
    one strike hits exactly three enemies, no enemy twice, starting with the
    first target; each hop goes from the previously hit enemy to a live
    enemy not hit before that is within the chain radius of it and nearest
    to it among such enemies.  A hit enemy that is neither invulnerable nor
    dead loses the tower's damage (its health clamped at 0); a hit enemy
    that is invulnerable stays as it is, and so does every enemy that is not
    hit. *)
Theorem C4_chain_lightning (now : Q) (t : Tower) (es : list Enemy)
  (live : list nat) (first : nat) :
  chainCount t = 3%nat ->
  NoDup live ->
  (5 <= length live)%nat ->
  (forall i, i ∈ live -> liveAt es i) ->
  first ∈ live ->
  pairwiseWithin (chainRange t) es ->
  let r := performChainLightning now t first es in
  length (fst r) = 3%nat /\
  NoDup (fst r) /\
  fst r !! 0%nat = Some first /\
  (forall k prev next,
      fst r !! k = Some prev -> fst r !! S k = Some next ->
      nearestUnhit t es prev (take (S k) (fst r)) next) /\
  (forall i e, i ∈ fst r -> es !! i = Some e ->
      invulnerable e = false -> isDead e = false ->
      exists e', snd r !! i = Some e' /\
        health e' = Math.max 0 (health e - tdamage (tstats t))) /\
  (forall i e, i ∈ fst r -> es !! i = Some e ->
      invulnerable e = true \/ isDead e = true -> snd r !! i = Some e) /\
  (forall i, i ∉ fst r -> snd r !! i = es !! i).
Proof.
  intros Hcount Hnd Hfive Hlive Hfirst Hpair r.
  assert (Hfl : liveAt es first) by (by apply Hlive).
  pose proof (chainLoop_spec now t es live Hnd Hlive Hpair 2 [first] first)
    as Hspec.
  cbn zeta in Hspec.
  destruct Hspec as (Hlen & Hndr & [ext Hext] & Hes & Hhop).
  { reflexivity. }
  { apply NoDup_singleton. }
  { intros i Hi. apply list_elem_of_singleton in Hi. by subst. }
  { cbn. lia. }
  assert (Hr : r = chainLoop now t 2 first [first]
                     (afterStrike now t [first] es)).
  { unfold r, performChainLightning. rewrite Hcount. cbn [Nat.sub].
    rewrite <- (afterStrike_nil now t es) at 1.
    rewrite attackEnemy_afterStrike; [reflexivity|apply not_elem_of_nil|].
    exact Hfl. }
  rewrite <- Hr in *. clear Hr.
  split; [exact Hlen|]. split; [exact Hndr|].
  split; [rewrite Hext; reflexivity|].
  split.
  { intros k prev next Hprev Hnext. apply Hhop; [cbn; lia|assumption..]. }
  split.
  { intros i e Hi He Hinv Hdead. rewrite Hes, afterStrike_lookup, He. cbn.
    rewrite bool_decide_eq_true_2 by exact Hi. eexists. split; [reflexivity|].
    unfold struck, takeDamage_untyped.
    apply (takeDamage_vulnerable _ now "normal" e Hinv Hdead). }
  split.
  { intros i e Hi He Hblocked. rewrite Hes, afterStrike_lookup, He. cbn.
    rewrite bool_decide_eq_true_2 by exact Hi. unfold struck, takeDamage_untyped.
    rewrite (takeDamage_blocked _ now "normal" e Hblocked). reflexivity. }
  intros i Hi. rewrite Hes, afterStrike_lookup.
  destruct (es !! i) as [e|]; [|reflexivity]. cbn.
  rewrite bool_decide_eq_false_2 by exact Hi. reflexivity.
Qed.

Lemma C4_chain_lightning_witness :
  let es := [Scout 0 0; Scout 10 0; Scout 20 0; Scout 30 0; Scout 40 0] in
  let t := MagicTower 0 50 in
  let r := performChainLightning 1000 t 0 es in
  length (fst r) = 3%nat /\
  NoDup (fst r) /\
  fst r !! 0%nat = Some 0%nat /\
  (forall k prev next,
      fst r !! k = Some prev -> fst r !! S k = Some next ->
      nearestUnhit t es prev (take (S k) (fst r)) next) /\
  (forall i e, i ∈ fst r -> es !! i = Some e ->
      invulnerable e = false -> isDead e = false ->
      exists e', snd r !! i = Some e' /\
        health e' = Math.max 0 (health e - tdamage (tstats t))) /\
  (forall i e, i ∈ fst r -> es !! i = Some e ->
      invulnerable e = true \/ isDead e = true -> snd r !! i = Some e) /\
  (forall i, i ∉ fst r -> snd r !! i = es !! i).
Proof.
  apply (C4_chain_lightning 1000 (MagicTower 0 50)
           [Scout 0 0; Scout 10 0; Scout 20 0; Scout 30 0; Scout 40 0]
           [0; 1; 2; 3; 4]%nat 0%nat).
  - reflexivity.
  - apply (bool_decide_unpack _). vm_compute. exact I.
  - cbn. lia.
  - intros i Hi.
    repeat (apply elem_of_cons in Hi as [->|Hi];
            [eexists; split; reflexivity|]).
    by apply elem_of_nil in Hi.
  - apply list_elem_of_here.
  - apply pairwiseWithinb_sound. vm_compute. reflexivity.
Defined.

(** ** The enemy's own update tick *)

(** For an enemy that is dead, or dies in this tick, [Enemy.update] does
    what [LivingEntity.update] does: it returns before moving. *)
Lemma Enemy_update_dead (sqrt : Q -> Q) (window_game : option Game) (dt : Q)
  (e : Enemy) :
  isDead (snd (LivingEntity_update window_game dt e)) = true ->
  Enemy_update sqrt window_game dt e = LivingEntity_update window_game dt e.
Proof.
  intros Hdead. unfold Enemy_update.
  destruct (LivingEntity_update window_game dt e) as [w e'].
  cbn [snd] in Hdead. rewrite Hdead, orb_true_r. reflexivity.
Qed.

(** ** Further properties of the simulation core *)

(** The health a [takeDamage] call leaves, for every damage type: the raw
    amount is subtracted unless the call is blocked. *)
Theorem takeDamage_health_raw (amount now : Q) (damageType : string)
  (e : Enemy) :
  health (snd (takeDamage amount damageType now e))
  = if invulnerable e || isDead e then health e
    else Math.max 0 (health e - amount).
Proof.
  unfold takeDamage. destruct (invulnerable e || isDead e); reflexivity.
Qed.

(** The entry [applyStatusEffect] stores, whatever resistance the enemy
    declares: the incoming duration and strength. *)
Theorem applyStatusEffect_stores_incoming (type : string) (d s now : Q)
  (e : Enemy) :
  statusEffects (applyStatusEffect type d s now e) !! type
  = Some (mkEffect d s now) /\
  statusResistance (applyStatusEffect type d s now e) = statusResistance e.
Proof. split; [apply lookup_insert_eq|reflexivity]. Qed.

Lemma Tower_update_spacing_witness :
  let t := ArcherTower 0 0 in
  let r := Tower_update 1000 [Scout 50 0] t in
  1000 / attackSpeed (tstats (snd r)) <= 1000 - lastAttackTime t /\
  lastAttackTime (snd r) = 1000 /\
  cooldownInSync (snd r).
Proof.
  apply (Tower_update_spacing 1000 [Scout 50 0] (ArcherTower 0 0)).
  - apply ArcherTower_cooldownInSync.
  - vm_compute. reflexivity.
Defined.

Lemma window_stays_open_witness :
  invulnerable
    (tick_invulnerability [16; 17; 16; 33]
       (snd (takeDamage 12 "physical" 0 (Knight 0 0)))) = true.
Proof.
  apply window_stays_open.
  - reflexivity.
  - vm_compute. reflexivity.
  - repeat constructor; vm_compute; discriminate.
Defined.

Lemma MagicTower_update_gate_witness :
  let '(t', _, strike) :=
    MagicTower_update 1000 16 [Knight 50 0] (MagicTower 0 0) in
  tstats t' = tstats (MagicTower 0 0) /\
  match strike with
  | Some _ =>
      attackCooldown (MagicTower 0 0) - 16 <= 0 /\
      attackCooldown t' = 1000 / attackSpeed (tstats (MagicTower 0 0))
  | None => attackCooldown t' = attackCooldown (MagicTower 0 0) - 16
  end.
Proof.
  apply (MagicTower_update_gate 1000 16 [Knight 50 0] (MagicTower 0 0)).
  reflexivity.
Defined.

(** Scenario: a tower of range 85 with one enemy at distance 70 and one at
    distance 50, in this order in the array, targets the nearer one. *)
Example findTarget_nearest_wins :
  fst (findTarget [Scout 70 0; Scout 0 50; Scout 200 0] (ArcherTower 0 0))
  = Some 1%nat.
Proof. vm_compute. reflexivity. Qed.

(** The manager's round trip when the spawn follows the removal at once:
    an enemy on the live list is removed (its pool resets it), and a spawn
    of its type made right after hands out the same instance, reset and put
    on the first waypoint of the path. *)
Theorem removeEnemy_then_spawnEnemy (m : EnemyManager) (s : Store)
  (enemy : nat) (e : Enemy) (p : ObjectPool) :
  enemy ∈ enemies m ->
  objects s !! enemy = Some e ->
  enemyPool m !! enemyType e = Some p ->
  enemy ∈ activeObjects p ->
  let '(m1, s1) := removeEnemy enemy m s in
  let '(spawned, m2, s2) := spawnEnemy (enemyType e) m1 s1 in
  spawned = Some enemy /\
  objects s2 !! enemy = Some (Enemy_setPath (em_path m) (resetEnemy m e)) /\
  enemy ∈ enemies m2.
Proof.
  intros Hlive Hobj Hpool Hactive. unfold removeEnemy.
  destruct (indexOf_elem _ _ Hlive) as [index ->]. rewrite Hobj, Hpool.
  pose proof (ObjectPool_release_get
                (createFn (enemyClass (enemyType e))) (resetFn m) enemy p s
                Hactive) as Hrel.
  destruct (ObjectPool_release (resetFn m) enemy p s) as [p1 s1].
  destruct Hrel as (Hs1 & _ & Hget).
  unfold spawnEnemy. cbn [enemyPool em_path enemies spawnPoint].
  rewrite lookup_insert_eq, Hget.
  split; [reflexivity|]. split.
  - rewrite Hs1. unfold resetFn, modify. cbn [objects].
    rewrite !lookup_alter_eq, Hobj. reflexivity.
  - cbn [enemies]. apply elem_of_app. right. by apply list_elem_of_singleton.
Qed.

Lemma removeEnemy_then_spawnEnemy_witness :
  let init := EnemyManager_new (mkStore ∅ 0) in
  let m0 := EnemyManager_setPath setupPath (fst init) in
  let sp := spawnEnemy "scout" m0 (snd init) in
  let m := snd (fst sp) in
  let s := snd sp in
  let e := Enemy_setPath setupPath (Scout 0 0) in
  let '(m1, s1) := removeEnemy 9 m s in
  let '(spawned, m2, s2) := spawnEnemy (enemyType e) m1 s1 in
  spawned = Some 9%nat /\
  objects s2 !! 9%nat = Some (Enemy_setPath (em_path m) (resetEnemy m e)) /\
  9%nat ∈ enemies m2.
Proof.
  cbv zeta.
  apply (removeEnemy_then_spawnEnemy
           (snd (fst (spawnEnemy "scout"
              (EnemyManager_setPath setupPath
                 (fst (EnemyManager_new (mkStore ∅ 0))))
              (snd (EnemyManager_new (mkStore ∅ 0))))))
           (snd (spawnEnemy "scout"
              (EnemyManager_setPath setupPath
                 (fst (EnemyManager_new (mkStore ∅ 0))))
              (snd (EnemyManager_new (mkStore ∅ 0)))))
           9%nat (Enemy_setPath setupPath (Scout 0 0))
           (mkObjectPool [0; 1; 2; 3; 4; 5; 6; 7; 8]%nat [9%nat])).
  - vm_compute. apply list_elem_of_here.
  - vm_compute. reflexivity.
  - vm_compute. reflexivity.
  - apply list_elem_of_here.
Defined.

Lemma Enemy_update_dead_witness :
  let e := snd (takeDamage 20 "physical" 0 (Scout 0 0)) in
  let g := Game_new (createMap 15 10) in
  Enemy_update (fun x => x) (Some g) 16 e = LivingEntity_update (Some g) 16 e.
Proof.
  apply (Enemy_update_dead (fun x => x) (Some (Game_new (createMap 15 10))) 16
           (snd (takeDamage 20 "physical" 0 (Scout 0 0)))).
  vm_compute. reflexivity.
Defined.

Lemma MagicTower_update_canAttack (now deltaTime : Q) (enemies : list Enemy)
  (t : Tower) :
  canAttack (fst (fst (MagicTower_update now deltaTime enemies t)))
  = canAttack t.
Proof.
  unfold MagicTower_update.
  destruct (canAttack t) eqn:Hcan; cbn [negb]; [|exact Hcan].
  destruct (for_of _ enemies ([], enemies)) as [current slowed].
  destruct (Math.leb _ 0); [|exact Hcan].
  match goal with |- context [findTarget ?es ?t0] =>
    assert (Hft : canAttack (snd (findTarget es t0)) = true)
      by (unfold findTarget; destruct (targetWithin 2.0 t0 es); exact Hcan);
    destruct (findTarget es t0) as [found t1]
  end.
  cbn [snd] in Hft. destruct found as [firstTarget|]; [|exact Hft].
  destruct (performChainLightning now t1 firstTarget _) as [hit es'].
  exact Hft.
Qed.

(** Ticks without a strike only run the countdown down. *)
Lemma magicTicks_quiet (ticks : list (Q * Q * list Enemy)) (t : Tower) :
  canAttack t = true ->
  Forall (fun strike => strike = None) (fst (magicTicks ticks t)) ->
  let t' := snd (magicTicks ticks t) in
  canAttack t' = true /\
  tstats t' = tstats t /\
  attackCooldown t' == attackCooldown t - elapsed ticks.
Proof.
  intros Hcan Hquiet. revert t Hcan Hquiet.
  induction ticks as [|[[now dt] es] rest IH]; intros t Hcan Hquiet.
  - cbn. repeat split; try assumption. unfold elapsed. cbn. ring.
  - cbn [magicTicks] in *.
    pose proof (MagicTower_update_gate now dt es t Hcan) as Hgate.
    pose proof (MagicTower_update_canAttack now dt es t) as Hcan'.
    destruct (MagicTower_update now dt es t) as [[t1 es1] strike].
    cbn [fst] in Hcan'. rewrite Hcan in Hcan'.
    specialize (IH t1 Hcan').
    destruct (magicTicks rest t1) as [strikes t2].
    cbn [fst snd] in *. inversion Hquiet as [|? ? Hnone Hrest]; subst.
    destruct Hgate as [Hs Hc].
    destruct (IH Hrest) as (Hcan2 & Hs2 & Hc2).
    repeat split; [exact Hcan2|congruence|].
    rewrite Hc2, Hc. unfold elapsed. cbn. ring.
Qed.

(** Without an upgrade in between, two consecutive strikes of a magic tower
    are at least [1000 / attackSpeed] ms of tick time apart: after a strike
    (the countdown is at [1000 / attackSpeed]), a run of ticks without a
    strike followed by a tick that strikes takes at least that long. *)
Theorem magic_strike_spacing (ticks : list (Q * Q * list Enemy))
  (now deltaTime : Q) (enemies : list Enemy) (t : Tower) :
  canAttack t = true ->
  cooldownInSync t ->
  Forall (fun strike => strike = None) (fst (magicTicks ticks t)) ->
  is_Some (snd (MagicTower_update now deltaTime enemies
                  (snd (magicTicks ticks t)))) ->
  1000 / attackSpeed (tstats t) <= elapsed ticks + deltaTime /\
  tstats (fst (fst (MagicTower_update now deltaTime enemies
                      (snd (magicTicks ticks t))))) = tstats t.
Proof.
  intros Hcan Hsync Hquiet Hstrike.
  destruct (magicTicks_quiet ticks t Hcan Hquiet) as (Hcan' & Hs & Hc).
  pose proof (MagicTower_update_gate now deltaTime enemies _ Hcan') as Hgate.
  destruct (MagicTower_update now deltaTime enemies (snd (magicTicks ticks t)))
    as [[t1 es1] strike].
  cbn [fst snd] in *. destruct Hstrike as [hit ->].
  destruct Hgate as (Hs1 & Hle & _). unfold cooldownInSync in Hsync.
  split; [|congruence].
  rewrite Hc in Hle. rewrite <- Hsync. lra.
Qed.

Lemma magic_strike_spacing_witness :
  let es := [Knight 50 0] in
  let t := fst (fst (MagicTower_update 1000 16 es (MagicTower 0 0))) in
  let ticks := [(1500, 500, es); (1900, 400, es)] in
  1000 / attackSpeed (tstats t) <= elapsed ticks + 200 /\
  tstats (fst (fst (MagicTower_update 2100 200 es (snd (magicTicks ticks t)))))
  = tstats t.
Proof.
  apply (magic_strike_spacing
           [(1500, 500, [Knight 50 0]); (1900, 400, [Knight 50 0])]
           2100 200 [Knight 50 0]
           (fst (fst (MagicTower_update 1000 16 [Knight 50 0]
                        (MagicTower 0 0))))).
  - vm_compute. reflexivity.
  - vm_compute. reflexivity.
  - vm_compute. repeat constructor.
  - vm_compute. eauto.
Defined.

(** ** utils *)

(** With [min <= max], the result of [clamp] lies in [[min, max]], and a
    value already within the bounds is kept. *)
Theorem clamp_bounds (value min max : Q) :
  min <= max ->
  min <= clamp value min max /\
  clamp value min max <= max /\
  (min <= value -> value <= max -> clamp value min max == value).
Proof.
  intros Hmm. unfold clamp.
  destruct (MathFacts.max_spec value min) as [[H1 E1]|[H1 E1]]; rewrite E1;
    destruct (MathFacts.min_spec min max) as [[H2 E2]|[H2 E2]];
    destruct (MathFacts.min_spec value max) as [[H3 E3]|[H3 E3]];
    rewrite ?E2, ?E3; repeat split; intros; lra.
Qed.

Lemma clamp_bounds_witness :
  0 <= clamp 300 0 255 /\
  clamp 300 0 255 <= 255 /\
  (0 <= 300 -> 300 <= 255 -> clamp 300 0 255 == 300).
Proof. apply (clamp_bounds 300 0 255). lra. Defined.

(** ** Object pool: misuse, bookkeeping and [releaseAll] *)

Lemma indexOf_Some_split (obj : nat) (array : list nat) (index : nat) :
  indexOf obj array = Some index ->
  array = take index array ++ obj :: drop (S index) array.
Proof.
  revert index. induction array as [|x rest IH]; intros index; [discriminate|].
  cbn [indexOf]. destruct (Nat.eqb_spec x obj) as [->|Hne].
  - intros [= <-]. reflexivity.
  - destruct (indexOf obj rest) as [i|]; [|discriminate].
    intros [= <-]. cbn. f_equal. by apply IH.
Qed.

Lemma indexOf_absent (obj : nat) (array : list nat) :
  obj ∉ array -> indexOf obj array = None.
Proof.
  intros Hout. destruct (indexOf obj array) as [index|] eqn:Hidx; [|reflexivity].
  exfalso. apply Hout. rewrite (indexOf_Some_split _ _ _ Hidx).
  apply elem_of_app. right. apply list_elem_of_here.
Qed.

(** Releasing an object that is not active (never handed out, or released
    before) changes neither the pool nor the store: the reset callback does
    not run and the free list does not grow. *)
Theorem ObjectPool_release_inactive {St : Type} (reset : nat -> St -> St)
  (obj : nat) (p : ObjectPool) (s : St) :
  obj ∉ activeObjects p ->
  ObjectPool_release reset obj p s = (p, s).
Proof.
  intros Hout. unfold ObjectPool_release.
  by rewrite (indexOf_absent _ _ Hout).
Qed.

Lemma ObjectPool_release_inactive_witness :
  ObjectPool_release (resetFn (mkEnemyManager [] ∅ (mkVector2 0 0) []))
    7%nat (mkObjectPool [7; 3]%nat [5]%nat)
    (mkStore (<[7%nat := snd (takeDamage 5 "normal" 0 (Scout 0 0))]> ∅) 8)
  = (mkObjectPool [7; 3]%nat [5]%nat,
     mkStore (<[7%nat := snd (takeDamage 5 "normal" 0 (Scout 0 0))]> ∅) 8).
Proof.
  apply (ObjectPool_release_inactive
           (resetFn (mkEnemyManager [] ∅ (mkVector2 0 0) [])) 7%nat
           (mkObjectPool [7; 3]%nat [5]%nat)).
  cbn. intros Hin. apply list_elem_of_singleton in Hin. discriminate.
Defined.

Lemma ObjectPool_release_wellFormed {St : Type} (reset : nat -> St -> St)
  (obj : nat) (p : ObjectPool) (s : St) :
  poolWellFormed p ->
  poolWellFormed (fst (ObjectPool_release reset obj p s)) /\
  (forall r, r ∈ pool (fst (ObjectPool_release reset obj p s))
                 ++ activeObjects (fst (ObjectPool_release reset obj p s))
             <-> r ∈ pool p ++ activeObjects p) /\
  obj ∉ activeObjects (fst (ObjectPool_release reset obj p s)).
Proof.
  intros Hwf. unfold ObjectPool_release, poolWellFormed in *.
  destruct (indexOf obj (activeObjects p)) as [index|] eqn:Hidx.
  - pose proof (indexOf_Some_split _ _ _ Hidx) as Hsplit.
    cbn [fst pool activeObjects]. unfold splice1.
    set (before := take index (activeObjects p)) in *.
    set (after := drop (S index) (activeObjects p)) in *.
    assert (Hperm : (pool p ++ [obj]) ++ before ++ after
                    ≡ₚ pool p ++ activeObjects p).
    { rewrite Hsplit, <- app_assoc. apply Permutation_app_head. cbn.
      apply Permutation_middle. }
    split; [by rewrite Hperm|]. split; [intros r; by rewrite Hperm|].
    rewrite Hsplit in Hwf. apply NoDup_app in Hwf as (_ & _ & Hact).
    apply NoDup_app in Hact as (_ & Hdisj & Hrest).
    apply NoDup_cons in Hrest as [Hnot _].
    intros Hin. apply elem_of_app in Hin as [Hin|Hin]; [|contradiction].
    apply (Hdisj obj Hin). apply list_elem_of_here.
  - cbn [fst]. split; [exact Hwf|]. split; [reflexivity|].
    by apply indexOf_None.
Qed.

(** On a pool that holds no object twice, a second release of the same
    object does nothing. *)
Theorem ObjectPool_release_twice {St : Type} (reset : nat -> St -> St)
  (obj : nat) (p : ObjectPool) (s : St) :
  poolWellFormed p ->
  let r1 := ObjectPool_release reset obj p s in
  ObjectPool_release reset obj (fst r1) (snd r1) = r1.
Proof.
  intros Hwf r1.
  destruct (ObjectPool_release_wellFormed reset obj p s Hwf) as (_ & _ & Hout).
  fold r1 in Hout. unfold ObjectPool_release at 1.
  rewrite (indexOf_absent _ _ Hout). by destruct r1.
Qed.

Lemma ObjectPool_release_twice_witness :
  let m := mkEnemyManager [] ∅ (mkVector2 0 0) [] in
  let s := mkStore (<[5%nat := snd (takeDamage 5 "normal" 0 (Scout 9 9))]> ∅) 8 in
  let r1 := ObjectPool_release (resetFn m) 5%nat
              (mkObjectPool [7; 3]%nat [5]%nat) s in
  ObjectPool_release (resetFn m) 5%nat (fst r1) (snd r1) = r1.
Proof.
  apply (ObjectPool_release_twice
           (resetFn (mkEnemyManager [] ∅ (mkVector2 0 0) [])) 5%nat
           (mkObjectPool [7; 3]%nat [5]%nat)).
  unfold poolWellFormed. apply (bool_decide_unpack _). vm_compute. exact I.
Defined.

(** [releaseAll] releases every active object, in order: none is active
    afterwards, all of them are free, and each was reset. *)
Theorem ObjectPool_releaseAll_spec {St : Type} (reset : nat -> St -> St)
  (p : ObjectPool) (s : St) :
  let r := ObjectPool_releaseAll reset p s in
  activeObjects (fst r) = [] /\
  pool (fst r) = pool p ++ activeObjects p /\
  snd r = fold_left (fun s obj => reset obj s) (activeObjects p) s.
Proof.
  unfold ObjectPool_releaseAll. destruct p as [free active].
  cbn [activeObjects pool]. revert free s.
  induction active as [|obj rest IH]; intros free s.
  - cbn. rewrite app_nil_r. repeat split.
  - cbn [length releaseAll_loop activeObjects].
    unfold ObjectPool_release. cbn [activeObjects pool indexOf].
    rewrite Nat.eqb_refl. unfold splice1. cbn [take drop app].
    rewrite drop_0.
    specialize (IH (free ++ [obj]) (reset obj s)). cbn zeta in IH.
    destruct IH as (Ha & Hp & Hs).
    split; [exact Ha|]. split; [rewrite Hp, <- app_assoc; reflexivity|].
    exact Hs.
Qed.

Lemma ObjectPool_get_wellFormed (new : Q -> Q -> Enemy) (p : ObjectPool)
  (s : Store) :
  poolWellFormed p -> poolInStore p s ->
  let '(r, p', s') := ObjectPool_get (createFn new) p s in
  (r ∉ activeObjects p) /\
  r ∈ activeObjects p' /\
  (r ∉ pool p') /\
  poolWellFormed p' /\
  poolInStore p' s'.
Proof.
  intros Hwf Hin. unfold ObjectPool_get, poolWellFormed, poolInStore in *.
  destruct (last (pool p)) as [obj|] eqn:Hlast.
  - apply last_Some in Hlast as [free Hfree].
    cbn [pool activeObjects]. rewrite Hfree, removelast_last.
    rewrite Hfree in Hwf, Hin.
    assert (Hperm : free ++ activeObjects p ++ [obj]
                    ≡ₚ (free ++ [obj]) ++ activeObjects p).
    { rewrite <- app_assoc. apply Permutation_app_head.
      apply Permutation_app_comm. }
    pose proof Hwf as Hwf'. rewrite <- Hperm in Hwf'.
    apply NoDup_app in Hwf as (Hfo & Hdisj & _).
    split.
    { apply Hdisj. apply elem_of_app. right. apply list_elem_of_here. }
    split.
    { apply elem_of_app. right. apply list_elem_of_here. }
    split.
    { apply NoDup_app in Hfo as (_ & Hd & _). intros Hf.
      apply (Hd obj Hf). apply list_elem_of_here. }
    split; [exact Hwf'|].
    intros r Hr. apply Hin. by rewrite <- Hperm.
  - apply last_None in Hlast. unfold createFn, alloc.
    cbn [pool activeObjects nextRef]. rewrite Hlast in *. cbn [app] in *.
    assert (Hfresh : nextRef s ∉ activeObjects p).
    { intros Hr. apply Hin in Hr. lia. }
    split; [exact Hfresh|].
    split; [apply elem_of_app; right; apply list_elem_of_here|].
    split; [apply not_elem_of_nil|].
    split.
    + apply NoDup_app. split; [exact Hwf|]. split.
      * intros x Hx Hx'. apply list_elem_of_singleton in Hx'. by subst.
      * apply NoDup_singleton.
    + intros r Hr. apply elem_of_app in Hr as [Hr|Hr].
      * apply Hin in Hr. lia.
      * apply list_elem_of_singleton in Hr. lia.
Qed.

Lemma fillPool_wellFormed (new : Q -> Q -> Enemy) (n : nat) (free : list nat)
  (s : Store) :
  NoDup free -> (forall r, r ∈ free -> (r < nextRef s)%nat) ->
  let r := fillPool (createFn new) n free s in
  NoDup (fst r) /\
  (forall x, x ∈ fst r -> (x < nextRef (snd r))%nat) /\
  length (fst r) = (length free + n)%nat.
Proof.
  revert free s. induction n as [|n IH]; intros free s Hnd Hin; cbn zeta.
  - cbn. repeat split; [exact Hnd|exact Hin|lia].
  - change (fillPool (createFn new) (S n) free s)
      with (fillPool (createFn new) n (free ++ [nextRef s])
              (mkStore (<[nextRef s := new 0 0]> (objects s))
                 (S (nextRef s)))).
    specialize (IH (free ++ [nextRef s])
                  (mkStore (<[nextRef s := new 0 0]> (objects s))
                     (S (nextRef s)))).
    cbn zeta in IH. destruct IH as (H1 & H2 & H3).
    + apply NoDup_app. split; [exact Hnd|]. split.
      * intros x Hx Hx'. apply list_elem_of_singleton in Hx'. subst.
        apply Hin in Hx. lia.
      * apply NoDup_singleton.
    + cbn [nextRef]. intros r Hr. apply elem_of_app in Hr as [Hr|Hr].
      * apply Hin in Hr. lia.
      * apply list_elem_of_singleton in Hr. lia.
    + split; [exact H1|]. split; [exact H2|].
      rewrite H3, length_app. cbn. lia.
Qed.

Lemma poolCalls_invariant (new : Q -> Q -> Enemy) (m : EnemyManager)
  (initialSize : nat) (s : Store) (calls : list PoolCall) :
  let ps := poolCalls new m calls
              (ObjectPool_new (createFn new) initialSize s) in
  poolWellFormed (fst ps) /\ poolInStore (fst ps) (snd ps).
Proof.
  cbn zeta. unfold poolCalls.
  assert (Hinit : poolWellFormed
                    (fst (ObjectPool_new (createFn new) initialSize s)) /\
                  poolInStore
                    (fst (ObjectPool_new (createFn new) initialSize s))
                    (snd (ObjectPool_new (createFn new) initialSize s))).
  { unfold ObjectPool_new.
    pose proof (fillPool_wellFormed new initialSize [] s (NoDup_nil_2)) as H.
    cbn zeta in H. destruct H as (H1 & H2 & _).
    { intros r Hr. by apply elem_of_nil in Hr. }
    destruct (fillPool (createFn new) initialSize [] s) as [free s'].
    cbn [fst snd] in *. unfold poolWellFormed, poolInStore.
    cbn [pool activeObjects]. rewrite app_nil_r. split; assumption. }
  revert Hinit. generalize (ObjectPool_new (createFn new) initialSize s).
  induction calls as [|c rest IH]; intros ps Hinv; [exact Hinv|].
  cbn [fold_left]. apply IH. destruct Hinv as [Hwf Hin].
  destruct c as [|obj]; unfold poolCall.
  - pose proof (ObjectPool_get_wellFormed new (fst ps) (snd ps) Hwf Hin) as H.
    destruct (ObjectPool_get (createFn new) (fst ps) (snd ps)) as [[r p'] s'].
    destruct H as (_ & _ & _ & H1 & H2). split; assumption.
  - destruct (ObjectPool_release_wellFormed (resetFn m) obj (fst ps) (snd ps)
                Hwf) as (H1 & H2 & _).
    split; [exact H1|].
    intros r Hr. apply H2 in Hr. apply Hin in Hr.
    unfold ObjectPool_release.
    destruct (indexOf obj (activeObjects (fst ps))); exact Hr.
Qed.

(** The bookkeeping of a pool: a pool made by the constructor and used
    through any run of [get] and [release] calls (with any arguments) never
    holds an object twice, neither free nor active, and every object it
    holds is allocated in the store.  So [get] never hands out an object
    that is still in use: what it returns was not active before the call,
    and is active and not free after it. *)
Theorem ObjectPool_bookkeeping (new : Q -> Q -> Enemy) (m : EnemyManager)
  (initialSize : nat) (s : Store) (calls : list PoolCall) :
  let ps := poolCalls new m calls
              (ObjectPool_new (createFn new) initialSize s) in
  poolWellFormed (fst ps) /\
  poolInStore (fst ps) (snd ps) /\
  let '(r, p', _) := ObjectPool_get (createFn new) (fst ps) (snd ps) in
  (r ∉ activeObjects (fst ps)) /\ r ∈ activeObjects p' /\ (r ∉ pool p').
Proof.
  cbn zeta.
  destruct (poolCalls_invariant new m initialSize s calls) as [Hwf Hin].
  split; [exact Hwf|]. split; [exact Hin|].
  pose proof (ObjectPool_get_wellFormed new _ _ Hwf Hin) as H.
  destruct (ObjectPool_get (createFn new) _ _) as [[r p'] s'].
  destruct H as (H1 & H2 & H3 & _). repeat split; assumption.
Qed.

(** ** Timers of a living entity over update ticks *)

Lemma total_nonneg (deltaTimes : list Q) :
  Forall (fun dt => 0 <= dt) deltaTimes -> 0 <= total deltaTimes.
Proof. induction 1; simpl; lra. Qed.

Lemma LivingEntity_update_timers (window_game : option Game) (dt : Q)
  (e : Enemy) :
  let e' := snd (LivingEntity_update window_game dt e) in
  statusEffects e' = omap (ageEffect dt) (statusEffects e) /\
  invulnerable e' = invulnerable (updateInvulnerability dt e) /\
  invulnerabilityTime e' = invulnerabilityTime (updateInvulnerability dt e).
Proof.
  cbv zeta. unfold LivingEntity_update.
  set (e1 := updateInvulnerability dt e).
  assert (H2 : statusEffects e1 = statusEffects e).
  { unfold e1, updateInvulnerability.
    repeat match goal with |- context [if ?b then _ else _] =>
      destruct b end; reflexivity. }
  assert (H3 : forall x, statusEffects (updateDamageFlash dt x) = statusEffects x
                         /\ invulnerable (updateDamageFlash dt x) = invulnerable x
                         /\ invulnerabilityTime (updateDamageFlash dt x)
                            = invulnerabilityTime x).
  { intros x. unfold updateDamageFlash.
    destruct (Math.ltb 0 (damageFlashTime x)); repeat split. }
  destruct (H3 e1) as (Ha & Hb & Hc).
  destruct (_ && _).
  - unfold onDeath. destruct window_game; cbn; rewrite Ha, H2, Hb, Hc;
      repeat split.
  - cbn. rewrite Ha, H2, Hb, Hc. repeat split.
Qed.

Lemma updates_effect_absent (window_game : option Game) (deltaTimes : list Q)
  (e : Enemy) (type : string) :
  statusEffects e !! type = None ->
  statusEffects (snd (updates window_game deltaTimes e)) !! type = None.
Proof.
  revert window_game e.
  induction deltaTimes as [|dt rest IH]; intros w e Hnone; [exact Hnone|].
  cbn [updates]. cbv zeta. apply IH.
  destruct (LivingEntity_update_timers w dt e) as (-> & _).
  by rewrite lookup_omap, Hnone.
Qed.

(** A status effect lasts its duration of update time: while the ticks add
    up to less than the duration the entry is present, with what is left of
    the duration and the strength it was given; once they add up to the
    duration or more, the entry is gone. *)
Theorem statusEffect_lasts_its_duration (window_game : option Game)
  (deltaTimes : list Q) (e : Enemy) (type : string) (effect : StatusEffect) :
  statusEffects e !! type = Some effect ->
  0 < duration effect ->
  Forall (fun dt => 0 <= dt) deltaTimes ->
  let e' := snd (updates window_game deltaTimes e) in
  (total deltaTimes < duration effect ->
   exists effect',
     statusEffects e' !! type = Some effect' /\
     duration effect' == duration effect - total deltaTimes /\
     strength effect' = strength effect /\
     startTime effect' = startTime effect) /\
  (duration effect <= total deltaTimes ->
   statusEffects e' !! type = None /\ hasStatusEffect type e' = false).
Proof.
  cbv zeta. revert window_game e effect.
  induction deltaTimes as [|dt rest IH]; intros w e effect Hin Hpos Hdts.
  - cbn. split.
    + intros _. exists effect. split; [exact Hin|]. split; [lra|]. by split.
    + intros Hle. exfalso. lra.
  - inversion Hdts as [|? ? Hdt Hrest]; subst.
    pose proof (total_nonneg rest Hrest) as Hnn.
    cbn [updates total]. cbv zeta.
    destruct (LivingEntity_update_timers w dt e) as (Hst & _).
    set (e1 := snd (LivingEntity_update w dt e)) in *.
    set (w1 := fst (LivingEntity_update w dt e)).
    assert (Hlook : statusEffects e1 !! type = ageEffect dt effect).
    { rewrite Hst, lookup_omap, Hin. reflexivity. }
    unfold ageEffect in Hlook. cbv zeta in Hlook.
    destruct (Math.leb (duration effect - dt) 0) eqn:Hexp.
    + apply MathFacts.leb_le in Hexp. split.
      * intros Hlt. exfalso. lra.
      * intros _.
        pose proof (updates_effect_absent w1 rest e1 type Hlook) as Hgone.
        split; [exact Hgone|]. unfold hasStatusEffect. rewrite Hgone.
        apply bool_decide_eq_false. by intros [? ?].
    + apply MathFacts.leb_gt in Hexp.
      destruct (IH w1 e1 _ Hlook Hexp Hrest) as [Hleft Hgone].
      cbn [duration strength startTime] in *. split.
      * intros Hlt. destruct Hleft as (effect' & H1 & H2 & H3 & H4); [lra|].
        exists effect'. split; [exact H1|]. split; [lra|]. by split.
      * intros Hle. apply Hgone. lra.
Qed.

Lemma statusEffect_lasts_its_duration_witness :
  let e := applyStatusEffect "slow" 1000 0.5 0 (Knight 0 0) in
  let e' := snd (updates None [400; 500] e) in
  (total [400; 500] < 1000 ->
   exists effect',
     statusEffects e' !! "slow" = Some effect' /\
     duration effect' == 1000 - total [400; 500] /\
     strength effect' = 0.5 /\
     startTime effect' = 0) /\
  (1000 <= total [400; 500] ->
   statusEffects e' !! "slow" = None /\ hasStatusEffect "slow" e' = false).
Proof.
  apply (statusEffect_lasts_its_duration None [400; 500]
           (applyStatusEffect "slow" 1000 0.5 0 (Knight 0 0)) "slow"
           (mkEffect 1000 0.5 0)).
  - reflexivity.
  - reflexivity.
  - repeat constructor; discriminate.
Defined.

Lemma updates_vulnerable (window_game : option Game) (deltaTimes : list Q)
  (e : Enemy) :
  invulnerable e = false ->
  invulnerable (snd (updates window_game deltaTimes e)) = false.
Proof.
  revert window_game e.
  induction deltaTimes as [|dt rest IH]; intros w e Hv; [exact Hv|].
  cbn [updates]. cbv zeta. apply IH.
  destruct (LivingEntity_update_timers w dt e) as (_ & -> & _).
  unfold updateInvulnerability. by rewrite Hv.
Qed.

Lemma invulnerability_window (window_game : option Game)
  (deltaTimes : list Q) (e : Enemy) :
  invulnerable e = true ->
  0 < invulnerabilityTime e ->
  Forall (fun dt => 0 <= dt) deltaTimes ->
  let e' := snd (updates window_game deltaTimes e) in
  (total deltaTimes < invulnerabilityTime e -> invulnerable e' = true) /\
  (invulnerabilityTime e <= total deltaTimes -> invulnerable e' = false).
Proof.
  cbv zeta. revert window_game e.
  induction deltaTimes as [|dt rest IH]; intros w e Hinv Hpos Hdts.
  - cbn. split; [intros _; exact Hinv|intros Hle; exfalso; lra].
  - inversion Hdts as [|? ? Hdt Hrest]; subst.
    pose proof (total_nonneg rest Hrest) as Hnn.
    cbn [updates total]. cbv zeta.
    destruct (LivingEntity_update_timers w dt e) as (_ & Hi & Ht).
    set (e1 := snd (LivingEntity_update w dt e)) in *.
    set (w1 := fst (LivingEntity_update w dt e)).
    unfold updateInvulnerability in Hi, Ht. rewrite Hinv in Hi, Ht.
    assert (Hlt : Math.ltb 0 (invulnerabilityTime e) = true)
      by (by apply MathFacts.ltb_lt).
    rewrite Hlt in Hi, Ht. cbn in Hi, Ht.
    destruct (Math.leb (invulnerabilityTime e - dt) 0) eqn:Hexp.
    + apply MathFacts.leb_le in Hexp. cbn in Hi, Ht. split.
      * intros Hlt'. exfalso. lra.
      * intros _. by apply updates_vulnerable.
    + apply MathFacts.leb_gt in Hexp. cbn in Hi, Ht.
      assert (Hpos1 : 0 < invulnerabilityTime e1) by (rewrite Ht; exact Hexp).
      rewrite Hinv in Hi.
      destruct (IH w1 e1 Hi Hpos1 Hrest) as [Hopen Hclosed].
      rewrite Ht in Hopen, Hclosed. split.
      * intros Hlt'. apply Hopen. lra.
      * intros Hle. apply Hclosed. lra.
Qed.

(** A hit that was taken shields the entity for 100 ms of update time:
    while the ticks after it add up to less than 100 ms every further hit
    is refused and changes nothing; once they add up to 100 ms or more the
    entity takes damage again unless it has died. *)
Theorem hit_immunity_window (window_game : option Game)
  (amount now : Q) (damageType : string) (deltaTimes : list Q) (e : Enemy) :
  fst (takeDamage amount damageType now e) = true ->
  Forall (fun dt => 0 <= dt) deltaTimes ->
  let e' := snd (updates window_game deltaTimes
                   (snd (takeDamage amount damageType now e))) in
  (total deltaTimes < 100 ->
   forall amount' damageType' now',
     takeDamage amount' damageType' now' e' = (false, e')) /\
  (100 <= total deltaTimes ->
   forall amount' damageType' now',
     fst (takeDamage amount' damageType' now' e') = negb (isDead e')).
Proof.
  intros Hhit Hdts. cbv zeta.
  set (e0 := snd (takeDamage amount damageType now e)).
  assert (Hinv : invulnerable e0 = true /\ invulnerabilityTime e0 = 100).
  { unfold e0. unfold takeDamage in *.
    destruct (invulnerable e || isDead e); [discriminate|]. by cbn. }
  destruct Hinv as [Hinv Htime].
  assert (Hpos : 0 < invulnerabilityTime e0) by (rewrite Htime; reflexivity).
  destruct (invulnerability_window window_game deltaTimes e0 Hinv Hpos Hdts)
    as [Hopen Hclosed].
  rewrite Htime in Hopen, Hclosed. split.
  - intros Hlt amount' damageType' now'. unfold takeDamage.
    by rewrite (Hopen Hlt).
  - intros Hle amount' damageType' now'. unfold takeDamage.
    rewrite (Hclosed Hle). cbn [orb].
    by destruct (isDead _).
Qed.

Lemma hit_immunity_window_witness :
  let e' := snd (updates None [16; 17; 16; 33]
                   (snd (takeDamage 12 "physical" 0 (Knight 0 0)))) in
  (total [16; 17; 16; 33] < 100 ->
   forall amount' damageType' now',
     takeDamage amount' damageType' now' e' = (false, e')) /\
  (100 <= total [16; 17; 16; 33] ->
   forall amount' damageType' now',
     fst (takeDamage amount' damageType' now' e') = negb (isDead e')).
Proof.
  apply (hit_immunity_window None 12 0 "physical" [16; 17; 16; 33]
           (Knight 0 0)).
  - reflexivity.
  - repeat constructor; discriminate.
Defined.

(** ** Movement of an enemy *)

Lemma LivingEntity_update_frame (window_game : option Game) (dt : Q)
  (e : Enemy) :
  let e' := snd (LivingEntity_update window_game dt e) in
  position e' = position e /\ path e' = path e /\
  currentWaypoint e' = currentWaypoint e /\ baseSpeed e' = baseSpeed e /\
  damage e' = damage e /\ health e' = health e.
Proof.
  cbv zeta. unfold LivingEntity_update, onDeath, updateStatusEffects,
    updateDamageFlash, updateInvulnerability.
  repeat match goal with |- context [if ?b then _ else _] =>
    destruct b end; destruct window_game; cbn; repeat split.
Qed.

Lemma LivingEntity_update_healthy (window_game : option Game) (dt : Q)
  (e : Enemy) :
  0 < health e ->
  fst (LivingEntity_update window_game dt e) = window_game /\
  isAlive (snd (LivingEntity_update window_game dt e)) = isAlive e /\
  isDead (snd (LivingEntity_update window_game dt e)) = isDead e.
Proof.
  intros Hpos. unfold LivingEntity_update. cbv zeta.
  set (e3 := updateStatusEffects dt _).
  assert (H : health e3 = health e /\ isAlive e3 = isAlive e
              /\ isDead e3 = isDead e).
  { unfold e3, updateStatusEffects, updateDamageFlash, updateInvulnerability.
    repeat match goal with |- context [if ?b then _ else _] =>
      destruct b end; cbn; repeat split. }
  destruct H as (Hh & Ha & Hd).
  assert (Hno : Math.leb (health e3) 0 = false).
  { apply MathFacts.leb_gt. by rewrite Hh. }
  rewrite Hno. cbn. by repeat split.
Qed.

Lemma updateSpeed_frame (e : Enemy) :
  position (updateSpeed e) = position e /\ path (updateSpeed e) = path e /\
  currentWaypoint (updateSpeed e) = currentWaypoint e /\
  damage (updateSpeed e) = damage e /\ isAlive (updateSpeed e) = isAlive e /\
  statusEffects (updateSpeed e) = statusEffects e.
Proof.
  unfold updateSpeed, hasStatusEffect. cbn.
  destruct (statusEffects e !! "slow"); cbn;
    destruct (bool_decide _); cbn;
    destruct (statusEffects e !! "haste"); cbn; repeat split.
Qed.

Lemma updateSpeed_frozen (e : Enemy) :
  is_Some (statusEffects e !! "freeze") -> currentSpeed (updateSpeed e) == 0.
Proof.
  intros Hfrozen. unfold updateSpeed, hasStatusEffect. cbn.
  destruct (statusEffects e !! "slow"); cbn;
    rewrite (bool_decide_eq_true_2 _ Hfrozen); cbn;
    destruct (statusEffects e !! "haste"); cbn; ring.
Qed.

Lemma followPath_frozen (sqrt : Q -> Q) (dt : Q) (e : Enemy) :
  currentSpeed e == 0 ->
  vx (position (followPath sqrt dt e)) == vx (position e) /\
  vy (position (followPath sqrt dt e)) == vy (position e).
Proof.
  intros Hzero. unfold followPath.
  destruct (_ || _); [split; reflexivity|].
  destruct (path e !! currentWaypoint e) as [target|]; [|split; reflexivity].
  destruct (dist_lt _ 5); [split; reflexivity|].
  cbn. set (d := normalize sqrt _).
  assert (Hmove : currentSpeed e * dt * 0.001 == 0).
  { apply Qeq_trans with (0 * dt * 0.001); [|ring].
    apply Qmult_comp; [|reflexivity]. apply Qmult_comp; [exact Hzero|reflexivity]. }
  split.
  - apply Qeq_trans with (vx (position e) + vx d * 0); [|ring].
    apply Qplus_comp; [reflexivity|]. apply Qmult_comp; [reflexivity|exact Hmove].
  - apply Qeq_trans with (vy (position e) + vy d * 0); [|ring].
    apply Qplus_comp; [reflexivity|]. apply Qmult_comp; [reflexivity|exact Hmove].
Qed.

(** A frozen enemy does not move: when the freeze outlasts the tick, an
    update leaves the enemy where it was, whatever its base speed, slow and
    haste, and whatever value the square root takes. *)
Theorem frozen_enemy_stays_put (sqrt : Q -> Q) (window_game : option Game)
  (dt : Q) (e : Enemy) (effect : StatusEffect) :
  statusEffects e !! "freeze" = Some effect ->
  dt < duration effect ->
  let e' := snd (Enemy_update sqrt window_game dt e) in
  vx (position e') == vx (position e) /\ vy (position e') == vy (position e).
Proof.
  intros Hin Hlast. cbv zeta. unfold Enemy_update.
  destruct (LivingEntity_update_timers window_game dt e) as (Hst & _).
  destruct (LivingEntity_update_frame window_game dt e) as (Hp & _).
  destruct (LivingEntity_update window_game dt e) as [w1 e1].
  cbn [snd] in *.
  destruct (_ || _); [cbn; rewrite Hp; split; reflexivity|].
  assert (Hfrozen : is_Some (statusEffects e1 !! "freeze")).
  { rewrite Hst, lookup_omap, Hin. cbn. unfold ageEffect. cbv zeta.
    assert (Hkeep : Math.leb (duration effect - dt) 0 = false)
      by (apply MathFacts.leb_gt; lra).
    rewrite Hkeep. eauto. }
  pose proof (updateSpeed_frozen e1 Hfrozen) as Hzero.
  destruct (followPath_frozen sqrt dt (updateSpeed e1) Hzero) as [Hx Hy].
  destruct (updateSpeed_frame e1) as (Hp2 & _). rewrite Hp2, Hp in Hx, Hy.
  set (e2 := followPath sqrt dt (updateSpeed e1)) in *.
  assert (Hflash : forall x,
            position (if Math.ltb 0 (damageFlashTime x)
                      then set_damageFlashTime
                             (Math.max 0 (damageFlashTime x - dt)) x
                      else x) = position x).
  { intros x. by destruct (Math.ltb 0 (damageFlashTime x)). }
  cbv zeta. destruct (hasReachedEnd _).
  - unfold onReachEnd, destroy. cbn [snd]. cbn. rewrite Hflash. by split.
  - cbn [snd]. rewrite Hflash. by split.
Qed.

Lemma frozen_enemy_stays_put_witness :
  let e := applyStatusEffect "freeze" 500 1 0
             (Enemy_setPath setupPath (Scout 0 0)) in
  let e' := snd (Enemy_update (fun x => x) None 16 e) in
  vx (position e') == vx (position e) /\ vy (position e') == vy (position e).
Proof.
  apply (frozen_enemy_stays_put (fun x => x) None 16
           (applyStatusEffect "freeze" 500 1 0
              (Enemy_setPath setupPath (Scout 0 0)))
           (mkEffect 500 1 0)).
  - reflexivity.
  - reflexivity.
Defined.

Lemma Enemy_update_gone (sqrt : Q -> Q) (window_game : option Game) (dt : Q)
  (e : Enemy) :
  isAlive e = false -> 0 < health e ->
  fst (Enemy_update sqrt window_game dt e) = window_game /\
  isAlive (snd (Enemy_update sqrt window_game dt e)) = false /\
  health (snd (Enemy_update sqrt window_game dt e)) = health e.
Proof.
  intros Hgone Hpos. unfold Enemy_update.
  destruct (LivingEntity_update_healthy window_game dt e Hpos) as (Hw & Ha & _).
  destruct (LivingEntity_update_frame window_game dt e)
    as (_ & _ & _ & _ & _ & Hh).
  destruct (LivingEntity_update window_game dt e) as [w1 e1]. cbn [fst snd] in *.
  rewrite Ha, Hgone. cbn.
  split; [exact Hw|]. split; [by rewrite Ha|exact Hh].
Qed.

Lemma Enemy_updates_gone (sqrt : Q -> Q) (window_game : option Game)
  (deltaTimes : list Q) (e : Enemy) :
  isAlive e = false -> 0 < health e ->
  fst (Enemy_updates sqrt window_game deltaTimes e) = window_game.
Proof.
  revert window_game e.
  induction deltaTimes as [|dt rest IH]; intros w e Hgone Hpos; [reflexivity|].
  cbn [Enemy_updates]. cbv zeta.
  destruct (Enemy_update_gone sqrt w dt e Hgone Hpos) as (Hw & Ha & Hh).
  rewrite Hw. apply IH; [exact Ha|by rewrite Hh].
Qed.

(** An enemy that arrives at the last waypoint costs the player lives once:
    the update in which a healthy enemy is within 5 units of its last
    waypoint takes [damage] lives (never below 0), pays no gold and no
    score, and takes the enemy out of play; later updates of that enemy
    leave the game as it is. *)
Theorem Enemy_reaches_end_once (sqrt : Q -> Q) (g : Game) (dt : Q)
  (deltaTimes : list Q) (e : Enemy) (target : Vector2) :
  isAlive e = true -> isDead e = false -> 0 < health e ->
  path e !! currentWaypoint e = Some target ->
  S (currentWaypoint e) = length (path e) ->
  dist_lt (distanceTo2 (position e) target) 5 = true ->
  let r := Enemy_update sqrt (Some g) dt e in
  fst r = Some (set_lives (Z.max 0 (lives g - damage e)) g) /\
  isAlive (snd r) = false /\
  fst (Enemy_updates sqrt (fst r) deltaTimes (snd r)) = fst r.
Proof.
  intros Halive Hdead Hpos Htarget Hlast Hnear. cbv zeta.
  assert (Hstep :
    fst (Enemy_update sqrt (Some g) dt e)
      = Some (set_lives (Z.max 0 (lives g - damage e)) g) /\
    isAlive (snd (Enemy_update sqrt (Some g) dt e)) = false /\
    health (snd (Enemy_update sqrt (Some g) dt e)) = health e).
  { unfold Enemy_update.
    destruct (LivingEntity_update_healthy (Some g) dt e Hpos) as (Hw & Ha & Hd).
    destruct (LivingEntity_update_frame (Some g) dt e)
      as (Hp & Hpath & Hcw & _ & Hdmg & Hh).
    destruct (LivingEntity_update (Some g) dt e) as [w1 e1].
    cbn [fst snd] in *. subst w1. rewrite Ha, Hd, Halive, Hdead. cbn [negb orb].
    destruct (updateSpeed_frame e1) as (Hp2 & Hpath2 & Hcw2 & Hdmg2 & _).
    set (e2 := updateSpeed e1) in *.
    assert (Hfollow : followPath sqrt dt e2
                      = set_currentWaypoint (S (currentWaypoint e2)) e2).
    { unfold followPath. rewrite Hpath2, Hpath, Hcw2, Hcw, Hp2, Hp, Htarget.
      rewrite Hnear, <- Hlast. cbn [Nat.eqb orb].
      assert (Hlt : (S (currentWaypoint e) <=? currentWaypoint e)%nat = false)
        by (apply Nat.leb_gt; lia).
      by rewrite Hlt. }
    rewrite Hfollow. cbv zeta.
    set (e3 := if Math.ltb 0 _ then _ else _).
    assert (H3 : path e3 = path e /\ currentWaypoint e3 = S (currentWaypoint e)
                 /\ damage e3 = damage e /\ health e3 = health e2).
    { unfold e3. destruct (Math.ltb 0 _); cbn;
        rewrite ?Hpath2, ?Hpath, ?Hcw2, ?Hcw, ?Hdmg2, ?Hdmg; by repeat split. }
    destruct H3 as (Hpath3 & Hcw3 & Hdmg3 & Hh3).
    assert (Hend : hasReachedEnd e3 = true).
    { unfold hasReachedEnd. rewrite Hpath3, Hcw3, Hlast. apply Nat.leb_refl. }
    rewrite Hend. unfold onReachEnd, destroy, Game_takeDamage. cbn.
    rewrite Hdmg3. split; [reflexivity|]. split; [reflexivity|].
    rewrite Hh3, <- Hh. unfold e2, updateSpeed, hasStatusEffect. cbn.
    destruct (statusEffects e1 !! "slow"); cbn;
      destruct (bool_decide _); cbn;
      destruct (statusEffects e1 !! "haste"); reflexivity. }
  destruct Hstep as (Hw & Ha & Hh).
  split; [exact Hw|]. split; [exact Ha|].
  apply Enemy_updates_gone; [exact Ha|by rewrite Hh].
Qed.

Lemma Enemy_reaches_end_once_witness :
  let g := Game_new (createMap 15 10) in
  let e := set_currentWaypoint 1 (Enemy_setPath
             [mkVector2 0 0; mkVector2 3 0] (Knight 0 0)) in
  let r := Enemy_update (fun x => x) (Some g) 16 e in
  fst r = Some (set_lives (Z.max 0 (lives g - damage e)) g) /\
  isAlive (snd r) = false /\
  fst (Enemy_updates (fun x => x) (fst r) [16; 16] (snd r)) = fst r.
Proof.
  apply (Enemy_reaches_end_once (fun x => x) (Game_new (createMap 15 10)) 16
           [16; 16]
           (set_currentWaypoint 1 (Enemy_setPath
              [mkVector2 0 0; mkVector2 3 0] (Knight 0 0)))
           (mkVector2 3 0)).
  - reflexivity.
  - reflexivity.
  - reflexivity.
  - reflexivity.
  - reflexivity.
  - reflexivity.
Defined.

(** ** Where a tower can stand *)

Lemma distance2_sym (x1 y1 x2 y2 : Q) :
  distance2 x1 y1 x2 y2 == distance2 x2 y2 x1 y1.
Proof. unfold distance2. ring. Qed.

Lemma dist_lt_false (d2 r : Q) : 0 < r -> dist_lt d2 r = false -> r * r <= d2.
Proof.
  intros Hr. unfold dist_lt.
  assert (H0 : Math.ltb 0 r = true) by (by apply MathFacts.ltb_lt).
  rewrite H0. cbn [andb]. intros H. by apply MathFacts.ltb_ge in H.
Qed.

Lemma existsb_false_elem {A : Type} (f : A -> bool) (l : list A) (x : A) :
  existsb f l = false -> x ∈ l -> f x = false.
Proof.
  intros Hnone Hin. destruct (f x) eqn:Hfx; [|reflexivity].
  assert (Hex : existsb f l = true).
  { apply existsb_exists. exists x. split; [|exact Hfx].
    by apply list_elem_of_In. }
  congruence.
Qed.

(** What [canPlaceTower] guarantees when it says yes: the point lies in the
    rectangle of [mapWidth] by [mapHeight] grid steps of the tower manager,
    the map cell it looks up (if the map has one there) can take a tower,
    every tower is at least a grid step away and every path point at least
    35 units. *)
Theorem canPlaceTower_sound (g : Game) (x y : Q) :
  canPlaceTower g x y = true ->
  let gs := tm_gridSize (towerManager g) in
  (0 <= x /\ x < inject_Z (mapWidth g) * gs) /\
  (0 <= y /\ y < inject_Z (mapHeight g) * gs) /\
  (forall row cell,
     map g !! Z.to_nat (Math.floor (y / gs)) = Some row ->
     row !! Z.to_nat (Math.floor (x / gs)) = Some cell ->
     canBuildTower cell = true) /\
  (forall tower, tower ∈ towers (towerManager g) -> 0 < gs ->
     gs * gs <= distance2 (vx (tposition tower)) (vy (tposition tower)) x y) /\
  (forall pathPoint, pathPoint ∈ gpath g ->
     35 * 35 <= distance2 (vx pathPoint) (vy pathPoint) x y).
Proof.
  unfold canPlaceTower. cbv zeta.
  destruct (Math.ltb x 0) eqn:Hx0; [discriminate|].
  destruct (Math.leb _ x) eqn:Hxw; [discriminate|].
  destruct (Math.ltb y 0) eqn:Hy0; [discriminate|].
  destruct (Math.leb _ y) eqn:Hyh; [discriminate|].
  cbn [orb].
  apply MathFacts.ltb_ge in Hx0, Hy0. apply MathFacts.leb_gt in Hxw, Hyh.
  destruct (match map g !! _ with Some _ => _ | None => _ end) eqn:Hcell;
    [discriminate|].
  destruct (existsb _ (towers _)) eqn:Htowers; [discriminate|].
  destruct (existsb _ (gpath g)) eqn:Hpath; [discriminate|].
  intros _. split; [by split|]. split; [by split|]. split; [|split].
  - intros row cell Hrow Hc. rewrite Hrow, Hc in Hcell.
    by destruct (canBuildTower cell).
  - intros tower Hin Hgs.
    pose proof (existsb_false_elem _ _ tower Htowers Hin) as Hfar.
    cbv beta in Hfar. by apply dist_lt_false.
  - intros pathPoint Hin.
    pose proof (existsb_false_elem _ _ pathPoint Hpath Hin) as Hfar.
    cbv beta in Hfar. apply dist_lt_false; [reflexivity|exact Hfar].
Qed.

Lemma canPlaceTower_sound_witness :
  let g := Game_new (createMap 15 10) in
  let gs := tm_gridSize (towerManager g) in
  (0 <= 90 /\ 90 < inject_Z (mapWidth g) * gs) /\
  (0 <= 90 /\ 90 < inject_Z (mapHeight g) * gs) /\
  (forall row cell,
     map g !! Z.to_nat (Math.floor (90 / gs)) = Some row ->
     row !! Z.to_nat (Math.floor (90 / gs)) = Some cell ->
     canBuildTower cell = true) /\
  (forall tower, tower ∈ towers (towerManager g) -> 0 < gs ->
     gs * gs <= distance2 (vx (tposition tower)) (vy (tposition tower)) 90 90) /\
  (forall pathPoint, pathPoint ∈ gpath g ->
     35 * 35 <= distance2 (vx pathPoint) (vy pathPoint) 90 90).
Proof.
  apply (canPlaceTower_sound (Game_new (createMap 15 10)) 90 90).
  vm_compute. reflexivity.
Defined.

(** The tower manager measures the map in its own grid step (40), the game
    snaps clicks to cells of 60: with the sizes the constructors set, a
    click at [x >= 600] or [y >= 420] (the cells of columns 10 to 14 and of
    rows 7 to 9) never places a tower, though the map is 900 by 600 wide. *)
Theorem placeTower_stops_short_of_map (x y : Q) (g : Game) :
  gridSize g = 60 -> tm_gridSize (towerManager g) = 40 ->
  mapWidth g = 15%Z -> mapHeight g = 10%Z ->
  600 <= x \/ 420 <= y ->
  Game_placeTower x y g = g.
Proof.
  intros Hgs Htm Hw Hh Hout. unfold Game_placeTower.
  destruct (selectedTowerType g) as [type|]; [|reflexivity].
  destruct (String.eqb type ""); [reflexivity|].
  assert (Hcan : canPlaceTower g (snapToGrid g x) (snapToGrid g y) = false).
  { unfold canPlaceTower. cbv zeta. rewrite Htm, Hw, Hh.
    assert (Hsnap : forall c k, (k <= Qfloor (c / 60))%Z ->
              inject_Z k * 60 + 30 <= snapToGrid g c).
    { intros c k Hk. unfold snapToGrid, Math.floor. rewrite Hgs.
      assert (inject_Z k <= inject_Z (Qfloor (c / 60)))
        by (by rewrite <- Zle_Qle).
      assert (E : (60 / 2 : Q) == 30) by reflexivity.
      rewrite E. lra. }
    destruct Hout as [Hx|Hy].
    - assert (Hk : (10 <= Qfloor (x / 60))%Z).
      { change 10%Z with (Qfloor 10). apply Qfloor_resp_le.
        apply Qle_shift_div_l; [reflexivity|]. lra. }
      pose proof (Hsnap x 10%Z Hk) as Hs.
      assert (Hw' : Math.leb (inject_Z 15 * 40) (snapToGrid g x) = true).
      { apply MathFacts.leb_le.
        assert (E : inject_Z 15 * 40 == 600) by reflexivity.
        assert (E' : inject_Z 10 * 60 + 30 == 630) by reflexivity.
        lra. }
      rewrite Hw'. by destruct (Math.ltb (snapToGrid g x) 0).
    - assert (Hk : (7 <= Qfloor (y / 60))%Z).
      { change 7%Z with (Qfloor 7). apply Qfloor_resp_le.
        apply Qle_shift_div_l; [reflexivity|]. lra. }
      pose proof (Hsnap y 7%Z Hk) as Hs.
      assert (Hh' : Math.leb (inject_Z 10 * 40) (snapToGrid g y) = true).
      { apply MathFacts.leb_le.
        assert (E : inject_Z 10 * 40 == 400) by reflexivity.
        assert (E' : inject_Z 7 * 60 + 30 == 450) by reflexivity.
        lra. }
      rewrite Hh'. rewrite !orb_true_r. reflexivity. }
  rewrite Hcan. reflexivity.
Qed.

Lemma placeTower_stops_short_of_map_witness :
  Game_placeTower 700 100
    (Game_selectTowerType "archer" (Game_new (createMap 15 10)))
  = Game_selectTowerType "archer" (Game_new (createMap 15 10)).
Proof.
  apply (placeTower_stops_short_of_map 700 100
           (Game_selectTowerType "archer" (Game_new (createMap 15 10))));
    try reflexivity.
  left. discriminate.
Defined.

Lemma Game_placeTower_towers (x y : Q) (g : Game) :
  Game_placeTower x y g = g \/
  (canPlaceTower g (snapToGrid g x) (snapToGrid g y) = true /\
   exists tower : Tower,
     tposition tower = mkVector2 (snapToGrid g x) (snapToGrid g y) /\
     towerManager (Game_placeTower x y g)
     = mkTowerManager (towers (towerManager g) ++ [tower])
         (selectedTower (towerManager g)) (tm_gridSize (towerManager g))).
Proof.
  unfold Game_placeTower.
  destruct (selectedTowerType g) as [type|] eqn:Hsel; [|left; reflexivity].
  destruct (String.eqb type ""); [left; reflexivity|].
  destruct (canPlaceTower g (snapToGrid g x) (snapToGrid g y)) eqn:Hcan;
    [|left; reflexivity].
  cbn [negb].
  destruct (costOf type <=? gold g)%Z; [|left; reflexivity].
  unfold TowerManager_placeTower.
  destruct (String.eqb type "archer");
    [right; split; [reflexivity|]; eexists; (split; [|reflexivity]); reflexivity|].
  destruct (String.eqb type "cannon");
    [right; split; [reflexivity|]; eexists; (split; [|reflexivity]); reflexivity|].
  destruct (String.eqb type "magic");
    [right; split; [reflexivity|]; eexists; (split; [|reflexivity]); reflexivity|].
  left. reflexivity.
Qed.

Lemma upgradeSpecialAbilities_shape (t : Tower) :
  tposition (upgradeSpecialAbilities t) = tposition t /\
  level (upgradeSpecialAbilities t) = level t /\
  maxLevel (upgradeSpecialAbilities t) = maxLevel t /\
  upgradeCost (tstats (upgradeSpecialAbilities t)) = upgradeCost (tstats t) /\
  sellValue (tstats (upgradeSpecialAbilities t)) = sellValue (tstats t).
Proof.
  unfold upgradeSpecialAbilities, ArcherTower_upgradeSpecialAbilities,
    CannonTower_upgradeSpecialAbilities, MagicTower_upgradeSpecialAbilities.
  repeat match goal with |- context [if ?b then _ else _] =>
    destruct b end; repeat split.
Qed.

Lemma onUpgrade_shape (t : Tower) :
  tposition (onUpgrade t) = tposition t /\
  level (onUpgrade t) = level t /\
  maxLevel (onUpgrade t) = maxLevel t /\
  upgradeCost (tstats (onUpgrade t)) = upgradeCost (tstats t) /\
  sellValue (tstats (onUpgrade t)) = sellValue (tstats t).
Proof.
  unfold onUpgrade.
  repeat match goal with |- context [if ?b then _ else _] =>
    destruct b end; repeat split.
Qed.

Lemma upgrade_shape (t : Tower) :
  fst (upgrade t) = negb (maxLevel t <=? level t)%nat /\
  tposition (snd (upgrade t)) = tposition t /\
  maxLevel (snd (upgrade t)) = maxLevel t /\
  level (snd (upgrade t))
  = (if fst (upgrade t) then S (level t) else level t) /\
  (fst (upgrade t) = false -> snd (upgrade t) = t).
Proof.
  unfold upgrade. destruct (maxLevel t <=? level t)%nat; [by repeat split|].
  cbv zeta. cbn [fst snd negb].
  match goal with |- context [onUpgrade ?X] =>
    destruct (onUpgrade_shape X) as (-> & -> & -> & _) end.
  cbn [set_tstats tposition level maxLevel].
  match goal with |- context [upgradeSpecialAbilities ?Y] =>
    destruct (upgradeSpecialAbilities_shape Y) as (-> & -> & -> & _) end.
  cbn. by repeat split.
Qed.

(** ** Towers keep their distance *)

Lemma canPlaceTower_towers_far (g : Game) (x y : Q) (tower : Tower) :
  canPlaceTower g x y = true ->
  0 < tm_gridSize (towerManager g) ->
  tower ∈ towers (towerManager g) ->
  tm_gridSize (towerManager g) * tm_gridSize (towerManager g)
    <= distance2 (vx (tposition tower)) (vy (tposition tower)) x y.
Proof.
  unfold canPlaceTower. cbv zeta.
  destruct (_ || _); [discriminate|].
  destruct (match map g !! _ with Some _ => _ | None => _ end); [discriminate|].
  destruct (existsb _ (towers _)) eqn:Htowers; [discriminate|].
  intros _ Hgs Hin.
  pose proof (existsb_false_elem _ _ tower Htowers Hin) as Hfar.
  cbv beta in Hfar. by apply dist_lt_false.
Qed.

Lemma towersApart_insert (tm : TowerManager) (i : nat) (t t' : Tower)
  (selected : option nat) :
  towers tm !! i = Some t -> tposition t' = tposition t ->
  towersApart tm ->
  towersApart (mkTowerManager (<[i := t']> (towers tm)) selected
                 (tm_gridSize tm)).
Proof.
  intros Hi Hpos Hinv a b ta tb Hne Ha Hb. cbn [towers tm_gridSize] in *.
  assert (Hold : forall k tk, <[i := t']> (towers tm) !! k = Some tk ->
            exists tk0, towers tm !! k = Some tk0
                        /\ tposition tk = tposition tk0).
  { intros k tk Hk. apply list_lookup_insert_Some in Hk
      as [(<- & <- & _)|(_ & Hk)]; eauto. }
  destruct (Hold a ta Ha) as (ta0 & Ha0 & ->).
  destruct (Hold b tb Hb) as (tb0 & Hb0 & ->).
  exact (Hinv a b ta0 tb0 Hne Ha0 Hb0).
Qed.

Lemma towersApart_delete (tm : TowerManager) (i : nat)
  (selected : option nat) :
  towersApart tm ->
  towersApart (mkTowerManager (delete i (towers tm)) selected
                 (tm_gridSize tm)).
Proof.
  intros Hinv a b ta tb Hne Ha Hb. cbn [towers tm_gridSize] in *.
  rewrite list_lookup_delete in Ha, Hb.
  refine (Hinv _ _ ta tb _ Ha Hb).
  destruct (decide (a < i)%nat), (decide (b < i)%nat); lia.
Qed.

Lemma towersApart_app (tm : TowerManager) (tower : Tower)
  (selected : option nat) :
  towersApart tm ->
  (forall t, t ∈ towers tm ->
     tm_gridSize tm * tm_gridSize tm
       <= distanceTo2 (tposition t) (tposition tower)) ->
  towersApart (mkTowerManager (towers tm ++ [tower]) selected
                 (tm_gridSize tm)).
Proof.
  intros Hinv Hfar a b ta tb Hne Ha Hb. cbn [towers tm_gridSize] in *.
  apply lookup_app_Some in Ha as [Ha|[Hla Ha]];
    apply lookup_app_Some in Hb as [Hb|[Hlb Hb]].
  - exact (Hinv a b ta tb Hne Ha Hb).
  - apply list_lookup_singleton_Some in Hb as [_ <-].
    apply Hfar. by eapply list_elem_of_lookup_2.
  - apply list_lookup_singleton_Some in Ha as [_ <-].
    unfold distanceTo2. rewrite distance2_sym.
    apply (Hfar tb). by eapply list_elem_of_lookup_2.
  - apply list_lookup_singleton_Some in Ha as [Ha _].
    apply list_lookup_singleton_Some in Hb as [Hb _]. lia.
Qed.

Lemma playerAction_apart (a : PlayerAction) (g : Game) :
  0 < tm_gridSize (towerManager g) ->
  towersApart (towerManager g) ->
  tm_gridSize (towerManager (playerAction a g)) = tm_gridSize (towerManager g)
  /\ towersApart (towerManager (playerAction a g)).
Proof.
  intros Hgs Hinv. destruct a as [type|x y|x y| |]; cbn [playerAction].
  - unfold Game_selectTowerType. by destruct (_ <=? _)%Z.
  - destruct (Game_placeTower_towers x y g)
      as [->|(Hcan & tower & Hpos & ->)]; [by split|].
    split; [reflexivity|]. apply towersApart_app; [exact Hinv|].
    intros t Hin. unfold distanceTo2. rewrite Hpos. cbn [vx vy].
    by apply canPlaceTower_towers_far.
  - cbn. split; [reflexivity|]. exact Hinv.
  - unfold Game_upgradeTower. cbv zeta.
    destruct (selectedTower (towerManager g)) as [i|]; [|by split].
    destruct (towers (towerManager g) !! i) as [tower|] eqn:Hi; [|by split].
    destruct (_ && _); [|by split].
    destruct (upgrade_shape tower) as (_ & Hpos & _).
    destruct (upgrade tower) as [upgraded tower']. cbn [snd] in Hpos.
    assert (Hres : towersApart
              (mkTowerManager (<[i := tower']> (towers (towerManager g)))
                 (selectedTower (towerManager g))
                 (tm_gridSize (towerManager g))))
      by (by eapply towersApart_insert).
    by destruct upgraded.
  - unfold Game_sellTower, TowerManager_sellSelectedTower.
    destruct (selectedTower (towerManager g)) as [i|] eqn:Hsel.
    + destruct (towers (towerManager g) !! i) as [tower|].
      * unfold TowerManager_removeTower.
        assert (Hres : forall sel, towersApart
                  (mkTowerManager (delete i (towers (towerManager g))) sel
                     (tm_gridSize (towerManager g))))
          by (intros sel; by apply towersApart_delete).
        destruct (0 <? getSellValue tower)%Z; cbn; split; try reflexivity;
          apply Hres.
      * destruct (0 <? 0)%Z; cbn; by split.
    + destruct (0 <? 0)%Z; cbn; by split.
Qed.

Lemma playerActions_apart (actions : list PlayerAction) (g : Game) :
  0 < tm_gridSize (towerManager g) ->
  towersApart (towerManager g) ->
  tm_gridSize (towerManager (playerActions actions g))
  = tm_gridSize (towerManager g)
  /\ towersApart (towerManager (playerActions actions g)).
Proof.
  revert g. induction actions as [|a rest IH]; intros g Hgs Hinv; [by split|].
  cbn [playerActions fold_left].
  destruct (playerAction_apart a g Hgs Hinv) as [Hsame Hinv'].
  destruct (IH (playerAction a g)) as [Hsame' Hres];
    [by rewrite Hsame|exact Hinv'|].
  split; [|exact Hres]. unfold playerActions in Hsame'. by rewrite Hsame', Hsame.
Qed.

(** Towers never overlap: in a game that starts from the constructor and is
    played through any run of select, place, upgrade and sell actions, any
    two towers stand at least 40 units apart. *)
Theorem towers_never_overlap (actions : list PlayerAction)
  (m : list (list Cell)) :
  let tm := towerManager (playerActions actions (Game_new m)) in
  tm_gridSize tm = 40 /\ towersApart tm.
Proof.
  cbv zeta. apply (playerActions_apart actions (Game_new m)); [reflexivity|].
  intros i j ti tj _ Hi. cbn in Hi. by rewrite lookup_nil in Hi.
Qed.

Lemma findIndex_from_unique {A : Type} (f : A -> bool) (l : list A)
  (k i : nat) (x : A) :
  l !! i = Some x -> f x = true ->
  (forall j y, j <> i -> l !! j = Some y -> f y = false) ->
  findIndex_from f k l = Some (k + i)%nat.
Proof.
  revert k i. induction l as [|z rest IH]; intros k i Hi Hfx Huniq;
    [by rewrite lookup_nil in Hi|].
  cbn [findIndex_from]. destruct i as [|i].
  - cbn in Hi. injection Hi as ->. rewrite Hfx. by rewrite Nat.add_0_r.
  - rewrite (Huniq 0%nat z); [|lia|reflexivity].
    rewrite (IH (S k) i); [f_equal; lia|exact Hi|exact Hfx|].
    intros j y Hne Hj. apply (Huniq (S j) y); [lia|exact Hj].
Qed.

Lemma containsPoint_near (ti tj : Tower) (x y : Q) :
  containsPoint (Tower_boundingBox ti) x y = true ->
  containsPoint (Tower_boundingBox tj) x y = true ->
  distanceTo2 (tposition ti) (tposition tj) <= 1250.
Proof.
  unfold containsPoint, Tower_boundingBox, Entity_boundingBox.
  cbn [box_x box_y box_width box_height].
  intros Hi Hj.
  repeat match goal with
  | H : _ && _ = true |- _ => apply andb_true_iff in H as [? ?]
  end.
  repeat match goal with
  | H : Math.leb _ _ = true |- _ => apply MathFacts.leb_le in H
  end.
  unfold distanceTo2, distance2.
  set (a := vx (tposition ti)) in *. set (b := vy (tposition ti)) in *.
  set (c := vx (tposition tj)) in *. set (d := vy (tposition tj)) in *.
  assert (E : (25 / 2 : Q) == 12.5) by reflexivity.
  assert (Hdx : -25 <= c - a <= 25) by (split; lra).
  assert (Hdy : -25 <= d - b <= 25) by (split; lra).
  nra.
Qed.

(** A click inside a tower selects that tower: in a game played from the
    constructor through any run of actions, [selectTower] at a point that
    the box of the tower at index [i] holds makes [i] the selected tower
    (no other tower's box holds the point). *)
Theorem click_selects_the_tower (actions : list PlayerAction)
  (m : list (list Cell)) (x y : Q) (i : nat) (tower : Tower) :
  let g := playerActions actions (Game_new m) in
  towers (towerManager g) !! i = Some tower ->
  containsPoint (Tower_boundingBox tower) x y = true ->
  selectedTower (towerManager (Game_selectTower x y g)) = Some i.
Proof.
  cbv zeta. intros Hi Hin.
  destruct (playerActions_apart actions (Game_new m)) as [Hgs Hinv];
    [reflexivity| |].
  { intros a b ta tb _ Ha. cbn in Ha. by rewrite lookup_nil in Ha. }
  change (tm_gridSize (towerManager (Game_new m))) with (40 : Q) in Hgs.
  set (g := playerActions actions (Game_new m)) in *.
  cbn [Game_selectTower TowerManager_selectTower snd set_towerManager
       towerManager selectedTower].
  change (Some i) with (Some (0 + i)%nat).
  apply findIndex_from_unique with (x := tower); [exact Hi|exact Hin|].
  intros j tj Hne Hj. cbv beta.
  destruct (containsPoint (Tower_boundingBox tj) x y) eqn:Hjin; [|reflexivity].
  exfalso.
  pose proof (containsPoint_near tower tj x y Hin Hjin) as Hnear.
  pose proof (Hinv i j tower tj (not_eq_sym Hne) Hi Hj) as Hfar.
  rewrite Hgs in Hfar.
  assert (E : (40 * 40 : Q) == 1600) by reflexivity. lra.
Qed.

Lemma click_selects_the_tower_witness :
  let g := playerActions [DoSelectTowerType "archer"; DoPlaceTower 100 100;
                          DoSelectTowerType "archer"; DoPlaceTower 100 40]
             (Game_new (createMap 15 10)) in
  selectedTower (towerManager (Game_selectTower 85 35 g)) = Some 1%nat.
Proof.
  apply (click_selects_the_tower
           [DoSelectTowerType "archer"; DoPlaceTower 100 100;
            DoSelectTowerType "archer"; DoPlaceTower 100 40]
           (createMap 15 10) 85 35 1
           (ArcherTower (snapToGrid (Game_new (createMap 15 10)) 100)
              (snapToGrid (Game_new (createMap 15 10)) 40))).
  - vm_compute. reflexivity.
  - vm_compute. reflexivity.
Defined.

(** ** Gold in the tower shop *)

(** [Game.upgradeTower] is all or nothing: either the game stays exactly as
    it was, or the selected tower was below its top level, its level went up
    by one and the player paid the upgrade cost the tower showed before the
    upgrade, which the gold covered. *)
Theorem Game_upgradeTower_atomic (g : Game) :
  Game_upgradeTower g = g \/
  exists (i : nat) (tower : Tower),
    selectedTower (towerManager g) = Some i /\
    towers (towerManager g) !! i = Some tower /\
    (level tower < maxLevel tower)%nat /\
    (0 < upgradeCost (tstats tower) <= gold g)%Z /\
    gold (Game_upgradeTower g) = (gold g - upgradeCost (tstats tower))%Z /\
    towers (towerManager (Game_upgradeTower g))
    = <[i := snd (upgrade tower)]> (towers (towerManager g)) /\
    level (snd (upgrade tower)) = S (level tower).
Proof.
  unfold Game_upgradeTower. cbv zeta.
  destruct (selectedTower (towerManager g)) as [i|] eqn:Hsel; [|by left].
  destruct (towers (towerManager g) !! i) as [tower|] eqn:Hi; [|by left].
  destruct (_ && _) eqn:Hcond; [|by left].
  apply andb_true_iff in Hcond as [Hpos Hgold].
  apply Z.ltb_lt in Hpos. apply Z.leb_le in Hgold.
  unfold getUpgradeCost in *.
  destruct (upgrade_shape tower) as (Hfst & _ & _ & Hlevel & _).
  destruct (maxLevel tower <=? level tower)%nat eqn:Hmax; [lia|].
  apply Nat.leb_gt in Hmax. cbn [negb] in Hfst.
  destruct (upgrade tower) as [upgraded tower'] eqn:Hup. cbn [fst snd] in *.
  subst upgraded. right. exists i, tower. rewrite Hup. cbn.
  repeat split; try done; lia.
Qed.

(** Selling pays once: the selected tower leaves the field, its sell value
    is added to the gold, nothing is selected afterwards and a second
    [sellTower] changes nothing. *)
Theorem Game_sellTower_once (g : Game) (i : nat) (tower : Tower) :
  selectedTower (towerManager g) = Some i ->
  towers (towerManager g) !! i = Some tower ->
  (0 < sellValue (tstats tower))%Z ->
  let g1 := Game_sellTower g in
  gold g1 = (gold g + sellValue (tstats tower))%Z /\
  towers (towerManager g1) = delete i (towers (towerManager g)) /\
  selectedTower (towerManager g1) = None /\
  Game_sellTower g1 = g1.
Proof.
  intros Hsel Hi Hpos. cbv zeta.
  assert (Hg1 : Game_sellTower g
    = set_gold (gold g + sellValue (tstats tower))
        (set_towerManager
           (mkTowerManager (delete i (towers (towerManager g))) None
              (tm_gridSize (towerManager g))) g)).
  { unfold Game_sellTower, TowerManager_sellSelectedTower,
      TowerManager_removeTower, getSellValue.
    rewrite Hsel, Hi, Nat.eqb_refl.
    apply Z.ltb_lt in Hpos. rewrite Hpos. reflexivity. }
  rewrite Hg1. cbn. repeat split.
Qed.

Lemma Game_sellTower_once_witness :
  let g := Game_selectTower 90 90
             (playerActions [DoSelectTowerType "cannon"; DoPlaceTower 100 100]
                (Game_new (createMap 15 10))) in
  let g1 := Game_sellTower g in
  gold g1 = (gold g + 20)%Z /\
  towers (towerManager g1) = delete 0%nat (towers (towerManager g)) /\
  selectedTower (towerManager g1) = None /\
  Game_sellTower g1 = g1.
Proof.
  apply (Game_sellTower_once
           (Game_selectTower 90 90
              (playerActions [DoSelectTowerType "cannon"; DoPlaceTower 100 100]
                 (Game_new (createMap 15 10))))
           0%nat
           (CannonTower (snapToGrid (Game_new (createMap 15 10)) 100)
              (snapToGrid (Game_new (createMap 15 10)) 100))).
  - vm_compute. reflexivity.
  - vm_compute. reflexivity.
  - reflexivity.
Defined.

Lemma playerAction_gold (a : PlayerAction) (g : Game) :
  (0 <= gold g)%Z -> (0 <= gold (playerAction a g))%Z.
Proof.
  intros Hgold. destruct a as [type|x y|x y| |]; cbn [playerAction].
  - unfold Game_selectTowerType. by destruct (_ <=? _)%Z.
  - destruct (Game_placeTower_atomic x y g)
      as [->|(type & tower & _ & Hcost & _ & _ & -> & _)]; lia.
  - exact Hgold.
  - unfold Game_upgradeTower. cbv zeta.
    destruct (selectedTower (towerManager g)) as [i|]; [|exact Hgold].
    destruct (towers (towerManager g) !! i) as [tower|]; [|exact Hgold].
    destruct (_ && _) eqn:Hcond; [|exact Hgold].
    apply andb_true_iff in Hcond as [_ Hcost]. apply Z.leb_le in Hcost.
    destruct (upgrade tower) as [[|] tower']; cbn; lia.
  - unfold Game_sellTower.
    destruct (TowerManager_sellSelectedTower (towerManager g)) as [v tm].
    destruct (0 <? v)%Z eqn:Hv; [|exact Hgold].
    apply Z.ltb_lt in Hv. cbn. lia.
Qed.

(** The player never goes into debt: whatever is selected, placed, upgraded
    or sold, in any order, gold that was not negative stays so. *)
Theorem player_never_in_debt (actions : list PlayerAction) (g : Game) :
  (0 <= gold g)%Z -> (0 <= gold (playerActions actions g))%Z.
Proof.
  revert g. induction actions as [|a rest IH]; intros g Hgold; [exact Hgold|].
  cbn [playerActions fold_left]. apply IH. by apply playerAction_gold.
Qed.

Lemma player_never_in_debt_witness :
  (0 <= gold (playerActions
                [DoSelectTowerType "cannon"; DoPlaceTower 100 100;
                 DoSelectTower 90 90; DoUpgradeTower; DoUpgradeTower;
                 DoSellTower; DoSelectTowerType "magic"; DoPlaceTower 100 100]
                (Game_new (createMap 15 10))))%Z.
Proof.
  apply (player_never_in_debt
           [DoSelectTowerType "cannon"; DoPlaceTower 100 100;
            DoSelectTower 90 90; DoUpgradeTower; DoUpgradeTower;
            DoSellTower; DoSelectTowerType "magic"; DoPlaceTower 100 100]
           (Game_new (createMap 15 10))).
  discriminate.
Defined.

(** ** Target choice of a tower *)

Section TargetScan.

Variable t : Tower.

Lemma findTarget_body_cases (acc : option (nat * Q)) (i : nat) (e : Enemy) :
  let d := Tower_distanceTo2 t e in
  (findTarget_body t acc i e = acc /\
   (targetCandidate t e -> exists j c, acc = Some (j, c) /\ c <= d)) \/
  (findTarget_body t acc i e = Some (i, d) /\
   targetCandidate t e /\
   forall j c, acc = Some (j, c) -> d < c).
Proof.
  intros d. unfold findTarget_body, targetCandidate.
  destruct (isAlive e) eqn:Halive; cbn [negb];
    [|left; split; [reflexivity|intros [H _]; discriminate]].
  cbv zeta. fold d.
  destruct (dist_le d (range (tstats t))) eqn:Hrange; cbn [andb];
    [|left; split; [reflexivity|intros (_ & H); discriminate]].
  destruct acc as [[j c]|]; cbn [closer fmap option_fmap option_map snd].
  - destruct (Math.ltb d c) eqn:Hlt.
    + right. split; [reflexivity|]. split; [by split|].
      intros j' c' [= <- <-]. by apply MathFacts.ltb_lt.
    + left. split; [reflexivity|]. intros _. exists j, c.
      split; [reflexivity|]. by apply MathFacts.ltb_ge.
  - right. split; [reflexivity|]. split; [by split|].
    intros j c Hc. discriminate.
Qed.

Lemma for_of_from_target (es : list Enemy) (k : nat) (acc : option (nat * Q)) :
  let res := for_of_from (findTarget_body t) k es acc in
  (res = acc \/
   exists i e, es !! i = Some e /\ targetCandidate t e /\
     res = Some ((k + i)%nat, Tower_distanceTo2 t e)) /\
  (forall j c, acc = Some (j, c) ->
     exists j' c', res = Some (j', c') /\ c' <= c) /\
  (forall i e, es !! i = Some e -> targetCandidate t e ->
     exists j' c', res = Some (j', c') /\ c' <= Tower_distanceTo2 t e).
Proof.
  revert k acc. induction es as [|e rest IH]; intros k acc; cbn zeta.
  - cbn. split; [left; reflexivity|]. split.
    + intros j c ->. exists j, c. split; [reflexivity|lra].
    + intros i e' Hi. rewrite lookup_nil in Hi. discriminate.
  - cbn [for_of_from].
    specialize (IH (S k) (findTarget_body t acc k e)).
    cbn zeta in IH. destruct IH as (IH1 & IH2 & IH3).
    pose proof (findTarget_body_cases acc k e) as Hbody.
    cbn zeta in Hbody.
    set (d := Tower_distanceTo2 t e) in *.
    set (acc' := findTarget_body t acc k e) in *.
    set (res := for_of_from _ (S k) rest acc') in *.
    split; [|split].
    + destruct IH1 as [Hres|(i & e' & Hi & Hc & Hres)].
      * destruct Hbody as [[Hacc _]|(Hacc & Hc & _)].
        -- left. congruence.
        -- right. exists 0%nat, e. rewrite Nat.add_0_r.
           split; [reflexivity|]. split; [exact Hc|].
           rewrite Hres. exact Hacc.
      * right. exists (S i), e'. rewrite Nat.add_succ_r.
        split; [exact Hi|]. split; assumption.
    + intros j c Hacc.
      destruct Hbody as [[Hacc' _]|(Hacc' & _ & Hlt)].
      * apply (IH2 j c). congruence.
      * destruct (IH2 k d Hacc') as (j' & c' & Hres & Hle).
        exists j', c'. split; [exact Hres|]. specialize (Hlt j c Hacc). lra.
    + intros i e' Hi Hc. destruct i as [|i].
      * cbn in Hi. injection Hi as <-.
        destruct Hbody as [[Hacc' Hsome]|(Hacc' & _ & _)].
        -- destruct (Hsome Hc) as (j & c & Hacc & Hle).
           destruct (IH2 j c) as (j' & c' & Hres & Hle'); [congruence|].
           exists j', c'. split; [exact Hres|]. fold d. lra.
        -- destruct (IH2 k d Hacc') as (j' & c' & Hres & Hle).
           exists j', c'. split; [exact Hres|exact Hle].
      * cbn in Hi. exact (IH3 i e' Hi Hc).
Qed.

End TargetScan.

Lemma findTarget_scan (enemies : list Enemy) (t : Tower) :
  match fst <$> for_of (findTarget_body t) enemies None with
  | Some i =>
      exists e, enemies !! i = Some e /\ targetCandidate t e /\
        forall j ej, enemies !! j = Some ej -> targetCandidate t ej ->
          Tower_distanceTo2 t e <= Tower_distanceTo2 t ej
  | None =>
      forall j ej, enemies !! j = Some ej -> ~ targetCandidate t ej
  end.
Proof.
  unfold for_of.
  pose proof (for_of_from_target t enemies 0 None) as Hscan.
  cbn zeta in Hscan. destruct Hscan as (H1 & _ & H3).
  destruct (for_of_from _ 0 enemies None) as [[j c]|] eqn:Hres; cbn.
  - destruct H1 as [H1|(i & en & Hi & Hc & Heq)]; [discriminate|].
    cbn in Heq. injection Heq as -> ->.
    exists en. split; [exact Hi|]. split; [exact Hc|].
    intros i' ei Hi' Hc'.
    destruct (H3 i' ei Hi' Hc') as (j' & c' & Heq & Hle).
    injection Heq as <- <-. exact Hle.
  - intros j ej Hj Hc. destruct (H3 j ej Hj Hc) as (j' & c' & Heq & _).
    discriminate.
Qed.

(** How a tower picks its target.  A target that is alive and within twice
    the range is kept, whatever else is near.  Otherwise the tower takes a
    live enemy within its range that is nearest to it, and no target when
    no live enemy is within the range; the choice is stored in [target]. *)
Theorem findTarget_spec (enemies : list Enemy) (t : Tower) :
  if targetWithin 2.0 t enemies then findTarget enemies t = (target t, t)
  else
    target (snd (findTarget enemies t)) = fst (findTarget enemies t) /\
    match fst (findTarget enemies t) with
    | Some i =>
        exists e, enemies !! i = Some e /\ targetCandidate t e /\
          forall j ej, enemies !! j = Some ej -> targetCandidate t ej ->
            Tower_distanceTo2 t e <= Tower_distanceTo2 t ej
    | None =>
        forall j ej, enemies !! j = Some ej -> ~ targetCandidate t ej
    end.
Proof.
  unfold findTarget. destruct (targetWithin 2.0 t enemies); [reflexivity|].
  cbv zeta. cbn [fst snd]. split; [reflexivity|].
  apply findTarget_scan.
Qed.

(** ** Projectiles in flight *)

Lemma takeDamage_isAlive (amount now : Q) (damageType : string) (e : Enemy) :
  isAlive (snd (takeDamage amount damageType now e)) = isAlive e.
Proof. unfold takeDamage. by destruct (_ || _). Qed.

Lemma takeDamage_absorbed (amount amount' now now' : Q)
  (damageType damageType' : string) (e : Enemy) :
  takeDamage amount' damageType' now'
    (snd (takeDamage amount damageType now e))
  = (false, snd (takeDamage amount damageType now e)).
Proof.
  set (e1 := snd (takeDamage amount damageType now e)).
  assert (Hblocked : invulnerable e1 || isDead e1 = true).
  { unfold e1, takeDamage.
    destruct (invulnerable e || isDead e) eqn:H; [exact H|reflexivity]. }
  unfold takeDamage. by rewrite Hblocked.
Qed.

Lemma ArrowProjectile_onHit_enemies (now : Q) (enemies : list Enemy)
  (f : Flight) :
  fst (ArrowProjectile_onHit now enemies f) = enemies \/
  exists (i : nat) (enemy : Enemy),
    targetEntity (shot f) = Some i /\ enemies !! i = Some enemy /\
    isAlive enemy = true /\
    fst (ArrowProjectile_onHit now enemies f)
    = <[i := snd (takeDamage (pdamage (shot f)) "physical" now enemy)]>
        enemies.
Proof.
  unfold ArrowProjectile_onHit. cbn [fst].
  destruct (targetEntity (shot f)) as [i|]; [|by left].
  destruct (enemies !! i) as [enemy|] eqn:Hi; [|by left].
  destruct (isAlive enemy) eqn:Halive; [|by left].
  right. by exists i, enemy.
Qed.

Lemma ArrowProjectile_onHit_twice (now1 now2 : Q) (enemies : list Enemy)
  (f f' : Flight) :
  shot f' = shot f ->
  fst (ArrowProjectile_onHit now2 (fst (ArrowProjectile_onHit now1 enemies f))
         f')
  = fst (ArrowProjectile_onHit now1 enemies f).
Proof.
  intros Hshot. unfold ArrowProjectile_onHit. cbn [fst]. rewrite Hshot.
  destruct (targetEntity (shot f)) as [i|]; [|reflexivity].
  destruct (enemies !! i) as [enemy|] eqn:Hi; [|by rewrite Hi].
  destruct (isAlive enemy) eqn:Halive; [|by rewrite Hi, Halive].
  rewrite list_lookup_insert_eq by (by eapply lookup_lt_Some).
  rewrite takeDamage_isAlive, Halive, takeDamage_absorbed. cbn [snd].
  by rewrite list_insert_insert_eq.
Qed.

(** An arrow damages nobody but its target, and its target at most once per
    update, though the update can run the hit handler twice (once for
    reaching the aim point, once for touching the target): the second hit
    falls into the invulnerability the first one opened. *)
Theorem arrow_damages_target_once (now1 now2 dt : Q) (enemies : list Enemy)
  (f : Flight) :
  fclass f = ArrowProjectile ->
  let enemies' := fst (ArrowProjectile_update now1 now2 dt enemies f) in
  enemies' = enemies \/
  exists (i : nat) (enemy : Enemy) (now : Q),
    targetEntity (shot f) = Some i /\ enemies !! i = Some enemy /\
    isAlive enemy = true /\ (now = now1 \/ now = now2) /\
    enemies'
    = <[i := snd (takeDamage (pdamage (shot f)) "physical" now enemy)]>
        enemies.
Proof.
  intros Hclass. cbv zeta. unfold ArrowProjectile_update, Projectile_update.
  cbv zeta.
  set (f0 := Flight_move dt f).
  assert (Hshot0 : shot f0 = shot f /\ fclass f0 = ArrowProjectile).
  { unfold f0, Flight_move. by destruct (negb (f_isAlive f)). }
  destruct Hshot0 as [Hshot0 Hclass0].
  assert (Hdestroy : forall c x, shot (if c : bool then Flight_destroy x else x)
                                 = shot x)
    by (intros [|] x; reflexivity).
  destruct (dist_lt _ 10 || hasHit f0).
  - unfold Flight_onHit. rewrite Hclass0.
    destruct (ArrowProjectile_onHit now1 enemies f0) as [en1 f1] eqn:Hhit1.
    assert (Hen1 : en1 = fst (ArrowProjectile_onHit now1 enemies f0))
      by (by rewrite Hhit1).
    assert (Hshot1 : shot f1 = shot f).
    { assert (f1 = snd (ArrowProjectile_onHit now1 enemies f0))
        by (by rewrite Hhit1).
      subst f1. cbn. exact Hshot0. }
    match goal with |- context [if ?c then Flight_destroy f1 else f1] =>
      set (f2 := if c then Flight_destroy f1 else f1) end.
    assert (Hshot2 : shot f2 = shot f0)
      by (unfold f2; rewrite Hdestroy; congruence).
    assert (Hres : fst (match
                match targetEntity (shot f2) with
                | Some i =>
                    match en1 !! i with
                    | Some enemy => if isAlive enemy then Some enemy else None
                    | None => None
                    end
                | None => None
                end
              with
              | Some enemy =>
                  if dist_lt (distanceTo2 (fposition f2) (position enemy)) 10
                  then ArrowProjectile_onHit now2 en1 f2
                  else (en1, f2)
              | None => ArrowProjectile_onHit now2 en1 f2
              end) = en1).
    { assert (Htwice : fst (ArrowProjectile_onHit now2 en1 f2) = en1).
      { rewrite Hen1 at 1. rewrite ArrowProjectile_onHit_twice by exact Hshot2.
        by rewrite Hen1. }
      destruct (match targetEntity (shot f2) with Some _ => _ | None => _ end);
        [destruct (dist_lt _ 10)|]; try exact Htwice; reflexivity. }
    rewrite Hres, Hen1.
    destruct (ArrowProjectile_onHit_enemies now1 enemies f0)
      as [->|(i & enemy & Ht & Hi & Ha & ->)]; [by left|].
    right. exists i, enemy, now1. rewrite <- Hshot0. by repeat split; auto.
  - match goal with |- context [if ?c then Flight_destroy f0 else f0] =>
      set (f2 := if c then Flight_destroy f0 else f0) end.
    assert (Hshot2 : shot f2 = shot f)
      by (unfold f2; rewrite Hdestroy; congruence).
    assert (Hsecond : fst (ArrowProjectile_onHit now2 enemies f2) = enemies \/
      exists (i : nat) (enemy : Enemy) (now : Q),
        targetEntity (shot f) = Some i /\ enemies !! i = Some enemy /\
        isAlive enemy = true /\ (now = now1 \/ now = now2) /\
        fst (ArrowProjectile_onHit now2 enemies f2)
        = <[i := snd (takeDamage (pdamage (shot f)) "physical" now enemy)]>
            enemies).
    { destruct (ArrowProjectile_onHit_enemies now2 enemies f2)
        as [->|(i & enemy & Ht & Hi & Ha & ->)]; [by left|].
      right. exists i, enemy, now2. rewrite <- Hshot2. by repeat split; auto. }
    destruct (match targetEntity (shot f2) with Some _ => _ | None => _ end);
      [destruct (dist_lt _ 10)|]; try exact Hsecond; by left.
Qed.

Lemma arrow_damages_target_once_witness :
  let f := mkFlight ArrowProjectile
             (mkProjectile (mkVector2 0 0) (mkVector2 50 0) 400 12 (Some 0%nat)
                0 None)
             (mkVector2 44 0) (mkVector2 0.4 0) false true true in
  let enemies := [Scout 50 0; Knight 80 0] in
  let enemies' := fst (ArrowProjectile_update 1000 1000 16 enemies f) in
  enemies' = enemies \/
  exists (i : nat) (enemy : Enemy) (now : Q),
    targetEntity (shot f) = Some i /\ enemies !! i = Some enemy /\
    isAlive enemy = true /\ (now = 1000 \/ now = 1000) /\
    enemies'
    = <[i := snd (takeDamage (pdamage (shot f)) "physical" now enemy)]>
        enemies.
Proof.
  apply (arrow_damages_target_once 1000 1000 16 [Scout 50 0; Knight 80 0]
           (mkFlight ArrowProjectile
              (mkProjectile (mkVector2 0 0) (mkVector2 50 0) 400 12
                 (Some 0%nat) 0 None)
              (mkVector2 44 0) (mkVector2 0.4 0) false true true)).
  reflexivity.
Defined.

(** A cannonball that comes within 10 units of its aim point explodes there:
    every live enemy within the explosion radius of the cannonball takes
    its damage through [takeDamage] (so a vulnerable one loses exactly the
    damage, down to 0, and an invulnerable or dead one nothing), every other
    enemy is left as it was, and the cannonball is gone. *)
Theorem cannonball_splash (now dt : Q) (enemies : list Enemy) (f : Flight) :
  fclass f = CannonballProjectile ->
  dist_lt (distanceTo2 (fposition (Flight_move dt f)) (ptarget (shot f))) 10
  = true ->
  let f0 := Flight_move dt f in
  let r := Projectile_update now dt enemies f in
  f_isAlive (snd r) = false /\ hasHit (snd r) = true /\
  length (fst r) = length enemies /\
  forall (j : nat) (e : Enemy),
    enemies !! j = Some e ->
    exists e', fst r !! j = Some e' /\
      (inExplosion f0 e = false -> e' = e) /\
      (inExplosion f0 e = true -> invulnerable e || isDead e = true ->
       e' = e) /\
      (inExplosion f0 e = true -> invulnerable e || isDead e = false ->
       health e' = Math.max 0 (health e - pdamage (shot f)) /\
       invulnerable e' = true).
Proof.
  intros Hclass Hnear. cbv zeta. unfold Projectile_update. cbv zeta.
  set (f0 := Flight_move dt f) in *.
  assert (Hshot0 : shot f0 = shot f /\ fclass f0 = CannonballProjectile).
  { unfold f0, Flight_move. by destruct (negb (f_isAlive f)). }
  destruct Hshot0 as [Hshot0 Hclass0].
  rewrite Hshot0, Hnear. cbn [orb]. unfold Flight_onHit. rewrite Hclass0.
  unfold CannonballProjectile_onHit. cbn [fst snd].
  split; [by destruct (_ || _)|]. split; [by destruct (_ || _)|].
  split; [by rewrite length_fmap|].
  intros j e Hj. rewrite list_lookup_fmap, Hj. cbn [fmap option_fmap option_map].
  eexists. split; [reflexivity|]. rewrite Hshot0.
  destruct (inExplosion f0 e); (split; [|split]); try discriminate;
    try reflexivity.
  - intros _ Hblocked. unfold takeDamage. by rewrite Hblocked.
  - intros _ Hopen. unfold takeDamage. rewrite Hopen. by cbn.
Qed.

Lemma cannonball_splash_witness :
  let f := mkFlight CannonballProjectile
             (mkProjectile (mkVector2 0 0) (mkVector2 50 0) 250 25 None 0
                (Some 80))
             (mkVector2 44 0) (mkVector2 0.25 0) false true true in
  let enemies := [Scout 50 0; Knight 100 0; Dragon 300 0] in
  let f0 := Flight_move 16 f in
  let r := Projectile_update 1000 16 enemies f in
  f_isAlive (snd r) = false /\ hasHit (snd r) = true /\
  length (fst r) = length enemies /\
  forall (j : nat) (e : Enemy),
    enemies !! j = Some e ->
    exists e', fst r !! j = Some e' /\
      (inExplosion f0 e = false -> e' = e) /\
      (inExplosion f0 e = true -> invulnerable e || isDead e = true ->
       e' = e) /\
      (inExplosion f0 e = true -> invulnerable e || isDead e = false ->
       health e' = Math.max 0 (health e - pdamage (shot f)) /\
       invulnerable e' = true).
Proof.
  apply (cannonball_splash 1000 16 [Scout 50 0; Knight 100 0; Dragon 300 0]
           (mkFlight CannonballProjectile
              (mkProjectile (mkVector2 0 0) (mkVector2 50 0) 250 25 None 0
                 (Some 80))
              (mkVector2 44 0) (mkVector2 0.25 0) false true true)).
  - reflexivity.
  - vm_compute. reflexivity.
Defined.

Lemma Projectile_update_alive (now dt : Q) (enemies : list Enemy)
  (f : Flight) :
  hasHit f = false ->
  f_isAlive (snd (Projectile_update now dt enemies f)) = true ->
  hasHit (snd (Projectile_update now dt enemies f)) = false /\
  fst (Projectile_update now dt enemies f) = enemies.
Proof.
  intros Hfresh. unfold Projectile_update. cbv zeta.
  set (f0 := Flight_move dt f).
  assert (H0 : hasHit f0 = false).
  { unfold f0, Flight_move. by destruct (negb (f_isAlive f)). }
  rewrite H0, orb_false_r.
  destruct (dist_lt _ 10).
  - unfold Flight_onHit, ArrowProjectile_onHit, CannonballProjectile_onHit.
    destruct (fclass f0); cbn [fst snd];
      match goal with |- context [if ?c then _ else _] => destruct c end;
      cbn; discriminate.
  - cbn [fst snd].
    match goal with |- context [if ?c then _ else _] => destruct c end;
      cbn; [discriminate|]. by intros _.
Qed.

Lemma Flight_update_alive (now1 now2 dt : Q) (enemies : list Enemy)
  (f : Flight) :
  hasHit f = false ->
  f_isAlive (snd (Flight_update now1 now2 dt enemies f)) = true ->
  hasHit (snd (Flight_update now1 now2 dt enemies f)) = false /\
  fst (Flight_update now1 now2 dt enemies f) = enemies.
Proof.
  intros Hfresh. unfold Flight_update.
  destruct (fclass f); [|by apply Projectile_update_alive].
  unfold ArrowProjectile_update.
  pose proof (Projectile_update_alive now1 dt enemies f Hfresh) as Hbase.
  destruct (Projectile_update now1 dt enemies f) as [en1 f1].
  cbn [fst snd] in Hbase.
  destruct (match targetEntity (shot f1) with Some _ => _ | None => _ end);
    [destruct (dist_lt _ 10)|]; cbn [fst snd];
    try (unfold ArrowProjectile_onHit; cbn; discriminate).
  exact Hbase.
Qed.

(** The projectile list of a tower holds only projectiles in flight: after
    the projectile loop every projectile that is kept is alive and has not
    hit, so none is updated again after its hit and none hits twice; and a
    projectile that is kept has damaged nobody. *)
Theorem updateProjectiles_keeps_live (now1 now2 dt : Q)
  (flights : list Flight) (enemies : list Enemy) :
  Forall (fun f => hasHit f = false) flights ->
  let kept := fst (updateProjectiles now1 now2 dt flights enemies) in
  Forall (fun f => f_isAlive f = true /\ hasHit f = false) kept /\
  (length kept <= length flights)%nat /\
  (length kept = length flights ->
   snd (updateProjectiles now1 now2 dt flights enemies) = enemies).
Proof.
  cbv zeta. induction 1 as [|f rest Hf Hrest IH].
  - cbn. by repeat split.
  - cbn [updateProjectiles fold_right].
    fold (updateProjectiles now1 now2 dt rest enemies).
    destruct (updateProjectiles now1 now2 dt rest enemies) as [kept en1].
    cbn [fst snd] in IH. destruct IH as (IHlive & IHlen & IHsame).
    pose proof (Flight_update_alive now1 now2 dt en1 f Hf) as Hstep.
    destruct (Flight_update now1 now2 dt en1 f) as [en2 f'].
    cbn [fst snd] in *.
    destruct (f_isAlive f') eqn:Halive; cbn [fst snd length].
    + destruct (Hstep eq_refl) as [Hfresh ->].
      split; [by constructor|]. split; [lia|].
      intros Hlen. apply IHsame. lia.
    + split; [exact IHlive|]. split; [lia|]. intros Hlen. lia.
Qed.

Lemma updateProjectiles_keeps_live_witness :
  let flights :=
    [mkFlight ArrowProjectile
       (mkProjectile (mkVector2 0 0) (mkVector2 50 0) 400 12 (Some 0%nat)
          0 None)
       (mkVector2 44 0) (mkVector2 0.4 0) false true true;
     mkFlight CannonballProjectile
       (mkProjectile (mkVector2 0 0) (mkVector2 500 0) 250 25 None 0
          (Some 80))
       (mkVector2 44 0) (mkVector2 0.25 0) false true true] in
  let enemies := [Scout 50 0; Knight 100 0] in
  let kept := fst (updateProjectiles 1000 1001 16 flights enemies) in
  Forall (fun f => f_isAlive f = true /\ hasHit f = false) kept /\
  (length kept <= length flights)%nat /\
  (length kept = length flights ->
   snd (updateProjectiles 1000 1001 16 flights enemies) = enemies).
Proof.
  apply (updateProjectiles_keeps_live 1000 1001 16
    [mkFlight ArrowProjectile
       (mkProjectile (mkVector2 0 0) (mkVector2 50 0) 400 12 (Some 0%nat)
          0 None)
       (mkVector2 44 0) (mkVector2 0.4 0) false true true;
     mkFlight CannonballProjectile
       (mkProjectile (mkVector2 0 0) (mkVector2 500 0) 250 25 None 0
          (Some 80))
       (mkVector2 44 0) (mkVector2 0.25 0) false true true]
    [Scout 50 0; Knight 100 0]).
  repeat constructor.
Defined.

(** ** The projectile cap *)

Lemma pushProjectile_cap (p : Projectile) (t : Tower) :
  (0 < maxProjectiles t)%nat ->
  (length (projectiles t) <= maxProjectiles t)%nat ->
  (length (projectiles (pushProjectile p t)) <= maxProjectiles t)%nat /\
  maxProjectiles (pushProjectile p t) = maxProjectiles t /\
  last (projectiles (pushProjectile p t)) = Some p.
Proof.
  intros Hpos Hcap. unfold pushProjectile. cbv zeta.
  destruct (maxProjectiles t <=? length (projectiles t))%nat eqn:Hfull;
    cbn; rewrite length_app, last_snoc; cbn.
  - apply Nat.leb_le in Hfull.
    destruct (projectiles t) as [|q rest]; cbn in *; repeat split; lia.
  - apply Nat.leb_gt in Hfull. repeat split; lia.
Qed.

Lemma attack_cap (enemies : list Enemy) (t : Tower) :
  (0 < maxProjectiles t)%nat ->
  (length (projectiles t) <= maxProjectiles t)%nat ->
  (length (projectiles (attack enemies t)) <= maxProjectiles t)%nat /\
  maxProjectiles (attack enemies t) = maxProjectiles t.
Proof.
  intros Hpos Hcap. unfold attack.
  destruct (target t) as [i|]; [|by split].
  destruct (enemies !! i) as [enemy|]; [|by split].
  destruct (String.eqb (towerType t) "archer").
  { by destruct (pushProjectile_cap
                   (mkProjectile (tposition t) (position enemy) 400
                      (tdamage (tstats t)) (Some i) (piercingShots t) None)
                   t Hpos Hcap) as (? & ? & _). }
  destruct (String.eqb (towerType t) "cannon"); [|by split].
  by destruct (pushProjectile_cap
                 (mkProjectile (tposition t) (position enemy) 250
                    (tdamage (tstats t)) None 0
                    (stats_explosionRadius (tstats t)))
                 t Hpos Hcap) as (? & ? & _).
Qed.

(** A tower never has more projectiles in the air than its cap: an update
    that attacks on a full list drops the oldest projectile first. *)
Theorem Tower_update_projectile_cap (now : Q) (enemies : list Enemy)
  (t : Tower) :
  (0 < maxProjectiles t)%nat ->
  (length (projectiles t) <= maxProjectiles t)%nat ->
  let t' := snd (Tower_update now enemies t) in
  (length (projectiles t') <= maxProjectiles t')%nat /\
  maxProjectiles t' = maxProjectiles t.
Proof.
  intros Hpos Hcap. cbv zeta. unfold Tower_update.
  destruct (negb (canAttack t)); [by split|]. cbv zeta.
  set (t1 := match target t with Some _ => _ | None => t end).
  assert (H1 : projectiles t1 = projectiles t
               /\ maxProjectiles t1 = maxProjectiles t).
  { unfold t1. destruct (target t); [|by split].
    by destruct (targetWithin 2.0 t enemies). }
  set (t2 := snd (findTarget enemies t1)).
  assert (H2 : projectiles t2 = projectiles t
               /\ maxProjectiles t2 = maxProjectiles t).
  { unfold t2, findTarget. by destruct (targetWithin 2.0 t1 enemies). }
  destruct H2 as [Hp2 Hm2].
  destruct (canAttackTarget t2 enemies); [|cbn; rewrite Hp2, Hm2; by split].
  destruct (Math.leb _ _); [|cbn; rewrite Hp2, Hm2; by split].
  cbn [snd].
  destruct (attack_cap enemies t2) as [Hlen Hmax];
    [by rewrite Hm2|by rewrite Hp2, Hm2|].
  cbn. rewrite Hmax, Hm2 in *. by split.
Qed.

Lemma Tower_update_projectile_cap_witness :
  let t := set_projectiles
             (replicate 8
                (mkProjectile (mkVector2 0 0) (mkVector2 50 0) 400 12
                   (Some 0%nat) 0 None))
             (ArcherTower 0 0) in
  let t' := snd (Tower_update 1000 [Scout 50 0] t) in
  (length (projectiles t') <= maxProjectiles t')%nat /\
  maxProjectiles t' = maxProjectiles t.
Proof.
  apply (Tower_update_projectile_cap 1000 [Scout 50 0]
           (set_projectiles
              (replicate 8
                 (mkProjectile (mkVector2 0 0) (mkVector2 50 0) 400 12
                    (Some 0%nat) 0 None))
              (ArcherTower 0 0))).
  - cbn. lia.
  - cbn. lia.
Defined.

(** ** The slow field of the magic tower *)

Lemma slowField_from (now : Q) (t : Tower) (es : list Enemy) (k : nat)
  (idx : list nat) (acc : list Enemy) :
  let r := for_of_from (slowField_body now t) k es (idx, acc) in
  length (snd r) = length acc /\
  (forall j, j ∈ fst r <->
     j ∈ idx \/ exists i e, j = (k + i)%nat /\ es !! i = Some e
                            /\ inSlowField t e = true) /\
  (forall j, (j < k)%nat -> snd r !! j = acc !! j) /\
  (forall i e, es !! i = Some e -> (k + i < length acc)%nat ->
     snd r !! (k + i)%nat
     = if inSlowField t e
       then Some (applyStatusEffect "slow" 10000 (slowAmount t) now e)
       else acc !! (k + i)%nat).
Proof.
  revert k idx acc. induction es as [|e rest IH]; intros k idx acc; cbv zeta.
  - cbn. split; [reflexivity|]. split; [|split].
    + intros j. split; [by left|]. intros [H|(i & e & _ & Hi & _)]; [exact H|].
      by rewrite lookup_nil in Hi.
    + reflexivity.
    + intros i e Hi. by rewrite lookup_nil in Hi.
  - cbn [for_of_from].
    set (acc1 := slowField_body now t (idx, acc) k e).
    assert (Hacc1 : acc1 = if inSlowField t e
              then (idx ++ [k],
                    <[k := applyStatusEffect "slow" 10000 (slowAmount t) now e]>
                      acc)
              else (idx, acc)).
    { unfold acc1, slowField_body, inSlowField. cbn [fst snd].
      destruct (isAlive e); [|reflexivity]. cbn [negb andb].
      by destruct (dist_le _ _). }
    destruct acc1 as [idx1 es1].
    specialize (IH (S k) idx1 es1). cbv zeta in IH.
    destruct IH as (IHlen & IHidx & IHlow & IHhigh).
    assert (Hlen1 : length es1 = length acc).
    { destruct (inSlowField t e); injection Hacc1 as -> ->;
        [apply length_insert|reflexivity]. }
    assert (Hes1 : forall j, j <> k -> es1 !! j = acc !! j).
    { intros j Hne. destruct (inSlowField t e); injection Hacc1 as -> ->;
        [by apply list_lookup_insert_ne|reflexivity]. }
    split; [congruence|]. split; [|split].
    + intros j. rewrite IHidx. split.
      * intros [Hj|(i & e' & -> & Hi & Hf)].
        -- destruct (inSlowField t e) eqn:Hfield; injection Hacc1 as -> ->.
           ++ apply elem_of_app in Hj as [Hj|Hj]; [by left|].
              apply list_elem_of_singleton in Hj as ->. right.
              exists 0%nat, e. rewrite Nat.add_0_r. by repeat split.
           ++ by left.
        -- right. exists (S i), e'. split; [lia|]. by split.
      * intros [Hj|(i & e' & -> & Hi & Hf)].
        -- left. destruct (inSlowField t e); injection Hacc1 as -> ->;
             [apply elem_of_app; by left|exact Hj].
        -- destruct i as [|i].
           ++ cbn in Hi. injection Hi as ->. left. rewrite Hf in Hacc1.
              injection Hacc1 as -> ->. apply elem_of_app. right.
              rewrite Nat.add_0_r. by apply list_elem_of_singleton.
           ++ right. exists i, e'. split; [lia|]. by split.
    + intros j Hj. rewrite IHlow by lia. apply Hes1. lia.
    + intros i e' Hi Hbound. destruct i as [|i].
      * cbn in Hi. injection Hi as ->. rewrite Nat.add_0_r in *.
        rewrite IHlow by lia.
        destruct (inSlowField t e'); injection Hacc1 as -> ->;
          [by apply list_lookup_insert_eq|reflexivity].
      * cbn in Hi. replace (k + S i)%nat with (S k + i)%nat in * by lia.
        rewrite (IHhigh i e' Hi) by lia.
        destruct (inSlowField t e'); [reflexivity|]. apply Hes1. lia.
Qed.

Lemma removeStatusEffect_lookup (type : string) (e : Enemy) :
  statusEffects (removeStatusEffect type e) !! type = None.
Proof.
  unfold removeStatusEffect, hasStatusEffect.
  destruct (bool_decide (is_Some (statusEffects e !! type))) eqn:Hhas.
  - cbn. apply lookup_delete_eq.
  - apply bool_decide_eq_false in Hhas.
    destruct (statusEffects e !! type) eqn:Hl; [|reflexivity].
    exfalso. apply Hhas. eauto.
Qed.

Lemma unslow_fold (cur slowed : list nat) (es : list Enemy) :
  let r := fold_left (unslow cur) slowed es in
  length r = length es /\
  forall j e, es !! j = Some e ->
    exists e', r !! j = Some e' /\
      (j ∈ slowed /\ (j ∉ cur) -> statusEffects e' !! "slow" = None) /\
      (~ (j ∈ slowed /\ (j ∉ cur)) -> e' = e).
Proof.
  cbv zeta. revert es. induction slowed as [|i rest IH]; intros es.
  - cbn. split; [reflexivity|]. intros j e Hj. exists e.
    split; [exact Hj|]. split; [|done].
    intros [Hin _]. by apply elem_of_nil in Hin.
  - cbn [fold_left]. set (es1 := unslow cur es i).
    assert (Hlen1 : length es1 = length es).
    { unfold es1, unslow. destruct (bool_decide _); [reflexivity|].
      destruct (es !! i); [apply length_insert|reflexivity]. }
    assert (Hes1 : forall j e, es !! j = Some e ->
              es1 !! j = Some (if bool_decide (j = i /\ i ∉ cur)
                               then removeStatusEffect "slow" e else e)).
    { intros j e Hj. unfold es1, unslow.
      destruct (decide (i ∈ cur)) as [Hin|Hout].
      - rewrite bool_decide_eq_true_2 by exact Hin.
        rewrite bool_decide_eq_false_2 by tauto. exact Hj.
      - rewrite bool_decide_eq_false_2 by exact Hout.
        destruct (decide (j = i)) as [->|Hne].
        + rewrite Hj, bool_decide_eq_true_2 by tauto.
          apply list_lookup_insert_eq. by eapply lookup_lt_Some.
        + rewrite bool_decide_eq_false_2 by tauto.
          destruct (es !! i); [|exact Hj].
          by rewrite list_lookup_insert_ne. }
    destruct (IH es1) as [IHlen IHlook].
    split; [congruence|]. intros j e Hj.
    destruct (IHlook j _ (Hes1 j e Hj)) as (e' & Hr & Hgone & Hsame).
    exists e'. split; [exact Hr|]. split.
    + intros [Hin Hout].
      destruct (decide (j ∈ rest)) as [Hrest|Hnrest]; [by apply Hgone|].
      apply elem_of_cons in Hin as [->|Hin]; [|contradiction].
      rewrite Hsame by tauto.
      rewrite bool_decide_eq_true_2 by tauto.
      apply removeStatusEffect_lookup.
    + intros Hnot. rewrite Hsame.
      * rewrite bool_decide_eq_false_2; [reflexivity|].
        intros [-> Hout]. apply Hnot. split; [apply list_elem_of_here|exact Hout].
      * intros [Hin Hout]. apply Hnot. split; [by apply list_elem_of_further|exact Hout].
Qed.

Lemma sameEffects_refl (es : list Enemy) :
  Forall2 (fun a b => statusEffects a = statusEffects b) es es.
Proof.
  apply Forall2_same_length_lookup_2; [reflexivity|].
  intros j a b Ha Hb. congruence.
Qed.

Lemma attackEnemy_statusEffects (now : Q) (t : Tower) (i : nat)
  (es : list Enemy) :
  Forall2 (fun a b => statusEffects a = statusEffects b)
    (attackEnemy now t i es) es.
Proof.
  unfold attackEnemy.
  destruct (es !! i) as [e|] eqn:Hi; [|apply sameEffects_refl].
  destruct (isAlive e); [|apply sameEffects_refl].
  apply Forall2_same_length_lookup_2; [apply length_insert|].
  intros j a b Ha Hb. destruct (decide (i = j)) as [->|Hne].
  - rewrite list_lookup_insert_eq in Ha by (by eapply lookup_lt_Some).
    injection Ha as <-. rewrite Hi in Hb. injection Hb as <-.
    unfold takeDamage_untyped, takeDamage. by destruct (_ || _).
  - rewrite list_lookup_insert_ne in Ha by exact Hne. congruence.
Qed.

Lemma chainLoop_statusEffects (now : Q) (t : Tower) (hops : nat)
  (current : nat) (hit : list nat) (es : list Enemy) :
  Forall2 (fun a b => statusEffects a = statusEffects b)
    (snd (chainLoop now t hops current hit es)) es.
Proof.
  revert current hit es. induction hops as [|hops IH]; intros current hit es.
  - cbn. apply sameEffects_refl.
  - cbn [chainLoop]. destruct (findNextChainTarget t current hit es) as [next|].
    + pose proof (IH next (hit ++ [next]) (attackEnemy now t next es)) as H1.
      pose proof (attackEnemy_statusEffects now t next es) as H2.
      apply Forall2_same_length_lookup_2.
      * rewrite (Forall2_length _ _ _ H1). by rewrite (Forall2_length _ _ _ H2).
      * intros j a b Ha Hb.
        destruct (Forall2_lookup_l _ _ _ _ _ H1 Ha) as (c & Hc & Hac).
        destruct (Forall2_lookup_l _ _ _ _ _ H2 Hc) as (b' & Hb' & Hcb).
        congruence.
    + cbn. apply sameEffects_refl.
Qed.

Lemma findTarget_slowedEnemies (enemies : list Enemy) (t : Tower) :
  slowedEnemies (snd (findTarget enemies t)) = slowedEnemies t.
Proof. unfold findTarget. by destruct (targetWithin 2.0 t enemies). Qed.

(** The slow field of a magic tower that can attack: after an update every
    live enemy within the range carries a fresh slow of 10 s with the tower's
    slow amount and is on the tower's list of slowed enemies; an enemy that
    is dead or out of range is not on the list, has lost its slow if it was
    on the list before, and otherwise keeps its status effects.  The strike
    of the same update does not touch the status effects. *)
Theorem slow_field (now dt : Q) (enemies : list Enemy) (t : Tower) :
  canAttack t = true ->
  let r := MagicTower_update now dt enemies t in
  let t' := fst (fst r) in
  let enemies' := snd (fst r) in
  length enemies' = length enemies /\
  forall (j : nat) (e : Enemy),
    enemies !! j = Some e ->
    exists e', enemies' !! j = Some e' /\
      (inSlowField t e = true ->
       j ∈ slowedEnemies t' /\
       statusEffects e' !! "slow" = Some (mkEffect 10000 (slowAmount t) now)) /\
      (inSlowField t e = false ->
       (j ∉ slowedEnemies t') /\
       (j ∈ slowedEnemies t -> statusEffects e' !! "slow" = None) /\
       (j ∉ slowedEnemies t -> statusEffects e' = statusEffects e)).
Proof.
  intros Hcan. cbv zeta. unfold MagicTower_update. rewrite Hcan. cbn [negb].
  cbv zeta.
  set (t1 := set_attackCooldown (attackCooldown t - dt) t).
  pose proof (slowField_from now t1 enemies 0 [] enemies) as Hscan.
  cbv zeta in Hscan. fold (for_of (slowField_body now t1) enemies ([], enemies))
    in Hscan.
  destruct (for_of (slowField_body now t1) enemies ([], enemies))
    as [cur es1].
  cbn [fst snd] in Hscan. destruct Hscan as (Hlen1 & Hcur & _ & Hes1).
  pose proof (unslow_fold cur (slowedEnemies t1) es1) as Hun.
  cbv zeta in Hun. destruct Hun as [Hlen2 Hes2].
  set (es2 := fold_left (unslow cur) (slowedEnemies t1) es1) in *.
  set (t2 := set_slowedEnemies cur t1).
  (* the state of the field before the strike *)
  assert (Hfield : forall j e, enemies !! j = Some e ->
    exists e2, es2 !! j = Some e2 /\
      (inSlowField t e = true ->
       j ∈ cur /\
       statusEffects e2 !! "slow" = Some (mkEffect 10000 (slowAmount t) now)) /\
      (inSlowField t e = false ->
       (j ∉ cur) /\
       (j ∈ slowedEnemies t -> statusEffects e2 !! "slow" = None) /\
       (j ∉ slowedEnemies t -> statusEffects e2 = statusEffects e))).
  { intros j e Hj.
    pose proof (Hes1 j e Hj) as H1. cbn [Nat.add] in H1.
    specialize (H1 (lookup_lt_Some _ _ _ Hj)).
    change (inSlowField t1 e) with (inSlowField t e) in H1.
    change (slowAmount t1) with (slowAmount t) in H1.
    change (slowedEnemies t1) with (slowedEnemies t) in *.
    destruct (inSlowField t e) eqn:Hin.
    - destruct (Hes2 j _ H1) as (e2 & He2 & _ & Hsame).
      assert (Hjcur : j ∈ cur).
      { apply Hcur. right. exists j, e. by repeat split. }
      exists e2. split; [exact He2|]. split; [|discriminate].
      intros _. split; [exact Hjcur|].
      rewrite Hsame by tauto. apply applyStatusEffect_lookup.
    - rewrite Hj in H1. destruct (Hes2 j e H1) as (e2 & He2 & Hgone & Hsame).
      assert (Hjcur : j ∉ cur).
      { intros Hjc. apply Hcur in Hjc as [Hjc|(i & ei & Hji & Hi & Hf)];
          [by apply elem_of_nil in Hjc|].
        cbn in Hji. subst i. rewrite Hj in Hi. injection Hi as <-.
        change (inSlowField t1 e) with (inSlowField t e) in Hf. congruence. }
      exists e2. split; [exact He2|]. split; [discriminate|].
      intros _. split; [exact Hjcur|]. split.
      + intros Hjs. apply Hgone. by split.
      + intros Hjs. rewrite Hsame by tauto. reflexivity. }
  (* the strike keeps lengths, status effects and the list of the slowed *)
  assert (Hlift : forall (t' : Tower) (es' : list Enemy),
    slowedEnemies t' = cur ->
    Forall2 (fun a b => statusEffects a = statusEffects b) es' es2 ->
    length es' = length enemies /\
    forall j e, enemies !! j = Some e ->
      exists e', es' !! j = Some e' /\
        (inSlowField t e = true ->
         j ∈ slowedEnemies t' /\
         statusEffects e' !! "slow"
         = Some (mkEffect 10000 (slowAmount t) now)) /\
        (inSlowField t e = false ->
         (j ∉ slowedEnemies t') /\
         (j ∈ slowedEnemies t -> statusEffects e' !! "slow" = None) /\
         (j ∉ slowedEnemies t -> statusEffects e' = statusEffects e))).
  { intros t' es' Hsl Hsame. split.
    { rewrite (Forall2_length _ _ _ Hsame). congruence. }
    intros j e Hj. destruct (Hfield j e Hj) as (e2 & He2 & Hin & Hout).
    destruct (Forall2_lookup_r _ _ _ _ _ Hsame He2) as (e' & He' & Heq).
    exists e'. split; [exact He'|]. rewrite Hsl, Heq. by split. }
  destruct (Math.leb (attackCooldown t2) 0).
  - pose proof (findTarget_slowedEnemies es2 t2) as Hsl.
    destruct (findTarget es2 t2) as [found t3]. cbn [snd] in Hsl.
    destruct found as [firstTarget|].
    + unfold performChainLightning. cbv zeta.
      pose proof (chainLoop_statusEffects now t3 (chainCount t3 - 1)
                    firstTarget [firstTarget]
                    (attackEnemy now t3 firstTarget es2)) as Hchain.
      pose proof (attackEnemy_statusEffects now t3 firstTarget es2) as Hfirst.
      destruct (chainLoop now t3 (chainCount t3 - 1) firstTarget
                  [firstTarget] (attackEnemy now t3 firstTarget es2))
        as [hit es3].
      cbn [fst snd] in *. apply Hlift; [exact Hsl|].
      apply Forall2_same_length_lookup_2.
      * rewrite (Forall2_length _ _ _ Hchain).
        by rewrite (Forall2_length _ _ _ Hfirst).
      * intros j a b Ha Hb.
        destruct (Forall2_lookup_l _ _ _ _ _ Hchain Ha) as (c & Hc & Hac).
        destruct (Forall2_lookup_l _ _ _ _ _ Hfirst Hc) as (b' & Hb' & Hcb).
        congruence.
    + cbn [fst snd]. apply Hlift; [exact Hsl|apply sameEffects_refl].
  - cbn [fst snd]. apply Hlift; [reflexivity|apply sameEffects_refl].
Qed.

Lemma slow_field_witness :
  let t := MagicTower 0 0 in
  let enemies := [Scout 50 0; Knight 300 0] in
  let r := MagicTower_update 1000 16 enemies t in
  let t' := fst (fst r) in
  let enemies' := snd (fst r) in
  length enemies' = length enemies /\
  forall (j : nat) (e : Enemy),
    enemies !! j = Some e ->
    exists e', enemies' !! j = Some e' /\
      (inSlowField t e = true ->
       j ∈ slowedEnemies t' /\
       statusEffects e' !! "slow" = Some (mkEffect 10000 (slowAmount t) 1000)) /\
      (inSlowField t e = false ->
       (j ∉ slowedEnemies t') /\
       (j ∈ slowedEnemies t -> statusEffects e' !! "slow" = None) /\
       (j ∉ slowedEnemies t -> statusEffects e' = statusEffects e)).
Proof.
  apply (slow_field 1000 16 [Scout 50 0; Knight 300 0] (MagicTower 0 0)).
  reflexivity.
Defined.

(** ** The update loop of the enemy manager *)

Lemma indexOf_NoDup (l : list nat) (i x : nat) :
  NoDup l -> l !! i = Some x -> indexOf x l = Some i.
Proof.
  intros Hnd Hi.
  destruct (indexOf x l) as [k|] eqn:Hk.
  - f_equal. apply (NoDup_lookup l k i x Hnd); [|exact Hi].
    rewrite (indexOf_Some_split _ _ _ Hk) at 1.
    pose proof (indexOf_Some_split _ _ _ Hk) as Hsplit.
    assert (Hlt : (k < length l)%nat).
    { destruct (decide (k < length l)%nat) as [H|H]; [exact H|].
      rewrite take_ge, drop_ge in Hsplit by lia.
      exfalso. assert (Hlen : length l = length (l ++ [x])) by congruence.
      rewrite length_app in Hlen. cbn in Hlen. lia. }
    rewrite lookup_app_r by (rewrite length_take; lia).
    rewrite length_take. replace (k - k `min` length l)%nat with 0%nat by lia.
    reflexivity.
  - exfalso. apply (indexOf_None _ _ Hk). by eapply list_elem_of_lookup_2.
Qed.

Lemma removeEnemy_at (enemy index : nat) (m : EnemyManager) (s : Store) :
  indexOf enemy (enemies m) = Some index ->
  enemies (fst (removeEnemy enemy m s)) = delete index (enemies m) /\
  (forall r, r <> enemy ->
     objects (snd (removeEnemy enemy m s)) !! r = objects s !! r) /\
  (forall r, is_Some (objects s !! r) ->
     is_Some (objects (snd (removeEnemy enemy m s)) !! r)).
Proof.
  intros Hidx. unfold removeEnemy. rewrite Hidx. unfold splice1.
  rewrite <- delete_take_drop.
  destruct (objects s !! enemy) as [e|]; [|by repeat split].
  destruct (enemyPool m !! enemyType e) as [p|]; [|by repeat split].
  unfold ObjectPool_release.
  destruct (indexOf enemy (activeObjects p)); [|by repeat split].
  cbn. split; [reflexivity|]. split.
  - intros r Hne. by apply lookup_alter_ne.
  - intros r Hr. by apply lookup_alter_is_Some.
Qed.

Lemma EnemyManager_update_from_sweeps (sqrt : Q -> Q) (dt : Q) (i : nat) :
  forall (w : option Game) (m : EnemyManager) (s : Store),
    (i <= length (enemies m))%nat ->
    NoDup (enemies m) ->
    (forall r, r ∈ enemies m -> is_Some (objects s !! r)) ->
    (forall k r, (i <= k)%nat -> enemies m !! k = Some r -> inPlay s r) ->
    exists w' m' s',
      EnemyManager_update_from sqrt dt i w m s = Some (w', m', s') /\
      NoDup (enemies m') /\
      (forall r, r ∈ enemies m' -> r ∈ enemies m) /\
      (forall r, r ∈ enemies m' -> inPlay s' r).
Proof.
  induction i as [|i IH]; intros w m s Hlen Hnd Hobj Hdone.
  - exists w, m, s. split; [reflexivity|]. split; [exact Hnd|].
    split; [done|]. intros r Hr.
    apply list_elem_of_lookup in Hr as [k Hk]. apply (Hdone k r); [lia|exact Hk].
  - cbn [EnemyManager_update_from].
    destruct (enemies m !! i) as [enemy|] eqn:Hi;
      [|apply lookup_ge_None in Hi; lia].
    assert (Hin : enemy ∈ enemies m) by (by eapply list_elem_of_lookup_2).
    destruct (Hobj enemy Hin) as [e He]. rewrite He.
    destruct (Enemy_update sqrt w dt e) as [w1 e1].
    set (s1 := overwrite enemy e1 s).
    assert (Hs1 : forall r, r <> enemy -> objects s1 !! r = objects s !! r).
    { intros r Hne. unfold s1, overwrite. cbn. by apply lookup_insert_ne. }
    assert (Hs1e : objects s1 !! enemy = Some e1).
    { unfold s1, overwrite. cbn. apply lookup_insert_eq. }
    assert (Hobj1 : forall r, r ∈ enemies m -> is_Some (objects s1 !! r)).
    { intros r Hr. destruct (decide (r = enemy)) as [->|Hne];
        [rewrite Hs1e; eauto|rewrite Hs1 by exact Hne; by apply Hobj]. }
    assert (Hother : forall k r, (S i <= k)%nat -> enemies m !! k = Some r ->
              r <> enemy).
    { intros k r Hk Hkr ->.
      pose proof (NoDup_lookup _ _ _ _ Hnd Hi Hkr). lia. }
    destruct (negb (isAlive e1) || hasReachedEnd e1) eqn:Hgone.
    + destruct (removeEnemy_at enemy i m s1 (indexOf_NoDup _ _ _ Hnd Hi))
        as (Hlist & Hkeep & Hsome).
      destruct (removeEnemy enemy m s1) as [m2 s2]. cbn [fst snd] in *.
      assert (Hsub : forall r, r ∈ enemies m2 -> r ∈ enemies m).
      { intros r Hr. rewrite Hlist in Hr.
        eapply elem_of_sublist; [exact Hr|apply sublist_delete]. }
      destruct (IH w1 m2 s2) as (w' & m' & s' & Hrun & Hnd' & Hsub' & Hplay).
      * rewrite Hlist, length_delete by eauto. lia.
      * rewrite Hlist. eapply sublist_NoDup; [exact Hnd|apply sublist_delete].
      * intros r Hr. apply Hsome, Hobj1, Hsub, Hr.
      * intros k r Hk Hkr. rewrite Hlist, list_lookup_delete_ge in Hkr by lia.
        pose proof (Hother (S k) r ltac:(lia) Hkr) as Hne.
        destruct (Hdone (S k) r ltac:(lia) Hkr) as (er & Her & Ha & Hend).
        exists er. rewrite Hkeep, Hs1 by exact Hne. by repeat split.
      * exists w', m', s'. split; [exact Hrun|]. split; [exact Hnd'|].
        split; [|exact Hplay]. intros r Hr. apply Hsub, Hsub', Hr.
    + apply orb_false_iff in Hgone as [Halive Hend].
      apply negb_false_iff in Halive.
      destruct (IH w1 m s1) as (w' & m' & s' & Hrun & Hnd' & Hsub' & Hplay).
      * lia.
      * exact Hnd.
      * exact Hobj1.
      * intros k r Hk Hkr. destruct (decide (k = i)) as [->|Hki].
        -- rewrite Hi in Hkr. injection Hkr as <-. by exists e1.
        -- pose proof (Hother k r ltac:(lia) Hkr) as Hne.
           destruct (Hdone k r ltac:(lia) Hkr) as (er & Her & Ha & Hend').
           exists er. rewrite Hs1 by exact Hne. by repeat split.
      * exists w', m', s'. by repeat split.
Qed.

(** The sweep of the enemy manager: on a list of distinct enemies the
    update finishes (it never reads past the end of the list while it
    removes enemies from it), and afterwards every enemy that is still
    listed is alive and has not walked its path to the end; no enemy is
    added to the list. *)
Theorem EnemyManager_update_sweeps (sqrt : Q -> Q) (dt : Q)
  (w : option Game) (m : EnemyManager) (s : Store) :
  NoDup (enemies m) ->
  (forall r, r ∈ enemies m -> is_Some (objects s !! r)) ->
  exists w' m' s',
    EnemyManager_update sqrt dt w m s = Some (w', m', s') /\
    NoDup (enemies m') /\
    (forall r, r ∈ enemies m' -> r ∈ enemies m) /\
    (forall r, r ∈ enemies m' -> inPlay s' r).
Proof.
  intros Hnd Hobj. unfold EnemyManager_update.
  apply EnemyManager_update_from_sweeps; [lia|exact Hnd|exact Hobj|].
  intros k r Hk Hkr. apply lookup_lt_Some in Hkr. lia.
Qed.

Lemma EnemyManager_update_sweeps_witness :
  let m := mkEnemyManager [0; 1]%nat ∅ (mkVector2 (-30) 210) setupPath in
  let s := mkStore
             (<[0%nat := Enemy_setPath setupPath (Scout 0 0)]>
                (<[1%nat := snd (takeDamage 80 "normal" 0 (Knight 0 0))]> ∅))
             2 in
  exists w' m' s',
    EnemyManager_update (fun x => x) 16
      (Some (Game_new (createMap 15 10))) m s = Some (w', m', s') /\
    NoDup (enemies m') /\
    (forall r, r ∈ enemies m' -> r ∈ enemies m) /\
    (forall r, r ∈ enemies m' -> inPlay s' r).
Proof.
  apply (EnemyManager_update_sweeps (fun x => x) 16
           (Some (Game_new (createMap 15 10)))
           (mkEnemyManager [0; 1]%nat ∅ (mkVector2 (-30) 210) setupPath)
           (mkStore
              (<[0%nat := Enemy_setPath setupPath (Scout 0 0)]>
                 (<[1%nat := snd (takeDamage 80 "normal" 0 (Knight 0 0))]> ∅))
              2)).
  - cbn [enemies]. apply (bool_decide_unpack _). vm_compute. exact I.
  - cbn [enemies objects]. intros r Hr.
    apply elem_of_cons in Hr as [->|Hr].
    + rewrite lookup_insert_eq. eauto.
    + apply list_elem_of_singleton in Hr as ->.
      rewrite lookup_insert_ne by discriminate. rewrite lookup_insert_eq. eauto.
Defined.

(** ** Waves *)

Lemma roster_cons (g : EnemyGroup) (rest : list EnemyGroup) :
  roster (g :: rest)
  = replicate (Z.to_nat (group_count g)) (group_type g) ++ roster rest.
Proof. reflexivity. Qed.

Lemma totalEnemies_roster (enemies : list EnemyGroup) (z : Z) :
  Forall (fun enemyGroup => (0 < group_count enemyGroup)%Z) enemies ->
  fold_left (fun sum enemy => (sum + group_count enemy)%Z) enemies z
  = (z + Z.of_nat (length (roster enemies)))%Z.
Proof.
  intros Hpos. revert z. induction Hpos as [|g rest Hg Hrest IH]; intros z.
  - cbn. lia.
  - cbn [fold_left]. rewrite IH, roster_cons, length_app, length_replicate.
    lia.
Qed.

Lemma spawnInvariant_complete (R soFar rest : list string) :
  soFar ++ rest = R -> (length R <= length soFar)%nat -> soFar = R.
Proof.
  intros <- Hlen. rewrite length_app in Hlen.
  destruct rest; [by rewrite app_nil_r|]. cbn in Hlen. lia.
Qed.

Lemma updateEnemySpawning_invariant (dt : Q) (k : nat) (R soFar : list string)
  (f : WaveFlow) :
  spawnInvariant k R soFar f ->
  spawnInvariant k R
    (soFar ++ match fst (updateEnemySpawning dt f) with
              | Some type => [type]
              | None => []
              end)
    (snd (updateEnemySpawning dt f)).
Proof.
  intros (Hcur & wave & Hwave & Hroster & Hspawned & Htotal & Hpos & Hdone).
  assert (Hk : (k < length (waves f))%nat) by (by eapply lookup_lt_Some).
  unfold updateEnemySpawning. rewrite Hcur, Hwave.
  destruct (isCompleted wave) eqn:Hcompleted.
  { cbn [fst snd]. rewrite app_nil_r. split; [exact Hcur|].
    exists wave. rewrite Hcompleted. by repeat split. }
  cbv zeta.
  (* the tick when nothing is spawned *)
  assert (Hidle : forall timer,
    spawnInvariant k R (soFar ++ [])
      (mkWaveFlow (state f) (isPaused f) (previousState f)
         (<[k := if (totalEnemies wave <=? enemiesSpawned wave)%Z
                 then mkWave (waveNumber wave) (wave_enemies wave)
                        (preparationTime wave) true (enemiesSpawned wave)
                        (totalEnemies wave)
                 else wave]> (waves f))
         (currentWave f) (Some k) (waveTimer f) timer
         (currentEnemyGroup f))).
  { intros timer. rewrite app_nil_r. split; [reflexivity|].
    eexists. cbn [waves currentEnemyGroup].
    split; [by apply list_lookup_insert_eq|].
    destruct (totalEnemies wave <=? enemiesSpawned wave)%Z eqn:Hall;
      cbn [wave_enemies enemiesSpawned totalEnemies isCompleted].
    - apply Z.leb_le in Hall. repeat split; try assumption.
      intros _. eapply spawnInvariant_complete; [exact Hroster|lia].
    - repeat split; try assumption. by rewrite Hcompleted. }
  destruct (wave_enemies wave !! currentEnemyGroup f) as [g|] eqn:Hg;
    [|cbv beta iota zeta; cbn [fst snd]; apply Hidle].
  destruct (Math.leb (group_interval g) (spawnTimer f + dt));
    [|cbv beta iota zeta; cbn [fst snd]; apply Hidle].
  cbv beta iota zeta.
  cbn [fst snd group_type group_count enemiesSpawned totalEnemies
       wave_enemies waveNumber preparationTime isCompleted].
  pose proof (drop_S _ _ _ Hg) as Hdrop.
  rewrite Hdrop in Hroster, Hpos. rewrite roster_cons in Hroster.
  apply Forall_cons in Hpos as [Hcount Hlater].
  assert (Hc : (currentEnemyGroup f < length (wave_enemies wave))%nat)
    by (by eapply lookup_lt_Some).
  assert (Hrep : replicate (Z.to_nat (group_count g)) (group_type g)
                 = group_type g
                   :: replicate (Z.to_nat (group_count g - 1)) (group_type g)).
  { replace (Z.to_nat (group_count g))
      with (S (Z.to_nat (group_count g - 1))) by lia. reflexivity. }
  rewrite Hrep in Hroster.
  split; [reflexivity|]. eexists. cbn [waves currentEnemyGroup].
  split; [by apply list_lookup_insert_eq|].
  assert (Hleft :
    (soFar ++ [group_type g])
    ++ roster
         (drop (if (group_count g - 1 <=? 0)%Z
                then S (currentEnemyGroup f) else currentEnemyGroup f)
            (<[currentEnemyGroup f :=
                 mkEnemyGroup (group_type g) (group_count g - 1)
                   (group_interval g)]> (wave_enemies wave))) = R /\
    Forall (fun enemyGroup => (0 < group_count enemyGroup)%Z)
      (drop (if (group_count g - 1 <=? 0)%Z
             then S (currentEnemyGroup f) else currentEnemyGroup f)
         (<[currentEnemyGroup f :=
              mkEnemyGroup (group_type g) (group_count g - 1)
                (group_interval g)]> (wave_enemies wave)))).
  { destruct (group_count g - 1 <=? 0)%Z eqn:Hlast.
    - apply Z.leb_le in Hlast.
      rewrite drop_insert_lt by lia. split; [|exact Hlater].
      replace (Z.to_nat (group_count g - 1)) with 0%nat in Hroster by lia.
      cbn in Hroster. by rewrite <- app_assoc.
    - apply Z.leb_gt in Hlast.
      rewrite (drop_S _ (mkEnemyGroup (group_type g) (group_count g - 1)
                           (group_interval g)))
        by (by apply list_lookup_insert_eq).
      rewrite drop_insert_lt by lia. split.
      + rewrite roster_cons. cbn [group_type group_count].
        by rewrite <- app_assoc.
      + constructor; [cbn; lia|exact Hlater]. }
  destruct Hleft as [Hleft Hposleft].
  assert (Hlen : (enemiesSpawned wave + 1)%Z
                 = Z.of_nat (length (soFar ++ [group_type g]))).
  { rewrite length_app. cbn. lia. }
  destruct (totalEnemies wave <=? enemiesSpawned wave + 1)%Z eqn:Hall;
    cbn [wave_enemies enemiesSpawned totalEnemies isCompleted].
  - apply Z.leb_le in Hall. repeat split; try assumption.
    intros _. eapply spawnInvariant_complete; [exact Hleft|lia].
  - repeat split; try assumption. rewrite ?Hcompleted. discriminate.
Qed.

Lemma spawning_invariant (deltaTimes : list Q) (k : nat)
  (R soFar : list string) (f : WaveFlow) :
  spawnInvariant k R soFar f ->
  spawnInvariant k R (soFar ++ fst (spawning deltaTimes f))
    (snd (spawning deltaTimes f)).
Proof.
  revert soFar f. induction deltaTimes as [|dt rest IH]; intros soFar f Hinv.
  - cbn. by rewrite app_nil_r.
  - cbn [spawning].
    pose proof (updateEnemySpawning_invariant dt k R soFar f Hinv) as Hstep.
    destruct (updateEnemySpawning dt f) as [spawned f1]. cbn [fst snd] in Hstep.
    specialize (IH _ f1 Hstep).
    destruct (spawning rest f1) as [later f2]. cbn [fst snd] in *.
    destruct spawned as [type|]; [|by rewrite app_nil_r in IH].
    by rewrite <- app_assoc in IH.
Qed.

(** A wave spawns its roster and nothing else.  After [startNextWave] on a
    fresh wave whose groups all have a positive count, any run of spawning
    ticks has spawned a prefix of the roster (the groups in order, each type
    as often as its count says); [enemiesSpawned] counts what was spawned,
    [totalEnemies] is the size of the roster, and when the wave is marked
    completed the whole roster was spawned. *)
Theorem wave_spawns_its_roster (f : WaveFlow) (k waveNumber : nat)
  (enemies : list EnemyGroup) (preparationTime : Q) (deltaTimes : list Q) :
  state f = WAVE_PREPARING ->
  currentWaveObj f = Some k ->
  waves f !! k = Some (Wave_new waveNumber enemies preparationTime) ->
  Forall (fun enemyGroup => (0 < group_count enemyGroup)%Z) enemies ->
  exists f0 wave,
    startNextWave f = Some f0 /\
    waves (snd (spawning deltaTimes f0)) !! k = Some wave /\
    fst (spawning deltaTimes f0) `prefix_of` roster enemies /\
    enemiesSpawned wave = Z.of_nat (length (fst (spawning deltaTimes f0))) /\
    totalEnemies wave = Z.of_nat (length (roster enemies)) /\
    (isCompleted wave = true -> fst (spawning deltaTimes f0) = roster enemies).
Proof.
  intros Hstate Hcur Hwave Hpos.
  assert (Hk : (k < length (waves f))%nat) by (by eapply lookup_lt_Some).
  unfold startNextWave. rewrite Hstate, Hcur, Hwave.
  match goal with |- exists f0 wave, Some ?x = Some f0 /\ _ =>
    set (f0 := x) end.
  exists f0.
  assert (Hinv : spawnInvariant k (roster enemies) [] f0).
  { split; [reflexivity|]. eexists. unfold f0. cbn [waves currentEnemyGroup].
    split; [by apply list_lookup_insert_eq|].
    cbn [wave_enemies enemiesSpawned totalEnemies isCompleted Wave_new].
    rewrite drop_0. repeat split; try done.
    rewrite totalEnemies_roster by exact Hpos. lia. }
  pose proof (spawning_invariant deltaTimes k _ _ f0 Hinv) as Hrun.
  cbn [app] in Hrun.
  destruct Hrun as (_ & wave & Hw & Hroster & Hspawned & Htotal & _ & Hdone).
  exists wave. split; [reflexivity|]. split; [exact Hw|].
  split; [eexists; symmetry; exact Hroster|]. by repeat split.
Qed.

Lemma wave_spawns_its_roster_witness :
  let enemies := [mkEnemyGroup "scout" 2 800; mkEnemyGroup "knight" 1 3000] in
  let f := mkWaveFlow WAVE_PREPARING false None
             [Wave_new 3 enemies 14100] 3 (Some 0%nat) 0 0 0 in
  let deltaTimes := [500; 500; 1000; 3000; 16] in
  exists f0 wave,
    startNextWave f = Some f0 /\
    waves (snd (spawning deltaTimes f0)) !! 0%nat = Some wave /\
    fst (spawning deltaTimes f0) `prefix_of` roster enemies /\
    enemiesSpawned wave = Z.of_nat (length (fst (spawning deltaTimes f0))) /\
    totalEnemies wave = Z.of_nat (length (roster enemies)) /\
    (isCompleted wave = true -> fst (spawning deltaTimes f0) = roster enemies).
Proof.
  apply (wave_spawns_its_roster
           (mkWaveFlow WAVE_PREPARING false None
              [Wave_new 3 [mkEnemyGroup "scout" 2 800;
                           mkEnemyGroup "knight" 1 3000] 14100]
              3 (Some 0%nat) 0 0 0)
           0 3 [mkEnemyGroup "scout" 2 800; mkEnemyGroup "knight" 1 3000]
           14100 [500; 500; 1000; 3000; 16]).
  - reflexivity.
  - reflexivity.
  - reflexivity.
  - repeat constructor.
Defined.

Lemma spawning_completed (deltaTimes : list Q) (f : WaveFlow) (k : nat)
  (wave : Wave) :
  currentWaveObj f = Some k -> waves f !! k = Some wave ->
  isCompleted wave = true ->
  spawning deltaTimes f = ([], f).
Proof.
  intros Hcur Hwave Hdone. induction deltaTimes as [|dt rest IH];
    [reflexivity|].
  cbn [spawning]. unfold updateEnemySpawning. rewrite Hcur, Hwave, Hdone.
  by rewrite IH.
Qed.

(** A wave that was played to completion stays silent when the game is
    started again: [startGame] and [startNextWave] put the first wave back
    in play and reset its [enemiesSpawned], but not its [isCompleted] flag,
    so no run of spawning ticks spawns an enemy of it. *)
Theorem completed_wave_spawns_nothing_again (f : WaveFlow) (wave : Wave)
  (deltaTimes : list Q) :
  waves f !! 0%nat = Some wave ->
  isCompleted wave = true ->
  exists f1 f2 wave',
    startGame f = Some f1 /\ startNextWave f1 = Some f2 /\
    state f2 = PLAYING /\ currentWaveObj f2 = Some 0%nat /\
    waves f2 !! 0%nat = Some wave' /\ enemiesSpawned wave' = 0%Z /\
    isCompleted wave' = true /\
    spawning deltaTimes f2 = ([], f2).
Proof.
  intros Hwave Hdone.
  assert (Hlt : (0 < length (waves f))%nat) by (by eapply lookup_lt_Some).
  unfold startGame. rewrite Hwave. eexists. eexists. eexists.
  split; [reflexivity|]. unfold startNextWave. cbn [state currentWaveObj waves].
  rewrite Hwave. split; [reflexivity|]. split; [reflexivity|].
  split; [reflexivity|]. cbn [waves].
  split; [by apply list_lookup_insert_eq|]. split; [reflexivity|].
  split; [exact Hdone|].
  eapply spawning_completed; [reflexivity| |].
  - cbn [waves]. by apply list_lookup_insert_eq.
  - exact Hdone.
Qed.

Lemma completed_wave_spawns_nothing_again_witness :
  let wave := mkWave 1 [mkEnemyGroup "scout" 0 1000] 14700 true 5 5 in
  let f := mkWaveFlow GAME_OVER false None [wave] 1 (Some 0%nat) 0 0 1 in
  exists f1 f2 wave',
    startGame f = Some f1 /\ startNextWave f1 = Some f2 /\
    state f2 = PLAYING /\ currentWaveObj f2 = Some 0%nat /\
    waves f2 !! 0%nat = Some wave' /\ enemiesSpawned wave' = 0%Z /\
    isCompleted wave' = true /\
    spawning [1000; 1000; 1000] f2 = ([], f2).
Proof.
  apply (completed_wave_spawns_nothing_again
           (mkWaveFlow GAME_OVER false None
              [mkWave 1 [mkEnemyGroup "scout" 0 1000] 14700 true 5 5]
              1 (Some 0%nat) 0 0 1)
           (mkWave 1 [mkEnemyGroup "scout" 0 1000] 14700 true 5 5)
           [1000; 1000; 1000]).
  - reflexivity.
  - reflexivity.
Defined.

(** ** Tower levels *)

(** A tower's level never passes its maximum: after [n] calls of [upgrade]
    the level is [level + n] capped at [maxLevel]; the calls beyond the
    maximum return false and change nothing. *)
Theorem upgrades_level (n : nat) (t : Tower) :
  (level t <= maxLevel t)%nat ->
  level (upgrades n t) = Nat.min (level t + n) (maxLevel t) /\
  maxLevel (upgrades n t) = maxLevel t /\
  (maxLevel t <= level t + n ->
   upgrade (upgrades n t) = (false, upgrades n t))%nat.
Proof.
  revert t. induction n as [|n IH]; intros t Hle.
  - cbn [upgrades]. split; [lia|]. split; [reflexivity|].
    intros Hmax. destruct (upgrade_shape t) as (Hfst & _ & _ & _ & Hsame).
    assert (Hfull : (maxLevel t <=? level t)%nat = true)
      by (apply Nat.leb_le; lia).
    rewrite Hfull in Hfst. cbn in Hfst.
    destruct (upgrade t) as [b t'] eqn:Hup. cbn [fst snd] in *. subst b.
    by rewrite (Hsame eq_refl).
  - cbn [upgrades].
    destruct (upgrade_shape t) as (Hfst & _ & Hmax & Hlevel & Hsame).
    destruct (maxLevel t <=? level t)%nat eqn:Hfull.
    + apply Nat.leb_le in Hfull. cbn in Hfst.
      rewrite (Hsame Hfst).
      destruct (IH t Hle) as (IH1 & IH2 & IH3).
      split; [lia|]. split; [exact IH2|]. intros _. apply IH3. lia.
    + apply Nat.leb_gt in Hfull. cbn in Hfst. rewrite Hfst in Hlevel.
      destruct (IH (snd (upgrade t))) as (IH1 & IH2 & IH3);
        [rewrite Hlevel, Hmax; lia|].
      rewrite Hlevel, Hmax in *.
      split; [lia|]. split; [exact IH2|]. intros Hn. apply IH3. lia.
Qed.

Lemma upgrades_level_witness :
  level (upgrades 5 (CannonTower 90 90))
  = Nat.min (level (CannonTower 90 90) + 5) (maxLevel (CannonTower 90 90)) /\
  maxLevel (upgrades 5 (CannonTower 90 90)) = maxLevel (CannonTower 90 90) /\
  (maxLevel (CannonTower 90 90) <= level (CannonTower 90 90) + 5 ->
   upgrade (upgrades 5 (CannonTower 90 90))
   = (false, upgrades 5 (CannonTower 90 90)))%nat.
Proof.
  apply (upgrades_level 5 (CannonTower 90 90)). cbn. lia.
Defined.

(** ** What a spawn resets *)

(** [spawnEnemy] hands out the instance at the end of the free list of the
    type's pool (the one released last) and resets nothing but the path: it
    stores the manager's path, sets the waypoint index to 0 and puts the
    enemy on the first waypoint.  Health, status effects, speed and the
    alive, dead and invulnerable flags are whatever the pooled object holds
    at that moment, so a write to a pooled instance is still there after the
    spawn. *)
Theorem spawnEnemy_resets_only_the_path (enemyType : string)
  (m : EnemyManager) (s : Store) (p : ObjectPool) (r : nat) (e : Enemy) :
  enemyPool m !! enemyType = Some p ->
  last (pool p) = Some r ->
  objects s !! r = Some e ->
  let '(spawned, m', s') := spawnEnemy enemyType m s in
  spawned = Some r /\
  enemies m' = enemies m ++ [r] /\
  enemyPool m' !! enemyType
  = Some (mkObjectPool (removelast (pool p)) (activeObjects p ++ [r])) /\
  objects s' !! r = Some (Enemy_setPath (em_path m) e) /\
  (forall r', r' <> r -> objects s' !! r' = objects s !! r') /\
  exists e' : Enemy,
    objects s' !! r = Some e' /\
    path e' = em_path m /\ currentWaypoint e' = 0%nat /\
    health e' = health e /\ maxHealth e' = maxHealth e /\
    statusEffects e' = statusEffects e /\
    currentSpeed e' = currentSpeed e /\
    isAlive e' = isAlive e /\ isDead e' = isDead e /\
    invulnerable e' = invulnerable e /\
    invulnerabilityTime e' = invulnerabilityTime e.
Proof.
  intros Hpool Hlast Hobj. unfold spawnEnemy, ObjectPool_get.
  rewrite Hpool, Hlast. cbn [enemies enemyPool].
  assert (Hr : objects (modify (Enemy_setPath (em_path m)) r s) !! r
               = Some (Enemy_setPath (em_path m) e)).
  { unfold modify. cbn [objects]. by rewrite lookup_alter_eq, Hobj. }
  split; [reflexivity|]. split; [reflexivity|].
  split; [by rewrite lookup_insert_eq|]. split; [exact Hr|]. split.
  - intros r' Hne. unfold modify. cbn [objects]. by apply lookup_alter_ne.
  - exists (Enemy_setPath (em_path m) e). split; [exact Hr|].
    unfold Enemy_setPath. destruct (em_path m); cbn; by repeat split.
Qed.

Lemma spawnEnemy_resets_only_the_path_witness :
  let m := EnemyManager_setPath setupPath
             (mkEnemyManager []
                (<["scout" := mkObjectPool [3; 7]%nat []]> ∅)
                (mkVector2 (-30) 210) []) in
  let e := snd (takeDamage 12 "physical" 1116 (resetEnemy m (Scout 0 0))) in
  let s := mkStore (<[7%nat := e]> (<[3%nat := Scout 0 0]> ∅)) 8 in
  let '(spawned, m', s') := spawnEnemy "scout" m s in
  spawned = Some 7%nat /\
  enemies m' = enemies m ++ [7%nat] /\
  enemyPool m' !! "scout"
  = Some (mkObjectPool (removelast [3; 7]%nat) ([] ++ [7%nat])) /\
  objects s' !! 7%nat = Some (Enemy_setPath (em_path m) e) /\
  (forall r', r' <> 7%nat -> objects s' !! r' = objects s !! r') /\
  exists e' : Enemy,
    objects s' !! 7%nat = Some e' /\
    path e' = em_path m /\ currentWaypoint e' = 0%nat /\
    health e' = health e /\ maxHealth e' = maxHealth e /\
    statusEffects e' = statusEffects e /\
    currentSpeed e' = currentSpeed e /\
    isAlive e' = isAlive e /\ isDead e' = isDead e /\
    invulnerable e' = invulnerable e /\
    invulnerabilityTime e' = invulnerabilityTime e.
Proof.
  apply (spawnEnemy_resets_only_the_path "scout"
           (EnemyManager_setPath setupPath
              (mkEnemyManager []
                 (<["scout" := mkObjectPool [3; 7]%nat []]> ∅)
                 (mkVector2 (-30) 210) []))
           (mkStore
              (<[7%nat := snd (takeDamage 12 "physical" 1116
                                 (resetEnemy
                                    (EnemyManager_setPath setupPath
                                       (mkEnemyManager []
                                          (<["scout" :=
                                               mkObjectPool [3; 7]%nat []]> ∅)
                                          (mkVector2 (-30) 210) []))
                                    (Scout 0 0)))]>
                 (<[3%nat := Scout 0 0]> ∅)) 8)
           (mkObjectPool [3; 7]%nat []) 7%nat
           (snd (takeDamage 12 "physical" 1116
                   (resetEnemy
                      (EnemyManager_setPath setupPath
                         (mkEnemyManager []
                            (<["scout" := mkObjectPool [3; 7]%nat []]> ∅)
                            (mkVector2 (-30) 210) []))
                      (Scout 0 0))))).
  - reflexivity.
  - reflexivity.
  - cbn [objects]. apply lookup_insert_eq.
Defined.
